(** * CEGAR pattern-collection generation (src/search/pdbs/cegar.cc)

    A shallow embedding of the refinement loop of [cegar.cc]: the
    projection collection with tombstoned slots, flaw detection over
    wildcard plans, the refinement policy (extend / merge / blacklist) and
    the driver loop, followed by the properties of the specification that
    are checked against it.

    Conventions.
    - C++ [int] values that take part in arithmetic (PDB sizes, the size
      limits, [collection_size], the refinement counter) are [Z] with the
      32-bit two's-complement wrap-around written out ([Int.wrap]).
    - Variable ids, operator ids and collection indices index vectors and
      are [nat]; [concrete_solution_index] keeps its [-1] sentinel and is
      a [Z].
    - [unordered_set<int>] is a [gset nat], [unordered_map<int,int>] a
      [gmap nat nat], [vector<unique_ptr<Projection>>] a
      [list (option Projection)] ([None] is the null pointer left behind
      by a merge).
    - [utils::exit_with], failed [assert]s (debug build) and undefined
      accesses (null slot, index past the end of a vector) are the three
      abnormal results of [Outcome].
    - Logging is dropped: it reads the state and changes nothing. *)

From stdpp Require Import gmap list sorting.
From Stdlib Require Import ZArith Lia.

Set Default Proof Using "Type".

(** ** Machine integers *)

Module Int.
Definition max_int : Z := 2147483647.
Definition min_int : Z := -2147483648.
Definition modulus : Z := 4294967296.

Definition wrap (z : Z) : Z := ((z - min_int) mod modulus + min_int)%Z.

Definition add (a b : Z) : Z := wrap (a + b).
Definition sub (a b : Z) : Z := wrap (a - b).
Definition mul (a b : Z) : Z := wrap (a * b).

Definition in_range (z : Z) : Prop := (min_int <= z <= max_int)%Z.
End Int.

(** ** The planning task, as the code reads it through [TaskProxy] *)

Record FactPair := mkFact { var : nat; value : Z }.

Record Effect := mkEffect {
  get_conditions : list FactPair;
  get_fact : FactPair;
}.

Record Operator := mkOperator {
  get_preconditions : list FactPair;
  get_effects : list Effect;
}.

Record AbstractTask := mkTask {
  get_domain_sizes : list Z;
  get_operators : list Operator;
  get_initial_state_values : list Z;
  get_goals : list FactPair;
}.

(** A state is its vector of unpacked values. *)
Definition State := list Z.

Definition Pattern := list nat.

#[global] Instance FactPair_eq_dec : EqDecision FactPair.
Proof. solve_decision. Defined.

(** Modelled from the spec: the accessors of the planning-task data
    structures ([State::operator[]], [OperatorsProxy::operator[]],
    [VariableProxy::get_domain_size]) are not part of cegar.cc.  They index
    without a bounds check; plans hold valid operator ids and facts valid
    variable ids, and out of range the model reads a fixed default. *)
Definition state_value (s : State) (v : nat) : Z := nth v s 0%Z.

Definition no_operator : Operator := mkOperator [] [].

Definition operator_at (task : AbstractTask) (op_id : nat) : Operator :=
  nth op_id (get_operators task) no_operator.

Definition get_domain_size (task : AbstractTask) (v : nat) : Z :=
  nth v (get_domain_sizes task) 0%Z.

Definition holds (s : State) (f : FactPair) : bool :=
  bool_decide (state_value s (var f) = value f).

(** Modelled from the spec: [does_fire] (task_proxy.h) - an effect fires
    when all its conditions hold in the state. *)
Definition does_fire (e : Effect) (s : State) : bool :=
  forallb (holds s) (get_conditions e).

(** Modelled from the spec: [task_properties::is_goal_state] - the state
    satisfies every goal of the task. *)
Definition is_goal_state (task : AbstractTask) (s : State) : bool :=
  forallb (holds s) (get_goals task).

(** [get_unregistered_successor]: every effect is tested against the
    state the operator is applied in and written into a copy of its values;
    preconditions are not looked at.  (A write past the end of the values,
    undefined in C++, leaves them as they are.) *)
Definition get_unregistered_successor (s : State) (op : Operator) : State :=
  foldl (fun new_values e =>
           if does_fire e s
           then <[var (get_fact e) := value (get_fact e)]> new_values
           else new_values)
        s (get_effects op).

(** ** Projections *)

Record PatternDatabase := mkPDB {
  pdb_pattern : Pattern;
  get_size : Z;
  initial_value : Z;
}.

Definition WildcardPlan := list (list nat).

Record Projection := mkProjection {
  get_pdb : PatternDatabase;
  get_plan : WildcardPlan;
  is_unsolvable : bool;
  is_solved : bool;
}.

Definition get_pattern (p : Projection) : Pattern := pdb_pattern (get_pdb p).

Definition mark_as_solved (p : Projection) : Projection :=
  mkProjection (get_pdb p) (get_plan p) (is_unsolvable p) true.

(** The services cegar.cc consumes and does not define: the random number
    generator, the PDB construction, the plan extractor and the map from
    operators of a projected task back to the concrete task. *)
Class Collaborators := {
  RandomNumberGenerator : Type;
  (** A call of the generator with bound [n]: a draw below [n] and the
      generator after it. *)
  rng_draw : RandomNumberGenerator → nat → nat * RandomNumberGenerator;
  (** [PatternDatabase::get_size] of the PDB built for a pattern. *)
  pdb_num_states : AbstractTask → Pattern → Z;
  (** [get_value_abstracted] of that PDB at the projected initial state. *)
  pdb_initial_distance : AbstractTask → Pattern → Z;
  (** The plan of abstract operator ids and the generator after the
      search. *)
  steepest_ascent_enforced_hillclimbing :
    AbstractTask → Pattern → RandomNumberGenerator → bool →
    WildcardPlan * RandomNumberGenerator;
  get_ancestor_operator_id : AbstractTask → Pattern → nat → nat;
}.

(** Modelled from the spec: the [PatternDatabase] constructor keeps the
    pattern it is given ([get_pattern]) and tabulates the projection. *)
Definition make_pdb `{Collaborators} (task : AbstractTask) (pattern : Pattern)
  : PatternDatabase :=
  mkPDB pattern (pdb_num_states task pattern) (pdb_initial_distance task pattern).

Definition compute_projection `{Collaborators}
    (concrete_task : AbstractTask) (pattern : Pattern)
    (rng : RandomNumberGenerator) (compute_wildcard_plan : bool)
  : Projection * RandomNumberGenerator :=
  let pdb := make_pdb concrete_task pattern in
  let init_goal_dist := initial_value pdb in
  if bool_decide (init_goal_dist = Int.max_int) then
    (mkProjection pdb [] true false, rng)
  else
    let '(plan, rng') :=
      steepest_ascent_enforced_hillclimbing
        concrete_task pattern rng compute_wildcard_plan in
    let plan :=
      map (map (get_ancestor_operator_id concrete_task pattern)) plan in
    (mkProjection pdb plan false false, rng').

(** ** Results of running the code *)

Inductive ExitCode := SEARCH_UNSOLVABLE | SEARCH_INPUT_ERROR.

Inductive Outcome (A : Type) :=
| Returns (a : A)
| ExitWith (code : ExitCode)
| AssertionFailed
| Undefined.
Arguments Returns {A} a.
Arguments ExitWith {A} code.
Arguments AssertionFailed {A}.
Arguments Undefined {A}.

Definition bind {A B} (o : Outcome A) (k : A → Outcome B) : Outcome B :=
  match o with
  | Returns a => k a
  | ExitWith code => ExitWith code
  | AssertionFailed => AssertionFailed
  | Undefined => Undefined
  end.

Notation "x ←! o ; k" := (bind o (fun x => k))
  (at level 20, o at level 100, k at level 200, right associativity,
   format "x  ←!  o ;  '/' k").
Notation "' pat ←! o ; k" :=
  (bind o (fun x => match x with pat => k end))
  (at level 20, pat pattern, o at level 100, k at level 200,
   right associativity).

Definition assert (b : bool) : Outcome unit :=
  if b then Returns tt else AssertionFailed.

(** ** The CEGAR object *)

Record Flaw := mkFlaw { collection_index : nat; variable : nat }.
Definition FlawList := list Flaw.

#[global] Instance Flaw_eq_dec : EqDecision Flaw.
Proof. solve_decision. Defined.

(** Modelled from the spec: [utils::CountdownTimer].  [clock k] is the
    elapsed time read by the [k]-th call of [is_expired]; an infinite
    budget ([None]) never expires. *)
Record CountdownTimer := mkTimer {
  timer_max_time : option Z;
  clock : nat → Z;
}.

Definition is_expired (timer : CountdownTimer) (poll : nat) : bool :=
  match timer_max_time timer with
  | None => false
  | Some m => bool_decide (m ≤ clock timer poll)%Z
  end.

(** Modelled from the spec: [utils::is_product_within_limit] tests
    [a ≤ limit / b] after handling [b = 0]. *)
Definition is_product_within_limit (a b limit : Z) : bool :=
  bool_decide (b = 0)%Z || bool_decide (a ≤ limit `quot` b)%Z.

(** The [const] members of [Cegar]. *)
Record Options := mkOptions {
  max_refinements : Z;
  max_pdb_size : Z;
  max_collection_size : Z;
  wildcard_plans : bool;
  max_time : option Z;
  task : AbstractTask;
  goals : list FactPair;
}.

(** The mutable members of [Cegar]. *)
Record Cegar `{Collaborators} := mkCegar {
  blacklisted_variables : gset nat;
  rng : RandomNumberGenerator;
  projection_collection : list (option Projection);
  variable_to_projection : gmap nat nat;
  collection_size : Z;
  concrete_solution_index : Z;
}.
Arguments mkCegar {_} _ _ _ _ _ _.

Section cegar.
Context `{Collaborators} (opts : Options).

Definition set_blacklisted_variables (c : Cegar) (b : gset nat) : Cegar :=
  mkCegar b (rng c) (projection_collection c) (variable_to_projection c)
          (collection_size c) (concrete_solution_index c).

Definition set_projection_collection (c : Cegar) (l : list (option Projection))
  : Cegar :=
  mkCegar (blacklisted_variables c) (rng c) l (variable_to_projection c)
          (collection_size c) (concrete_solution_index c).

Definition set_concrete_solution_index (c : Cegar) (i : Z) : Cegar :=
  mkCegar (blacklisted_variables c) (rng c) (projection_collection c)
          (variable_to_projection c) (collection_size c) i.

(** [*projection_collection[index]]. *)
Definition deref (c : Cegar) (index : nat) : Outcome Projection :=
  match projection_collection c !! index with
  | Some (Some p) => Returns p
  | _ => Undefined
  end.

(** The constructor: limits, task and goals are in [opts]; the counters
    start at [0] and at the sentinel [-1]. *)
Definition Cegar_new (blacklist : gset nat) (r : RandomNumberGenerator) : Cegar :=
  mkCegar blacklist r [] ∅ 0%Z (-1)%Z.

(** *** Flaw detection *)

(** The loop over the preconditions of one operator (cegar.cc 277-290):
    [flaw_detected] and the flaw list after it. *)
Definition check_preconditions (blacklist : gset nat) (index : nat)
    (current : State) (pre : list FactPair) (flaws : FlawList)
  : bool * FlawList :=
  foldl (fun '(flaw_detected, flaws) precondition =>
           if bool_decide (var precondition ∈ blacklist) then
             (flaw_detected, flaws)
           else if negb (holds current precondition) then
             (true, flaws ++ [mkFlaw index (var precondition)])
           else (flaw_detected, flaws))
        (false, flaws) pre.

(** The loop over the equivalent operators of one step (268-302):
    [step_failed], the flaw list and the current state after it. *)
Fixpoint apply_step (blacklist : gset nat) (index : nat)
    (equivalent_ops : list nat) (current : State) (flaws : FlawList)
  : bool * FlawList * State :=
  match equivalent_ops with
  | [] => (true, flaws, current)
  | op_id :: rest =>
      let op := operator_at (task opts) op_id in
      let '(flaw_detected, flaws) :=
        check_preconditions blacklist index current (get_preconditions op) flaws in
      if negb flaw_detected then
        (false, [], get_unregistered_successor current op)
      else apply_step blacklist index rest current flaws
  end.

(** The loop over the steps of the plan (268-308). *)
Fixpoint apply_steps (blacklist : gset nat) (index : nat)
    (plan : WildcardPlan) (current : State) (flaws : FlawList)
  : FlawList * State :=
  match plan with
  | [] => (flaws, current)
  | equivalent_ops :: rest =>
      let '(step_failed, flaws, current) :=
        apply_step blacklist index equivalent_ops current flaws in
      if step_failed then (flaws, current)
      else apply_steps blacklist index rest current flaws
  end.

(** The goal flaws raised when the plan ran through without reaching a
    goal state (345-350). *)
Definition goal_flaws (blacklist : gset nat) (index : nat) (current : State)
  : FlawList :=
  foldl (fun flaws goal =>
           if negb (holds current goal) && negb (bool_decide (var goal ∈ blacklist))
           then flaws ++ [mkFlaw index (var goal)]
           else flaws)
        [] (goals opts).

Definition mark_slot_as_solved (c : Cegar) (index : nat) (p : Projection) : Cegar :=
  set_projection_collection c
    (<[index := Some (mark_as_solved p)]> (projection_collection c)).

Definition apply_wildcard_plan (c : Cegar) (index : nat) (init : State)
  : Outcome (FlawList * Cegar) :=
  projection ←! deref c index;
  let '(flaws, current) :=
    apply_steps (blacklisted_variables c) index (get_plan projection) init [] in
  match flaws with
  | [] =>
      if is_goal_state (task opts) current then
        if bool_decide (blacklisted_variables c = ∅) then
          Returns ([], set_concrete_solution_index c (Z.of_nat index))
        else
          Returns ([], mark_slot_as_solved c index projection)
      else
        match goal_flaws (blacklisted_variables c) index current with
        | [] => Returns ([], mark_slot_as_solved c index projection)
        | flaws => Returns (flaws, c)
        end
  | _ => Returns (flaws, c)
  end.

(** The loop of [get_flaws] over the collection indices still to visit. *)
Fixpoint get_flaws_loop (indices : list nat) (flaws : FlawList) (c : Cegar)
  : Outcome (FlawList * Cegar) :=
  match indices with
  | [] => Returns (flaws, c)
  | index :: rest =>
      match projection_collection c !! index with
      | Some (Some projection) =>
          if is_solved projection then get_flaws_loop rest flaws c
          else if is_unsolvable projection then ExitWith SEARCH_UNSOLVABLE
          else
            '(new_flaws, c) ←! apply_wildcard_plan c index
                                 (get_initial_state_values (task opts));
            if negb (bool_decide (concrete_solution_index c = -1)%Z) then
              _ ←! assert (bool_decide (concrete_solution_index c = Z.of_nat index));
              _ ←! assert (bool_decide (new_flaws = []));
              _ ←! assert (bool_decide (blacklisted_variables c = ∅));
              Returns ([], c)
            else get_flaws_loop rest (flaws ++ new_flaws) c
      | _ => get_flaws_loop rest flaws c
      end
  end.

Definition get_flaws (c : Cegar) : Outcome (FlawList * Cegar) :=
  get_flaws_loop (seq 0 (length (projection_collection c))) [] c.

(** *** Refinement *)

Definition set_rng (c : Cegar) (r : RandomNumberGenerator) : Cegar :=
  mkCegar (blacklisted_variables c) r (projection_collection c)
          (variable_to_projection c) (collection_size c)
          (concrete_solution_index c).

Definition add_pattern_for_var (c : Cegar) (v : nat) : Cegar :=
  let '(projection, r) :=
    compute_projection (task opts) [v] (rng c) (wildcard_plans opts) in
  let collection := projection_collection c ++ [Some projection] in
  mkCegar (blacklisted_variables c) r collection
          (<[v := (length collection - 1)%nat]> (variable_to_projection c))
          (Int.add (collection_size c) (get_size (get_pdb projection)))
          (concrete_solution_index c).

Definition can_merge_patterns (c : Cegar) (index1 index2 : nat) : Outcome bool :=
  projection1 ←! deref c index1;
  projection2 ←! deref c index2;
  let pdb_size1 := get_size (get_pdb projection1) in
  let pdb_size2 := get_size (get_pdb projection2) in
  if negb (is_product_within_limit pdb_size1 pdb_size2 (max_pdb_size opts)) then
    Returns false
  else
    let added_size :=
      Int.sub (Int.sub (Int.mul pdb_size1 pdb_size2) pdb_size1) pdb_size2 in
    Returns (bool_decide
               (Int.add (collection_size c) added_size ≤ max_collection_size opts)%Z).

Definition sort (pattern : Pattern) : Pattern := merge_sort (≤) pattern.

Definition merge_patterns (c : Cegar) (index1 index2 : nat) : Outcome Cegar :=
  projection1 ←! deref c index1;
  projection2 ←! deref c index2;
  let pattern2 := get_pattern projection2 in
  let variable_to_projection :=
    foldl (fun m v => <[v := index1]> m) (variable_to_projection c) pattern2 in
  let new_pattern := sort (get_pattern projection1 ++ pattern2) in
  let pdb_size1 := get_size (get_pdb projection1) in
  let pdb_size2 := get_size (get_pdb projection2) in
  let '(merged, r) :=
    compute_projection (task opts) new_pattern (rng c) (wildcard_plans opts) in
  let collection_size :=
    Int.add (Int.sub (Int.sub (collection_size c) pdb_size1) pdb_size2)
            (get_size (get_pdb merged)) in
  Returns
    (mkCegar (blacklisted_variables c) r
             (<[index2 := None]> (<[index1 := Some merged]> (projection_collection c)))
             variable_to_projection collection_size
             (concrete_solution_index c)).

Definition can_add_variable_to_pattern (c : Cegar) (index v : nat)
  : Outcome bool :=
  projection ←! deref c index;
  let pdb_size := get_size (get_pdb projection) in
  let domain_size := get_domain_size (task opts) v in
  if negb (is_product_within_limit pdb_size domain_size (max_pdb_size opts)) then
    Returns false
  else
    let added_size := Int.sub (Int.mul pdb_size domain_size) pdb_size in
    Returns (bool_decide
               (Int.add (collection_size c) added_size ≤ max_collection_size opts)%Z).

Definition add_variable_to_pattern (c : Cegar) (index v : nat) : Outcome Cegar :=
  projection ←! deref c index;
  let new_pattern := sort (get_pattern projection ++ [v]) in
  let '(new_projection, r) :=
    compute_projection (task opts) new_pattern (rng c) (wildcard_plans opts) in
  let collection_size :=
    Int.add (Int.sub (collection_size c) (get_size (get_pdb projection)))
            (get_size (get_pdb new_projection)) in
  Returns
    (mkCegar (blacklisted_variables c) r
             (<[index := Some new_projection]> (projection_collection c))
             (<[v := index]> (variable_to_projection c))
             collection_size (concrete_solution_index c)).

Definition blacklist (c : Cegar) (v : nat) : Cegar :=
  set_blacklisted_variables c ({[v]} ∪ blacklisted_variables c).

Definition handle_flaw (c : Cegar) (flaw : Flaw) : Outcome Cegar :=
  let index := collection_index flaw in
  let v := variable flaw in
  match variable_to_projection c !! v with
  | Some other_index =>
      (* Variable is contained in another pattern of the collection. *)
      _ ←! assert (negb (bool_decide (other_index = index)));
      slot ←! match projection_collection c !! other_index with
              | Some slot => Returns slot
              | None => Undefined
              end;
      _ ←! assert (bool_decide (is_Some slot));
      can_merge ←! can_merge_patterns c index other_index;
      if can_merge then merge_patterns c index other_index
      else Returns (blacklist c v)
  | None =>
      (* Variable is not yet in the collection. *)
      can_add ←! can_add_variable_to_pattern c index v;
      if can_add then add_variable_to_pattern c index v
      else Returns (blacklist c v)
  end.

Definition refine (c : Cegar) (flaws : FlawList) : Outcome Cegar :=
  _ ←! assert (negb (bool_decide (flaws = [])));
  let '(random_flaw_index, r) := rng_draw (rng c) (length flaws) in
  match flaws !! random_flaw_index with
  | Some flaw => handle_flaw (set_rng c r) flaw
  | None => Undefined
  end.

(** *** The driver *)

Definition compute_initial_collection (c : Cegar) : Outcome Cegar :=
  _ ←! assert (negb (bool_decide (goals opts = [])));
  Returns (foldl (fun c goal => add_pattern_for_var c (var goal)) c (goals opts)).

Definition time_limit_reached (timer : CountdownTimer) (poll : nat) : bool :=
  is_expired timer poll.

Definition termination_conditions_met (timer : CountdownTimer) (poll : nat)
    (refinement_counter : Z) : bool :=
  if time_limit_reached timer poll then true
  else if bool_decide (refinement_counter = max_refinements opts) then true
  else false.

(** One pass through the body of the [while] loop of [run], its condition
    included.  The timer is read at poll [poll] in the loop condition and
    at [poll + 1] after flaw detection. *)
Inductive LoopStep := Break (c : Cegar) | Continue (c : Cegar).

Definition iteration (timer : CountdownTimer) (poll : nat)
    (refinement_counter : Z) (c : Cegar) : Outcome LoopStep :=
  if termination_conditions_met timer poll refinement_counter then
    Returns (Break c)
  else
    '(flaws, c) ←! get_flaws c;
    match flaws with
    | [] => Returns (Break c)
    | _ =>
        if time_limit_reached timer (poll + 1) then Returns (Break c)
        else
          c ←! refine c flaws;
          Returns (Continue c)
    end.

(** The [while] loop; [None] when the fuel does not suffice. *)
Fixpoint main_loop (fuel : nat) (timer : CountdownTimer) (poll : nat)
    (refinement_counter : Z) (c : Cegar) : option (Outcome Cegar) :=
  match fuel with
  | O => None
  | S fuel =>
      match iteration timer poll refinement_counter c with
      | Returns (Break c) => Some (Returns c)
      | Returns (Continue c) =>
          main_loop fuel timer (poll + 2) (Int.add refinement_counter 1) c
      | ExitWith code => Some (ExitWith code)
      | AssertionFailed => Some AssertionFailed
      | Undefined => Some Undefined
      end
  end.

Record PatternCollectionInformation := mkPCI {
  get_patterns : list Pattern;
  get_pdbs : list PatternDatabase;
}.

Definition live_projections (c : Cegar) : list Projection :=
  omap id (projection_collection c).

(** The result assembly at the end of [run] (590-605). *)
Definition collect (c : Cegar) : Outcome PatternCollectionInformation :=
  if negb (bool_decide (concrete_solution_index c = -1)%Z) then
    projection ←! deref c (Z.to_nat (concrete_solution_index c));
    Returns (mkPCI [pdb_pattern (get_pdb projection)] [get_pdb projection])
  else
    Returns (mkPCI (map (fun p => pdb_pattern (get_pdb p)) (live_projections c))
                   (map get_pdb (live_projections c))).

(** The loop of [run] from a state at the loop head, then the result. *)
Definition run_loop (fuel : nat) (timer : CountdownTimer) (poll : nat)
    (refinement_counter : Z) (c : Cegar)
  : option (Outcome PatternCollectionInformation) :=
  match main_loop fuel timer poll refinement_counter c with
  | Some o => Some (c ←! o; collect c)
  | None => None
  end.

Definition run_from (fuel : nat) (clock : nat → Z) (c : Cegar)
  : option (Outcome PatternCollectionInformation) :=
  match compute_initial_collection c with
  | Returns c => run_loop fuel (mkTimer (max_time opts) clock) 0 0%Z c
  | ExitWith code => Some (ExitWith code)
  | AssertionFailed => Some AssertionFailed
  | Undefined => Some Undefined
  end.

(** [Cegar::run] on a freshly constructed object. *)
Definition run (fuel : nat) (clock : nat → Z) (initial_blacklist : gset nat)
    (r : RandomNumberGenerator)
  : option (Outcome PatternCollectionInformation) :=
  run_from fuel clock (Cegar_new initial_blacklist r).

(** The entry point [cegar]: in a debug build every given goal must be a
    goal of the task. *)
Definition cegar (fuel : nat) (clock : nat → Z) (initial_blacklist : gset nat)
    (r : RandomNumberGenerator)
  : option (Outcome PatternCollectionInformation) :=
  if forallb (fun goal => bool_decide (goal ∈ get_goals (task opts))) (goals opts)
  then run fuel clock initial_blacklist r
  else Some (ExitWith SEARCH_INPUT_ERROR).

End cegar.

(** ** The projection of the task onto a pattern *)

Definition in_pattern (pattern : Pattern) (f : FactPair) : bool :=
  bool_decide (var f ∈ pattern).

(** Modelled from the spec: the projected task ([tasks::ProjectedTask]) is
    not part of cegar.cc.  The projection onto a pattern forgets every
    other variable: here, the conditions of an effect over them. *)
Definition project_effect (pattern : Pattern) (e : Effect) : Effect :=
  mkEffect (List.filter (fun f => in_pattern pattern f) (get_conditions e)) (get_fact e).

(** Modelled from the spec: the operator of the projected task
    ([tasks::ProjectedTask], not part of cegar.cc) - the preconditions and
    the effects over pattern variables, the rest forgotten. *)
Definition project_operator (pattern : Pattern) (op : Operator) : Operator :=
  mkOperator
    (List.filter (fun f => in_pattern pattern f) (get_preconditions op))
    (map (project_effect pattern)
         (List.filter (fun e => in_pattern pattern (get_fact e)) (get_effects op))).

(** Modelled from the spec: the goals of the projected task
    ([tasks::ProjectedTask], not part of cegar.cc) - the goals over pattern
    variables. *)
Definition project_goals (pattern : Pattern) (task : AbstractTask) : list FactPair :=
  List.filter (fun f => in_pattern pattern f) (get_goals task).

Definition applicable (s : State) (op : Operator) : bool :=
  forallb (holds s) (get_preconditions op).

(** ** Reference collaborators

    A small, executable stand-in for the services of [Collaborators], used
    to run the driver on concrete tasks: the PDB size is the product of the
    domain sizes, distances and plans come from a breadth-first search of
    the projection, and the generator is a counter. *)
Module Reference.

Definition num_states (task : AbstractTask) (pattern : Pattern) : Z :=
  foldr (fun v n => (get_domain_size task v * n)%Z) 1%Z pattern.

(** The concrete ids of the operators kept by the projection, in order:
    those with an effect on a pattern variable. *)
Definition relevant_operator_ids (task : AbstractTask) (pattern : Pattern)
  : list nat :=
  List.filter (fun op_id =>
            bool_decide
              (get_effects (project_operator pattern (operator_at task op_id)) ≠ []))
         (seq 0 (length (get_operators task))).

Definition ancestor (task : AbstractTask) (pattern : Pattern) (abs_id : nat) : nat :=
  nth abs_id (relevant_operator_ids task pattern) 0.

Definition abstract_operator (task : AbstractTask) (pattern : Pattern)
    (abs_id : nat) : Operator :=
  project_operator pattern (operator_at task (ancestor task pattern abs_id)).

Definition abstract_ids (task : AbstractTask) (pattern : Pattern) : list nat :=
  seq 0 (length (relevant_operator_ids task pattern)).

Definition is_abstract_goal (task : AbstractTask) (pattern : Pattern) (s : State)
  : bool :=
  forallb (holds s) (project_goals pattern task).

(** One layer of the search: the successors of the frontier not seen so
    far, each with the reversed path of abstract operator ids to it. *)
Definition expand (task : AbstractTask) (pattern : Pattern)
    (visited : list State) (frontier : list (State * list nat))
  : list State * list (State * list nat) :=
  foldl (fun '(visited, next) '(s, path) =>
           foldl (fun '(visited, next) abs_id =>
                    let op := abstract_operator task pattern abs_id in
                    let s' := get_unregistered_successor s op in
                    if applicable s op && negb (bool_decide (s' ∈ visited))
                    then (s' :: visited, next ++ [(s', abs_id :: path)])
                    else (visited, next))
                 (visited, next) (abstract_ids task pattern))
        (visited, []) frontier.

Fixpoint search (fuel : nat) (task : AbstractTask) (pattern : Pattern)
    (visited : list State) (frontier : list (State * list nat))
  : option (list nat) :=
  match List.find (fun '(s, _) => is_abstract_goal task pattern s) frontier with
  | Some (_, path) => Some (rev path)
  | None =>
      match fuel, frontier with
      | S fuel, _ :: _ =>
          let '(visited, next) := expand task pattern visited frontier in
          search fuel task pattern visited next
      | _, _ => None
      end
  end.

Definition abstract_plan (task : AbstractTask) (pattern : Pattern)
  : option (list nat) :=
  let init := get_initial_state_values task in
  search (Z.to_nat (num_states task pattern)) task pattern [init] [(init, [])].

Definition initial_distance (task : AbstractTask) (pattern : Pattern) : Z :=
  match abstract_plan task pattern with
  | Some path => Z.of_nat (length path)
  | None => Int.max_int
  end.

(** The operators of a step: with wildcards, every abstract operator that
    is applicable and leads to the same abstract state as the planned
    one. *)
Fixpoint wildcard_steps (task : AbstractTask) (pattern : Pattern)
    (wildcard : bool) (s : State) (path : list nat) : WildcardPlan :=
  match path with
  | [] => []
  | abs_id :: rest =>
      let s' := get_unregistered_successor s (abstract_operator task pattern abs_id) in
      (if wildcard then
         List.filter (fun k =>
                   let op := abstract_operator task pattern k in
                   applicable s op
                   && bool_decide (get_unregistered_successor s op = s'))
                (abstract_ids task pattern)
       else [abs_id])
      :: wildcard_steps task pattern wildcard s' rest
  end.

Definition plan_extractor (task : AbstractTask) (pattern : Pattern)
    (r : nat) (wildcard : bool) : WildcardPlan * nat :=
  (wildcard_steps task pattern wildcard (get_initial_state_values task)
     (default [] (abstract_plan task pattern)), r).

Definition collaborators : Collaborators := {|
  RandomNumberGenerator := nat;
  rng_draw r n := (r `mod` n, S r);
  pdb_num_states := num_states;
  pdb_initial_distance := initial_distance;
  steepest_ascent_enforced_hillclimbing := plan_extractor;
  get_ancestor_operator_id := ancestor;
|}.

(** The scenarios of the specification.  Variables [x = 0], [y = 1]; or
    [a = 0], [b = 1], [c = 2]. *)
Definition set_value (v : nat) (val : Z) : Effect := mkEffect [] (mkFact v val).

Definition task_S1 : AbstractTask :=
  mkTask [2; 2]%Z
         [mkOperator [] [set_value 0 1]; mkOperator [] [set_value 1 1]]
         [0; 0]%Z [mkFact 0 1; mkFact 1 1].

Definition task_S2 : AbstractTask :=
  mkTask [2; 2; 2]%Z
         [mkOperator [mkFact 2 1] [set_value 0 1];
          mkOperator [] [set_value 2 1];
          mkOperator [] [set_value 1 1]]
         [0; 0; 0]%Z [mkFact 0 1; mkFact 1 1].

Definition task_S3 : AbstractTask :=
  mkTask [2; 2; 2]%Z
         [mkOperator [mkFact 2 1] [set_value 0 1];
          mkOperator [] [set_value 2 1];
          mkOperator [] [set_value 1 1]]
         [0; 0; 0]%Z [mkFact 0 1; mkFact 1 1; mkFact 2 1].

Definition task_S6 : AbstractTask :=
  mkTask [2]%Z [] [0]%Z [mkFact 0 1].

Definition options_for (t : AbstractTask) : Options :=
  mkOptions Int.max_int 1000000 Int.max_int true None t (get_goals t).

Definition never_late : nat → Z := fun _ => 0%Z.

End Reference.

(** * Properties *)

(** ** Plan execution *)

(** An operator is applicable under a blacklist when every precondition
    over a variable outside the blacklist holds. *)
Definition applicable_ignoring (blacklist : gset nat) (s : State) (op : Operator)
  : bool :=
  forallb (fun f => bool_decide (var f ∈ blacklist) || holds s f)
          (get_preconditions op).

(** The flaws of one operator: its violated preconditions outside the
    blacklist, in order. *)
Definition violated (blacklist : gset nat) (index : nat) (s : State)
    (op : Operator) : FlawList :=
  map (fun f => mkFlaw index (var f))
      (List.filter (fun f => negb (bool_decide (var f ∈ blacklist)) && negb (holds s f))
              (get_preconditions op)).

Section plan_execution.
Context `{Collaborators} (opts : Options).

Definition step_flaws (blacklist : gset nat) (index : nat) (s : State)
    (equivalent_ops : list nat) : FlawList :=
  concat (map (fun op_id => violated blacklist index s (operator_at (task opts) op_id))
              equivalent_ops).

Definition first_applicable (blacklist : gset nat) (s : State)
    (equivalent_ops : list nat) : option nat :=
  List.find (fun op_id => applicable_ignoring blacklist s (operator_at (task opts) op_id))
            equivalent_ops.

Lemma check_preconditions_spec blacklist index s pre flaws detected :
  foldl (fun '(flaw_detected, flaws) precondition =>
           if bool_decide (var precondition ∈ blacklist) then
             (flaw_detected, flaws)
           else if negb (holds s precondition) then
             (true, flaws ++ [mkFlaw index (var precondition)])
           else (flaw_detected, flaws))
        (detected, flaws) pre
  = (detected || negb (applicable_ignoring blacklist s (mkOperator pre [])),
     flaws ++ violated blacklist index s (mkOperator pre [])).
Proof.
  revert flaws detected.
  induction pre as [|f pre IH]; intros flaws detected; simpl.
  - unfold violated; simpl. by rewrite orb_false_r, app_nil_r.
  - unfold applicable_ignoring, violated in *; simpl in *.
    destruct (bool_decide (var f ∈ blacklist)); simpl.
    + apply IH.
    + destruct (holds s f); simpl.
      * apply IH.
      * rewrite IH. by rewrite orb_true_r, <- app_assoc.
Qed.

Lemma check_preconditions_op blacklist index s op flaws :
  check_preconditions blacklist index s (get_preconditions op) flaws
  = (negb (applicable_ignoring blacklist s op),
     flaws ++ violated blacklist index s op).
Proof.
  unfold check_preconditions. by rewrite check_preconditions_spec.
Qed.

Lemma violated_nil_iff blacklist index s op :
  violated blacklist index s op = [] ↔ applicable_ignoring blacklist s op = true.
Proof.
  unfold violated, applicable_ignoring.
  induction (get_preconditions op) as [|f pre IH]; simpl; [done|].
  destruct (bool_decide (var f ∈ blacklist)); simpl; [done|].
  destruct (holds s f); simpl; [done|].
  split; discriminate.
Qed.

Lemma apply_step_spec blacklist index ops s flaws :
  apply_step opts blacklist index ops s flaws =
  match first_applicable blacklist s ops with
  | Some op_id =>
      (false, [], get_unregistered_successor s (operator_at (task opts) op_id))
  | None => (true, flaws ++ step_flaws blacklist index s ops, s)
  end.
Proof.
  revert flaws. unfold first_applicable, step_flaws.
  induction ops as [|op_id ops IH]; intros flaws; simpl.
  - by rewrite app_nil_r.
  - rewrite check_preconditions_op.
    destruct (applicable_ignoring _ _ _); simpl; [done|].
    rewrite IH. destruct (List.find _ _); [done|]. by rewrite app_assoc.
Qed.

Lemma apply_steps_cons blacklist index step later s :
  apply_steps opts blacklist index (step :: later) s [] =
  match first_applicable blacklist s step with
  | Some op_id =>
      apply_steps opts blacklist index later
        (get_unregistered_successor s (operator_at (task opts) op_id)) []
  | None => (step_flaws blacklist index s step, s)
  end.
Proof.
  simpl. rewrite apply_step_spec. by destruct (first_applicable _ _ _).
Qed.

(** The state after a prefix of the plan whose steps all succeed. *)
Fixpoint after_steps (blacklist : gset nat) (done : WildcardPlan) (s : State)
  : option State :=
  match done with
  | [] => Some s
  | step :: rest =>
      match first_applicable blacklist s step with
      | Some op_id =>
          after_steps blacklist rest
            (get_unregistered_successor s (operator_at (task opts) op_id))
      | None => None
      end
  end.

Lemma apply_steps_app blacklist index done rest s s' :
  after_steps blacklist done s = Some s' →
  apply_steps opts blacklist index (done ++ rest) s []
  = apply_steps opts blacklist index rest s' [].
Proof.
  revert s. induction done as [|step done IH]; intros s Hs.
  - simpl in Hs. by simplify_eq.
  - rewrite <- app_comm_cons, apply_steps_cons.
    simpl in Hs. destruct (first_applicable _ _ _); [|done]. by apply IH.
Qed.

Lemma first_applicable_None blacklist s step :
  first_applicable blacklist s step = None ↔
  ∀ op_id, In op_id step →
           applicable_ignoring blacklist s (operator_at (task opts) op_id) = false.
Proof.
  unfold first_applicable. split.
  - intros Hnone op_id Hin. by apply (find_none _ _ Hnone).
  - intros Hall. induction step as [|op_id step IH]; simpl; [done|].
    rewrite (Hall op_id) by (by left). apply IH.
    intros k Hk. apply Hall. by right.
Qed.

Lemma step_flaws_nonempty blacklist index s step :
  step ≠ [] → first_applicable blacklist s step = None →
  step_flaws blacklist index s step ≠ [].
Proof.
  intros Hne Hnone. destruct step as [|op_id step]; [done|].
  unfold step_flaws; simpl. intros Hnil.
  apply app_eq_nil in Hnil as [Hop _].
  apply violated_nil_iff in Hop.
  rewrite first_applicable_None in Hnone.
  rewrite Hnone in Hop by (by left). done.
Qed.

(** C3. Plan execution in [apply_wildcard_plan], for every plan, start
    state, blacklist and slot.  A step whose first operator applicable
    under the blacklist is [op_id] drops the flaws of the operators before
    it and goes on with the later steps from the successor under [op_id];
    a step without such an operator (and only such a step) ends the
    execution with exactly its own flaws, whatever steps come later; and
    when that step is reached after a prefix of successful steps, these
    flaws are what [apply_wildcard_plan] returns, the object unchanged. *)
Theorem C3_wildcard_plan_execution :
  (∀ blacklist index step later s,
     apply_steps opts blacklist index (step :: later) s [] =
     match first_applicable blacklist s step with
     | Some op_id =>
         apply_steps opts blacklist index later
           (get_unregistered_successor s (operator_at (task opts) op_id)) []
     | None => (step_flaws blacklist index s step, s)
     end) ∧
  (∀ blacklist index step s,
     (fst (fst (apply_step opts blacklist index step s [])) = true ↔
      ∀ op_id, In op_id step →
        applicable_ignoring blacklist s (operator_at (task opts) op_id) = false)) ∧
  (∀ (c : Cegar) index p done step later init s,
     deref c index = Returns p →
     get_plan p = done ++ step :: later →
     after_steps (blacklisted_variables c) done init = Some s →
     first_applicable (blacklisted_variables c) s step = None →
     step ≠ [] →
     apply_wildcard_plan opts c index init
     = Returns (step_flaws (blacklisted_variables c) index s step, c)).
Proof.
  split; [|split].
  - intros. apply apply_steps_cons.
  - intros blacklist index step s. rewrite apply_step_spec.
    rewrite <- first_applicable_None.
    destruct (first_applicable _ _ _); simpl; split; done.
  - intros c index p done step later init s Hp Hplan Hdone Hnone Hne.
    unfold apply_wildcard_plan. rewrite Hp; simpl.
    rewrite Hplan, (apply_steps_app _ _ _ _ _ _ Hdone), apply_steps_cons, Hnone.
    pose proof (step_flaws_nonempty _ index _ _ Hne Hnone) as Hflaws.
    by destruct (step_flaws _ _ _ _).
Qed.

End plan_execution.

(** ** Flaw detection *)

Section detection.
Context `{Collaborators} (opts : Options).

Abbreviation init := (get_initial_state_values (task opts)).

(** The plan runs through all its steps without a flaw and ends in a goal
    state of the concrete task. *)
Definition executes_to_goal (blacklist : gset nat) (index : nat)
    (plan : WildcardPlan) (s : State) : bool :=
  let '(flaws, current) := apply_steps opts blacklist index plan s [] in
  bool_decide (flaws = []) && is_goal_state (task opts) current.

(** The PDBs of the slots: what detection never changes. *)
Definition pdbs_of (c : Cegar) : list (option PatternDatabase) :=
  map (fmap get_pdb) (projection_collection c).

(** [c'] is [c] with some live slots marked as solved. *)
Definition slot_marked (o o' : option Projection) : Prop :=
  o' = o ∨ ∃ p, o = Some p ∧ o' = Some (mark_as_solved p).

Record marked (c c' : Cegar) : Prop := {
  marked_blacklist : blacklisted_variables c' = blacklisted_variables c;
  marked_rng : rng c' = rng c;
  marked_map : variable_to_projection c' = variable_to_projection c;
  marked_size : collection_size c' = collection_size c;
  marked_index : concrete_solution_index c' = concrete_solution_index c;
  marked_slots : Forall2 slot_marked (projection_collection c) (projection_collection c');
}.

(** A slot that detection passes over without ending: null, solved, or
    solvable with a plan that does not execute to a goal state. *)
Definition passed_over (c : Cegar) (j : nat) : Prop :=
  match projection_collection c !! j with
  | Some (Some q) =>
      is_solved q = true ∨
      (is_unsolvable q = false ∧
       executes_to_goal (blacklisted_variables c) j (get_plan q) init = false)
  | _ => True
  end.

Lemma slot_marked_refl o : slot_marked o o.
Proof. by left. Qed.

Lemma slot_marked_trans o1 o2 o3 :
  slot_marked o1 o2 → slot_marked o2 o3 → slot_marked o1 o3.
Proof.
  unfold slot_marked.
  intros [->|(p & -> & ->)] [->|(q & Hq & ->)]; eauto.
  simplify_eq. right. by exists p.
Qed.

Lemma marked_refl c : marked c c.
Proof.
  split; try done. apply Forall2_same_length_lookup. split; [done|].
  intros i x y Hx Hy. simplify_eq. apply slot_marked_refl.
Qed.

End detection.

Section detection_lemmas.
Context `{Collaborators} (opts : Options).
Abbreviation init := (get_initial_state_values (task opts)).

Lemma marked_trans c1 c2 c3 : marked c1 c2 → marked c2 c3 → marked c1 c3.
Proof.
  intros [] []. split; try congruence.
  eapply Forall2_trans; [|done..]. apply slot_marked_trans.
Qed.

Lemma marked_mark_slot c index p :
  projection_collection c !! index = Some (Some p) →
  marked c (mark_slot_as_solved c index p).
Proof.
  intros Hp. split; try done. simpl.
  apply Forall2_same_length_lookup. split; [by rewrite length_insert|].
  intros i x y Hx Hy. destruct (decide (i = index)) as [->|Hne].
  - rewrite list_lookup_insert_eq in Hy by (by eapply lookup_lt_Some).
    simplify_eq. right. by exists p.
  - rewrite list_lookup_insert_ne in Hy by done. simplify_eq. by left.
Qed.

Lemma marked_lookup_ne c index p j :
  j ≠ index →
  projection_collection (mark_slot_as_solved c index p) !! j
  = projection_collection c !! j.
Proof. intros Hne. simpl. by rewrite list_lookup_insert_ne. Qed.

Lemma marked_length c c' :
  marked c c' →
  length (projection_collection c') = length (projection_collection c).
Proof. intros [_ _ _ _ _ Hs]. symmetry. by eapply Forall2_length. Qed.

Lemma marked_pdbs_of c c' : marked c c' → pdbs_of c' = pdbs_of c.
Proof.
  intros [_ _ _ _ _ Hs]. unfold pdbs_of.
  induction Hs as [|o o' l l' Ho _ IH]; [done|]. simpl. f_equal; [|done].
  by destruct Ho as [->|(p & -> & ->)].
Qed.

Lemma deref_Returns c index p :
  deref c index = Returns p ↔ projection_collection c !! index = Some (Some p).
Proof.
  unfold deref. destruct (projection_collection c !! index) as [[q|]|];
    split; intros; simplify_eq; done.
Qed.

(** What one call of [apply_wildcard_plan] does to the object. *)
Lemma apply_wildcard_plan_cases c index p s :
  projection_collection c !! index = Some (Some p) →
  (executes_to_goal opts (blacklisted_variables c) index (get_plan p) s = true ∧
   blacklisted_variables c = ∅ ∧
   apply_wildcard_plan opts c index s
   = Returns ([], set_concrete_solution_index c (Z.of_nat index)))
  ∨
  (¬ (executes_to_goal opts (blacklisted_variables c) index (get_plan p) s = true ∧
      blacklisted_variables c = ∅) ∧
   ∃ flaws c',
     apply_wildcard_plan opts c index s = Returns (flaws, c') ∧
     (c' = c ∨ (flaws = [] ∧ c' = mark_slot_as_solved c index p))).
Proof.
  intros Hp. unfold apply_wildcard_plan, executes_to_goal.
  apply deref_Returns in Hp. rewrite Hp. simpl.
  destruct (apply_steps _ _ _ _ _ _) as [flaws current].
  destruct flaws as [|f flaws]; simpl.
  - destruct (is_goal_state _ _) eqn:Hgoal.
    + case_bool_decide as Hb.
      * left. auto.
      * right. split; [tauto|]. do 2 eexists. split; [done|]. right. done.
    + right. split; [intros [? _]; done|].
      destruct (goal_flaws _ _ _ _).
      * do 2 eexists. split; [done|]. right. done.
      * do 2 eexists. split; [done|]. by left.
  - right. split; [intros [? _]; done|].
    do 2 eexists. split; [done|]. by left.
Qed.

End detection_lemmas.

Section detection_loop.
Context `{Collaborators} (opts : Options).
Abbreviation init := (get_initial_state_values (task opts)).

Lemma get_flaws_loop_cons index rest flaws c :
  get_flaws_loop opts (index :: rest) flaws c =
  match projection_collection c !! index with
  | Some (Some projection) =>
      if is_solved projection then get_flaws_loop opts rest flaws c
      else if is_unsolvable projection then ExitWith SEARCH_UNSOLVABLE
      else
        '(new_flaws, c) ←! apply_wildcard_plan opts c index init;
        if negb (bool_decide (concrete_solution_index c = -1)%Z) then
          _ ←! assert (bool_decide (concrete_solution_index c = Z.of_nat index));
          _ ←! assert (bool_decide (new_flaws = []));
          _ ←! assert (bool_decide (blacklisted_variables c = ∅));
          Returns ([], c)
        else get_flaws_loop opts rest (flaws ++ new_flaws) c
  | _ => get_flaws_loop opts rest flaws c
  end.
Proof. done. Qed.

Lemma passed_over_step c j q c1 j' :
  projection_collection c !! j = Some (Some q) →
  c1 = c ∨ c1 = mark_slot_as_solved c j q →
  passed_over opts c j' → passed_over opts c1 j'.
Proof.
  intros Hq [->| ->] Hj'; [done|]. unfold passed_over in *. simpl.
  destruct (decide (j' = j)) as [->|Hne].
  - rewrite list_lookup_insert_eq by (by eapply lookup_lt_Some). by left.
  - by rewrite list_lookup_insert_ne.
Qed.

Lemma get_flaws_loop_solution before i p :
  i ∉ before →
  ∀ c,
    concrete_solution_index c = (-1)%Z →
    blacklisted_variables c = ∅ →
    projection_collection c !! i = Some (Some p) →
    is_solved p = false → is_unsolvable p = false →
    executes_to_goal opts ∅ i (get_plan p) init = true →
    (∀ j, j ∈ before → passed_over opts c j) →
    ∃ c', marked c c' ∧ projection_collection c' !! i = Some (Some p) ∧
          ∀ rest flaws, get_flaws_loop opts (before ++ i :: rest) flaws c
                        = Returns ([], set_concrete_solution_index c' (Z.of_nat i)).
Proof.
  intros Hi. induction before as [|j before IH];
    intros c Hcsi Hbl Hp Hsolved Hunsolvable Hexec Hbefore.
  - exists c. split; [apply marked_refl|]. split; [done|]. intros rest flaws.
    simpl app. rewrite get_flaws_loop_cons, Hp, Hsolved, Hunsolvable.
    destruct (apply_wildcard_plan_cases opts c i p init Hp)
      as [(_ & _ & ->)|[Hno _]].
    + simpl. rewrite bool_decide_eq_false_2 by lia. simpl.
      rewrite bool_decide_eq_true_2 by done. simpl.
      by rewrite bool_decide_eq_true_2.
    + destruct Hno. by rewrite Hbl.
  - apply not_elem_of_cons in Hi as [Hij Hi].
    assert (∀ c1, c1 = c ∨ (∃ q, projection_collection c !! j = Some (Some q) ∧
                                 c1 = mark_slot_as_solved c j q) →
            ∃ c', marked c c' ∧ projection_collection c' !! i = Some (Some p) ∧
              ∀ rest flaws1, get_flaws_loop opts (before ++ i :: rest) flaws1 c1
                      = Returns ([], set_concrete_solution_index c' (Z.of_nat i)))
      as Hrec.
    { intros c1 Hc1.
      assert (marked c c1) as Hm.
      { destruct Hc1 as [->|(q & Hq & ->)];
          [apply marked_refl|by apply marked_mark_slot]. }
      destruct (IH Hi c1) as (c' & Hm' & Hp' & Hrest).
      - by rewrite (marked_index _ _ Hm).
      - by rewrite (marked_blacklist _ _ Hm).
      - destruct Hc1 as [->|(q & Hq & ->)]; [done|].
        simpl. by rewrite list_lookup_insert_ne.
      - done.
      - done.
      - done.
      - intros j' Hj'. destruct Hc1 as [->|(q & Hq & ->)].
        + apply Hbefore. by right.
        + eapply passed_over_step; [done|by right|]. apply Hbefore. by right.
      - exists c'. split; [by eapply marked_trans|]. done. }
    pose proof (Hbefore j ltac:(by left)) as Hj. unfold passed_over in Hj.
    destruct (projection_collection c !! j) as [[q|]|] eqn:Hq.
    + destruct (is_solved q) eqn:Hqs.
      * destruct (Hrec c (or_introl eq_refl)) as (c' & ? & ? & Hrest).
        exists c'. split; [done|]. split; [done|]. intros rest flaws.
        rewrite <- app_comm_cons, get_flaws_loop_cons, Hq, Hqs. apply Hrest.
      * destruct Hj as [?|[Hqu Hqe]]; [done|].
        destruct (apply_wildcard_plan_cases opts c j q init Hq)
          as [(He & _)|(_ & nf & c1 & Hcall & Hc1)]; [congruence|].
        destruct (Hrec c1 ltac:(destruct Hc1 as [->|[_ ->]]; eauto))
          as (c' & ? & ? & Hrest).
        exists c'. split; [done|]. split; [done|]. intros rest flaws.
        rewrite <- app_comm_cons, get_flaws_loop_cons, Hq, Hqs, Hqu, Hcall. simpl.
        assert (concrete_solution_index c1 = (-1)%Z) as ->.
        { by destruct Hc1 as [->|[_ ->]]. }
        simpl. apply Hrest.
    + destruct (Hrec c (or_introl eq_refl)) as (c' & ? & ? & Hrest).
      exists c'. split; [done|]. split; [done|]. intros rest flaws.
      rewrite <- app_comm_cons, get_flaws_loop_cons, Hq. apply Hrest.
    + destruct (Hrec c (or_introl eq_refl)) as (c' & ? & ? & Hrest).
      exists c'. split; [done|]. split; [done|]. intros rest flaws.
      rewrite <- app_comm_cons, get_flaws_loop_cons, Hq. apply Hrest.
Qed.

Lemma get_flaws_loop_unsolvable k p indices :
  k ∈ indices →
  is_solved p = false → is_unsolvable p = true →
  ∀ flaws c,
    projection_collection c !! k = Some (Some p) →
    concrete_solution_index c = (-1)%Z →
    (∀ j q, j ∈ indices → projection_collection c !! j = Some (Some q) →
            is_solved q = false → is_unsolvable q = false →
            ¬ (executes_to_goal opts (blacklisted_variables c) j (get_plan q) init = true
               ∧ blacklisted_variables c = ∅)) →
    get_flaws_loop opts indices flaws c = ExitWith SEARCH_UNSOLVABLE.
Proof.
  intros Hk Hps Hpu. induction indices as [|j indices IH];
    intros flaws c Hp Hcsi Hno; [by apply elem_of_nil in Hk|].
  rewrite get_flaws_loop_cons.
  destruct (projection_collection c !! j) as [[q|]|] eqn:Hq.
  - destruct (is_solved q) eqn:Hqs.
    { apply IH; [|done..|].
      - apply elem_of_cons in Hk as [->|?]; [|done]. congruence.
      - intros j' q' Hj'. apply Hno. by right. }
    destruct (is_unsolvable q) eqn:Hqu; [done|].
    assert (k ≠ j) as Hkj by (intros ->; congruence).
    destruct (apply_wildcard_plan_cases opts c j q init Hq)
      as [(He & Hb & _)|(_ & nf & c1 & -> & Hc1)].
    { destruct (Hno j q); [by left|done..]. }
    simpl.
    assert (concrete_solution_index c1 = (-1)%Z) as Hcsi1.
    { by destruct Hc1 as [->|[_ ->]]. }
    rewrite Hcsi1. simpl. apply IH.
    + apply elem_of_cons in Hk as [?|?]; done.
    + destruct Hc1 as [->|[_ ->]]; [done|]. simpl. by rewrite list_lookup_insert_ne.
    + done.
    + intros j' q' Hj' Hq' Hq's Hq'u.
      destruct Hc1 as [->|[_ ->]]; [apply Hno; [by right|done..]|].
      simpl in *. destruct (decide (j' = j)) as [->|Hne].
      * rewrite list_lookup_insert_eq in Hq' by (by eapply lookup_lt_Some).
        by simplify_eq.
      * rewrite list_lookup_insert_ne in Hq' by done. apply Hno; [by right|done..].
  - apply IH; [|done..|].
    + apply elem_of_cons in Hk as [->|?]; [|done]. congruence.
    + intros j' q' Hj'. apply Hno. by right.
  - apply IH; [|done..|].
    + apply elem_of_cons in Hk as [->|?]; [|done]. congruence.
    + intros j' q' Hj'. apply Hno. by right.
Qed.

End detection_loop.

(** ** The driver: initial collection, early exits *)

Section driver.
Context `{Collaborators} (opts : Options).
Abbreviation init := (get_initial_state_values (task opts)).

Lemma compute_projection_pdb t pattern r w :
  get_pdb (compute_projection t pattern r w).1 = make_pdb t pattern.
Proof.
  unfold compute_projection. case_bool_decide; [done|].
  by destruct (steepest_ascent_enforced_hillclimbing _ _ _ _).
Qed.

Lemma compute_projection_solved t pattern r w :
  is_solved (compute_projection t pattern r w).1 = false.
Proof.
  unfold compute_projection. case_bool_decide; [done|].
  by destruct (steepest_ascent_enforced_hillclimbing _ _ _ _).
Qed.

Lemma compute_projection_unsolvable t pattern r w :
  is_unsolvable (compute_projection t pattern r w).1
  = bool_decide (pdb_initial_distance t pattern = Int.max_int).
Proof.
  unfold compute_projection. simpl. case_bool_decide; [done|].
  by destruct (steepest_ascent_enforced_hillclimbing _ _ _ _).
Qed.

Lemma add_pattern_for_var_spec c v :
  let p := (compute_projection (task opts) [v] (rng c) (wildcard_plans opts)).1 in
  projection_collection (add_pattern_for_var opts c v)
  = projection_collection c ++ [Some p] ∧
  variable_to_projection (add_pattern_for_var opts c v)
  = <[v := length (projection_collection c)]> (variable_to_projection c) ∧
  collection_size (add_pattern_for_var opts c v)
  = Int.add (collection_size c) (get_size (get_pdb p)) ∧
  blacklisted_variables (add_pattern_for_var opts c v) = blacklisted_variables c ∧
  concrete_solution_index (add_pattern_for_var opts c v) = concrete_solution_index c.
Proof.
  unfold add_pattern_for_var.
  destruct (compute_projection _ _ _ _) as [p r]. simpl.
  rewrite length_app. simpl.
  replace (length (projection_collection c) + 1 - 1)
    with (length (projection_collection c)) by lia.
  done.
Qed.

(** The collection after [compute_initial_collection]: one fresh slot per
    given goal, in order, holding the PDB of the singleton pattern. *)
Lemma initial_collection_spec gs c :
  let c' := foldl (fun c goal => add_pattern_for_var opts c (var goal)) c gs in
  blacklisted_variables c' = blacklisted_variables c ∧
  concrete_solution_index c' = concrete_solution_index c ∧
  length (projection_collection c') = length (projection_collection c) + length gs ∧
  (∀ j, j < length (projection_collection c) →
        projection_collection c' !! j = projection_collection c !! j) ∧
  (∀ k g, gs !! k = Some g →
     ∃ p, projection_collection c' !! (length (projection_collection c) + k)
          = Some (Some p) ∧
          get_pdb p = make_pdb (task opts) [var g] ∧
          is_solved p = false ∧
          is_unsolvable p
          = bool_decide (pdb_initial_distance (task opts) [var g] = Int.max_int)).
Proof.
  revert c. induction gs as [|g gs IH]; intros c; simpl.
  - split; [done|]. split; [done|]. split; [lia|]. split; [done|].
    intros k g Hk. by rewrite lookup_nil in Hk.
  - destruct (add_pattern_for_var_spec c (var g)) as (Hcoll & _ & _ & Hbl & Hcsi).
    destruct (IH (add_pattern_for_var opts c (var g)))
      as (Hbl' & Hcsi' & Hlen' & Hold' & Hnew').
    rewrite Hcoll, length_app in Hlen', Hold', Hnew'. cbn [length] in *.
    split; [congruence|]. split; [congruence|]. split; [lia|]. split.
    + intros j Hj. rewrite Hold' by lia. by apply lookup_app_l.
    + intros [|k] g' Hk; simpl in Hk.
      * simplify_eq. rewrite Nat.add_0_r, Hold' by lia.
        rewrite list_lookup_middle by done.
        eexists. split; [done|].
        rewrite compute_projection_pdb, compute_projection_solved,
          compute_projection_unsolvable. done.
      * destruct (Hnew' k g' Hk) as (p & Hp & ?).
        exists p. split; [|done]. rewrite <- Hp. f_equal. lia.
Qed.

Lemma omap_id_pdbs (l : list (option Projection)) :
  map get_pdb (omap id l) = omap id (map (fmap get_pdb) l).
Proof. induction l as [|[p|] l IH]; simpl; [done| |done]. by f_equal. Qed.

Lemma initial_collection_pdbs gs c :
  pdbs_of (foldl (fun c goal => add_pattern_for_var opts c (var goal)) c gs)
  = pdbs_of c ++ map (fun g => Some (make_pdb (task opts) [var g])) gs.
Proof.
  revert c. induction gs as [|g gs IH]; intros c; simpl.
  - by rewrite app_nil_r.
  - rewrite IH. unfold pdbs_of at 1.
    destruct (add_pattern_for_var_spec c (var g)) as (-> & _).
    rewrite map_app. simpl. rewrite compute_projection_pdb.
    by rewrite <- app_assoc.
Qed.

Lemma collect_without_solution c :
  concrete_solution_index c = (-1)%Z →
  collect c
  = Returns (mkPCI (map pdb_pattern (omap id (pdbs_of c))) (omap id (pdbs_of c))).
Proof.
  intros Hcsi. unfold collect, live_projections, pdbs_of. rewrite Hcsi. simpl.
  rewrite <- omap_id_pdbs, <- map_map. done.
Qed.

Lemma omap_id_Some {A} (l : list A) : omap id (map Some l) = l.
Proof. induction l as [|x l IH]; simpl; [done|]. by f_equal. Qed.

(** C6. With [max_refinements = 0] every pass through the loop head ends
    the loop at once, the object untouched (no flaw detection, no
    refinement), and [run] returns one singleton pattern per given goal, in
    order, each with the PDB built for it at initialization. *)
Theorem C6_no_refinements fuel clock initial_blacklist r :
  max_refinements opts = 0%Z →
  goals opts ≠ [] →
  (∀ timer poll c, iteration opts timer poll 0 c = Returns (Break c)) ∧
  run opts (S fuel) clock initial_blacklist r
  = Some (Returns (mkPCI (map (fun g => [var g]) (goals opts))
                         (map (fun g => make_pdb (task opts) [var g]) (goals opts)))).
Proof.
  intros Hmax Hgoals.
  assert (∀ timer poll c, iteration opts timer poll 0 c = Returns (Break c)) as Hit.
  { intros timer poll c. unfold iteration, termination_conditions_met.
    rewrite Hmax. destruct (time_limit_reached _ _); [done|].
    by rewrite bool_decide_eq_true_2. }
  split; [done|].
  unfold run, run_from, compute_initial_collection.
  rewrite (bool_decide_eq_false_2 _ Hgoals). simpl.
  unfold run_loop. simpl. rewrite Hit. simpl.
  rewrite collect_without_solution.
  - rewrite initial_collection_pdbs. unfold pdbs_of. simpl.
    rewrite <- (map_map (fun g => make_pdb (task opts) [var g]) Some).
    rewrite omap_id_Some, map_map. done.
  - by destruct (initial_collection_spec (goals opts)
                   (Cegar_new initial_blacklist r)) as (_ & -> & _).
Qed.

End driver.

Section early_exits.
Context `{Collaborators} (opts : Options).
Abbreviation init := (get_initial_state_values (task opts)).

Lemma seq_split_at i n : i < n → seq 0 n = seq 0 i ++ i :: seq (S i) (n - S i).
Proof.
  intros Hi. replace n with (i + S (n - S i)) at 1 by lia.
  by rewrite seq_app.
Qed.

(** C1. Flaw detection comes to slot [i] with an empty blacklist and no
    solution recorded (the slots before it are passed over), and the plan
    of slot [i] executes from the concrete initial state to a goal state.
    Then [concrete_solution_index] becomes [i]; detection returns the
    empty flaw list whatever slots follow and whatever flaws were gathered;
    the main loop ends in this pass; and the result holds the pattern and
    PDB of slot [i] and nothing else. *)
Theorem C1_concrete_solution (c : Cegar) i p :
  blacklisted_variables c = ∅ →
  concrete_solution_index c = (-1)%Z →
  projection_collection c !! i = Some (Some p) →
  is_solved p = false →
  is_unsolvable p = false →
  executes_to_goal opts ∅ i (get_plan p) init = true →
  (∀ j, j < i → passed_over opts c j) →
  ∃ c', marked c c' ∧
    concrete_solution_index (set_concrete_solution_index c' (Z.of_nat i))
    = Z.of_nat i ∧
    (∀ later flaws,
       get_flaws_loop opts (seq 0 i ++ i :: later) flaws c
       = Returns ([], set_concrete_solution_index c' (Z.of_nat i))) ∧
    get_flaws opts c = Returns ([], set_concrete_solution_index c' (Z.of_nat i)) ∧
    (∀ fuel timer poll refinement_counter,
       termination_conditions_met opts timer poll refinement_counter = false →
       main_loop opts (S fuel) timer poll refinement_counter c
       = Some (Returns (set_concrete_solution_index c' (Z.of_nat i))) ∧
       run_loop opts (S fuel) timer poll refinement_counter c
       = Some (Returns (mkPCI [get_pattern p] [get_pdb p]))).
Proof.
  intros Hbl Hcsi Hp Hps Hpu Hexec Hbefore.
  destruct (get_flaws_loop_solution opts (seq 0 i) i p) with (c := c)
    as (c' & Hm & Hp' & Hloop); try done.
  { rewrite elem_of_seq. lia. }
  { intros j Hj. apply Hbefore. apply elem_of_seq in Hj. lia. }
  exists c'. split; [done|]. split; [done|]. split; [done|].
  assert (get_flaws opts c
          = Returns ([], set_concrete_solution_index c' (Z.of_nat i))) as Hget.
  { unfold get_flaws.
    rewrite (seq_split_at i) by (by eapply lookup_lt_Some). apply Hloop. }
  split; [done|].
  intros fuel timer poll counter Hterm.
  assert (main_loop opts (S fuel) timer poll counter c
          = Some (Returns (set_concrete_solution_index c' (Z.of_nat i)))) as Hmain.
  { simpl. unfold iteration. by rewrite Hterm, Hget. }
  split; [done|].
  unfold run_loop. rewrite Hmain. simpl. unfold collect. simpl.
  rewrite bool_decide_eq_false_2 by lia. simpl.
  unfold deref. simpl. rewrite Nat2Z.id, Hp'. done.
Qed.

(** The exit on an unsolvable projection: the loop is entered and
    detection is not ended by an earlier slot. *)
Lemma unsolvable_exit fuel clock initial_blacklist r g c0 :
  g ∈ goals opts →
  pdb_initial_distance (task opts) [var g] = Int.max_int →
  max_refinements opts ≠ 0%Z →
  is_expired (mkTimer (max_time opts) clock) 0 = false →
  compute_initial_collection opts (Cegar_new initial_blacklist r) = Returns c0 →
  (initial_blacklist = ∅ →
   ∀ j q, projection_collection c0 !! j = Some (Some q) →
          is_unsolvable q = false →
          executes_to_goal opts ∅ j (get_plan q) init = false) →
  run opts (S fuel) clock initial_blacklist r = Some (ExitWith SEARCH_UNSOLVABLE).
Proof.
  intros Hg Hdist Hmax Htime Hc0 Hno.
  unfold run, run_from. rewrite Hc0. unfold run_loop. simpl.
  unfold iteration, termination_conditions_met, time_limit_reached.
  rewrite Htime. rewrite bool_decide_eq_false_2 by done.
  unfold compute_initial_collection in Hc0.
  destruct (bool_decide (goals opts = [])); simpl in Hc0; [done|].
  injection Hc0 as Hc0.
  destruct (initial_collection_spec opts (goals opts) (Cegar_new initial_blacklist r))
    as (Hbl & Hcsi & Hlen & _ & Hnew).
  rewrite Hc0 in Hbl, Hcsi, Hlen, Hnew. simpl in Hbl, Hcsi, Hlen, Hnew.
  apply list_elem_of_lookup in Hg as [k Hk].
  destruct (Hnew k g Hk) as (p & Hp & _ & Hps & Hpu).
  rewrite (bool_decide_eq_true_2 _ Hdist) in Hpu.
  unfold get_flaws.
  rewrite (get_flaws_loop_unsolvable opts k p); try done.
  - apply elem_of_seq. apply lookup_lt_Some in Hp. lia.
  - intros j q _ Hq _ Hqu [He Hb]. rewrite Hbl in Hb, He.
    rewrite Hb in He. rewrite (Hno Hb j q Hq Hqu) in He. done.
Qed.

End early_exits.

(** ** States of a run and their invariants *)

Section invariants.
Context `{Collaborators} (opts : Options).

Definition state_after (o : LoopStep) : Cegar :=
  match o with Break c => c | Continue c => c end.

(** One pass through the loop (condition and body) takes [c] to [c'],
    whatever the timer reads and whatever the refinement counter is. *)
Definition pass (c c' : Cegar) : Prop :=
  ∃ timer poll refinement_counter o,
    iteration opts timer poll refinement_counter c = Returns o ∧ c' = state_after o.

(** The states of a run: after initialization and after every pass. *)
Definition reachable (initial_blacklist : gset nat) (r : RandomNumberGenerator)
    (c : Cegar) : Prop :=
  ∃ c0, compute_initial_collection opts (Cegar_new initial_blacklist r) = Returns c0 ∧
        rtc pass c0 c.

(** The sum of the PDB sizes over the live slots. *)
Definition total_size (c : Cegar) : Z :=
  foldr Z.add 0%Z (map (fun p => get_size (get_pdb p)) (live_projections c)).

(** [collection_size] is that sum, as an [int]. *)
Definition size_invariant (c : Cegar) : Prop :=
  collection_size c = Int.wrap (total_size c).

(** The patterns of two different live slots share no variable. *)
Definition pairwise_disjoint (c : Cegar) : Prop :=
  ∀ i j pi pj,
    i ≠ j →
    projection_collection c !! i = Some (Some pi) →
    projection_collection c !! j = Some (Some pj) →
    ∀ v, v ∈ get_pattern pi → v ∉ get_pattern pj.

(** [variable_to_projection] maps exactly the variables of the live
    patterns, each to the slot that holds it. *)
Definition map_invariant (c : Cegar) : Prop :=
  (∀ v j, variable_to_projection c !! v = Some j →
          ∃ p, projection_collection c !! j = Some (Some p) ∧ v ∈ get_pattern p) ∧
  (∀ j p v, projection_collection c !! j = Some (Some p) → v ∈ get_pattern p →
            variable_to_projection c !! v = Some j).

(** A property of the object that every operation of a pass keeps. *)
Record Stable (P : Cegar → Prop) : Prop := {
  stable_marked : ∀ c c', marked c c' → P c → P c';
  stable_index : ∀ c z,
    blacklisted_variables c = ∅ → P c → P (set_concrete_solution_index c z);
  stable_rng : ∀ c r, P c → P (set_rng c r);
  stable_blacklist : ∀ c v, P c → P (blacklist c v);
  stable_merge : ∀ c i j c',
    i ≠ j → merge_patterns opts c i j = Returns c' → P c → P c';
  stable_add : ∀ c i v c',
    variable_to_projection c !! v = None →
    add_variable_to_pattern opts c i v = Returns c' → P c → P c';
}.

End invariants.

Section invariant_lemmas.
Context `{Collaborators} (opts : Options).
Abbreviation init := (get_initial_state_values (task opts)).

(** Detection changes solved flags and, under an empty blacklist, the
    solution index; nothing else. *)
Lemma get_flaws_loop_frame indices :
  ∀ flaws c fl c1,
    get_flaws_loop opts indices flaws c = Returns (fl, c1) →
    ∃ c2, marked c c2 ∧
          (c1 = c2 ∨ (blacklisted_variables c = ∅ ∧
                      ∃ z, c1 = set_concrete_solution_index c2 z)).
Proof.
  induction indices as [|j indices IH]; intros flaws c fl c1 Hrun.
  - simpl in Hrun. simplify_eq. exists c1. split; [apply marked_refl|by left].
  - rewrite get_flaws_loop_cons in Hrun.
    destruct (projection_collection c !! j) as [[q|]|] eqn:Hq; [|by eapply IH..].
    destruct (is_solved q); [by eapply IH|].
    destruct (is_unsolvable q); [done|].
    destruct (apply_wildcard_plan_cases opts c j q init Hq)
      as [(_ & Hb & Hcall)|(_ & nf & c' & Hcall & Hc')];
      rewrite Hcall in Hrun; simpl in Hrun.
    + rewrite bool_decide_eq_false_2 in Hrun by lia. simpl in Hrun.
      exists c. split; [apply marked_refl|]. right. split; [done|].
      exists (Z.of_nat j).
      destruct (bool_decide _); simpl in Hrun; [|done].
      destruct (bool_decide _); simpl in Hrun; [|done].
      by simplify_eq.
    + assert (marked c c') as Hm.
      { destruct Hc' as [->|[_ ->]]; [apply marked_refl|by apply marked_mark_slot]. }
      assert (get_flaws_loop opts indices (flaws ++ nf) c' = Returns (fl, c1)
              ∨ fl = [] ∧ c1 = c') as [Hrec|[_ ->]].
      { destruct (bool_decide (concrete_solution_index c' = -1)%Z);
          simpl in Hrun; [by left|].
        destruct (bool_decide _); simpl in Hrun; [|done].
        destruct (bool_decide _); simpl in Hrun; [|done].
        destruct (bool_decide _); simpl in Hrun; [|done].
        right. by simplify_eq. }
      * apply IH in Hrec as (c2 & Hm2 & Hc1).
        exists c2. split; [by eapply marked_trans|].
        by rewrite (marked_blacklist _ _ Hm) in Hc1.
      * exists c'. split; [done|by left].
Qed.

Lemma get_flaws_stable P c fl c1 :
  Stable opts P → get_flaws opts c = Returns (fl, c1) → P c → P c1.
Proof.
  intros HP Hget Hc.
  apply get_flaws_loop_frame in Hget as (c2 & Hm & [->|(Hb & z & ->)]).
  - by apply (stable_marked opts P HP c).
  - apply (stable_index opts P HP); [|by apply (stable_marked opts P HP c)].
    by rewrite (marked_blacklist _ _ Hm).
Qed.

Lemma bind_Returns {A B} (o : Outcome A) (k : A → Outcome B) b :
  bind o k = Returns b → ∃ a, o = Returns a ∧ k a = Returns b.
Proof. destruct o; simpl; intros; simplify_eq; eauto. Qed.

Lemma assert_Returns b u : assert b = Returns u → b = true.
Proof. by destruct b. Qed.

Lemma handle_flaw_stable P c flaw c' :
  Stable opts P → handle_flaw opts c flaw = Returns c' → P c → P c'.
Proof.
  intros HP Hrun Hc. unfold handle_flaw in Hrun.
  destruct (variable_to_projection c !! variable flaw) as [j|] eqn:Hv.
  - apply bind_Returns in Hrun as (_ & Hne%assert_Returns & Hrun).
    apply negb_true_iff, bool_decide_eq_false in Hne.
    apply bind_Returns in Hrun as (slot & _ & Hrun).
    apply bind_Returns in Hrun as (_ & _ & Hrun).
    apply bind_Returns in Hrun as ([] & _ & Hrun).
    + apply (stable_merge opts P HP c (collection_index flaw) j); [congruence|done..].
    + simplify_eq. by apply (stable_blacklist opts P HP).
  - apply bind_Returns in Hrun as ([] & _ & Hrun).
    + by eapply (stable_add opts P HP).
    + simplify_eq. by apply (stable_blacklist opts P HP).
Qed.

Lemma refine_stable P c flaws c' :
  Stable opts P → refine opts c flaws = Returns c' → P c → P c'.
Proof.
  intros HP Hrun Hc. unfold refine in Hrun.
  apply bind_Returns in Hrun as (_ & _ & Hrun).
  destruct (rng_draw _ _) as [k r].
  destruct (flaws !! k); [|done].
  eapply handle_flaw_stable; [done..|]. by apply (stable_rng opts P HP).
Qed.

Lemma pass_stable P c c' : Stable opts P → pass opts c c' → P c → P c'.
Proof.
  intros HP (timer & poll & counter & o & Hit & ->) Hc.
  unfold iteration in Hit.
  destruct (termination_conditions_met _ _ _ _); [by simplify_eq|].
  apply bind_Returns in Hit as ([fl c1] & Hget & Hit).
  pose proof (get_flaws_stable P _ _ _ HP Hget Hc) as Hc1.
  destruct fl as [|f fl]; [by simplify_eq|].
  destruct (time_limit_reached _ _); [by simplify_eq|].
  apply bind_Returns in Hit as (c2 & Href & Hit). simplify_eq. simpl.
  by eapply refine_stable.
Qed.

Lemma passes_stable P c c' : Stable opts P → rtc (pass opts) c c' → P c → P c'.
Proof.
  intros HP Hrtc. induction Hrtc as [|c c1 c' Hpass _ IH]; [done|].
  intros Hc. apply IH. by eapply pass_stable.
Qed.

(** The state in which the loop of [run] ends is one of these states. *)
Lemma main_loop_passes fuel timer :
  ∀ poll refinement_counter c c',
    main_loop opts fuel timer poll refinement_counter c = Some (Returns c') →
    rtc (pass opts) c c'.
Proof.
  induction fuel as [|fuel IH]; intros poll counter c c' Hrun; [done|].
  simpl in Hrun.
  destruct (iteration opts timer poll counter c) as [[c1|c1]| | |] eqn:Hit;
    try done.
  - simplify_eq. apply rtc_once. by exists timer, poll, counter, (Break c').
  - eapply rtc_l; [|by eapply IH]. by exists timer, poll, counter, (Continue c1).
Qed.

End invariant_lemmas.

(** ** What the refinement operations do to the object *)

Section operations.
Context `{Collaborators} (opts : Options).

Lemma wrap_add_l a b : Int.wrap (Int.wrap a + b) = Int.wrap (a + b).
Proof.
  unfold Int.wrap.
  replace ((a - Int.min_int) `mod` Int.modulus + Int.min_int + b - Int.min_int)%Z
    with ((a - Int.min_int) `mod` Int.modulus + b)%Z by lia.
  rewrite Zplus_mod_idemp_l.
  by replace (a - Int.min_int + b)%Z with (a + b - Int.min_int)%Z by lia.
Qed.

Lemma wrap_sub_l a b : Int.wrap (Int.wrap a - b) = Int.wrap (a - b).
Proof.
  replace (Int.wrap a - b)%Z with (Int.wrap a + - b)%Z by lia.
  rewrite wrap_add_l.
  by replace (a + - b)%Z with (a - b)%Z by lia.
Qed.

Lemma wrap_in_range z : Int.in_range z → Int.wrap z = z.
Proof.
  unfold Int.in_range, Int.wrap, Int.min_int, Int.max_int, Int.modulus.
  intros Hz. rewrite Z.mod_small by lia. lia.
Qed.

Lemma wrap_eq a b : a = b → Int.wrap a = Int.wrap b.
Proof. by intros ->. Qed.

Lemma pdbs_of_lookup c j p :
  projection_collection c !! j = Some (Some p) →
  pdbs_of c !! j = Some (Some (get_pdb p)).
Proof. intros Hp. unfold pdbs_of. by rewrite list_lookup_fmap, Hp. Qed.

Lemma pdbs_of_lookup_inv c j d :
  pdbs_of c !! j = Some (Some d) →
  ∃ p, projection_collection c !! j = Some (Some p) ∧ get_pdb p = d.
Proof.
  unfold pdbs_of. rewrite list_lookup_fmap.
  destruct (projection_collection c !! j) as [[p|]|]; simpl; intros; simplify_eq.
  eauto.
Qed.

Lemma merge_patterns_spec c i j c' :
  merge_patterns opts c i j = Returns c' →
  ∃ pi pj,
    projection_collection c !! i = Some (Some pi) ∧
    projection_collection c !! j = Some (Some pj) ∧
    pdbs_of c'
    = <[j := None]>
        (<[i := Some (make_pdb (task opts) (sort (get_pattern pi ++ get_pattern pj)))]>
           (pdbs_of c)) ∧
    variable_to_projection c'
    = foldl (fun m v => <[v := i]> m) (variable_to_projection c) (get_pattern pj) ∧
    collection_size c'
    = Int.add (Int.sub (Int.sub (collection_size c) (get_size (get_pdb pi)))
                       (get_size (get_pdb pj)))
              (pdb_num_states (task opts) (sort (get_pattern pi ++ get_pattern pj))) ∧
    blacklisted_variables c' = blacklisted_variables c ∧
    concrete_solution_index c' = concrete_solution_index c.
Proof.
  unfold merge_patterns. intros Hrun.
  apply bind_Returns in Hrun as (pi & Hpi%deref_Returns & Hrun).
  apply bind_Returns in Hrun as (pj & Hpj%deref_Returns & Hrun).
  pose proof (compute_projection_pdb (task opts)
                (sort (get_pattern pi ++ get_pattern pj)) (rng c)
                (wildcard_plans opts)) as Hpdb.
  destruct (compute_projection _ _ _ _) as [merged r]. simpl in Hpdb.
  simplify_eq. exists pi, pj. simpl. rewrite Hpdb.
  split; [done|]. split; [done|]. split; [|done].
  unfold pdbs_of. simpl. rewrite !list_fmap_insert. simpl. by rewrite Hpdb.
Qed.

Lemma add_variable_to_pattern_spec c i v c' :
  add_variable_to_pattern opts c i v = Returns c' →
  ∃ p,
    projection_collection c !! i = Some (Some p) ∧
    pdbs_of c'
    = <[i := Some (make_pdb (task opts) (sort (get_pattern p ++ [v])))]> (pdbs_of c) ∧
    variable_to_projection c' = <[v := i]> (variable_to_projection c) ∧
    collection_size c'
    = Int.add (Int.sub (collection_size c) (get_size (get_pdb p)))
              (pdb_num_states (task opts) (sort (get_pattern p ++ [v]))) ∧
    blacklisted_variables c' = blacklisted_variables c ∧
    concrete_solution_index c' = concrete_solution_index c.
Proof.
  unfold add_variable_to_pattern. intros Hrun.
  apply bind_Returns in Hrun as (p & Hp%deref_Returns & Hrun).
  pose proof (compute_projection_pdb (task opts)
                (sort (get_pattern p ++ [v])) (rng c) (wildcard_plans opts)) as Hpdb.
  destruct (compute_projection _ _ _ _) as [new r]. simpl in Hpdb.
  simplify_eq. exists p. simpl. rewrite Hpdb.
  split; [done|]. split; [|done].
  unfold pdbs_of. simpl. rewrite list_fmap_insert. simpl. by rewrite Hpdb.
Qed.

(** The sum of the sizes, slot by slot. *)
Definition slot_size (o : option PatternDatabase) : Z := from_option get_size 0%Z o.

Definition sum_sizes (l : list (option PatternDatabase)) : Z :=
  foldr (fun o n => (slot_size o + n)%Z) 0%Z l.

Lemma total_size_sum c : total_size c = sum_sizes (pdbs_of c).
Proof.
  unfold total_size, live_projections, pdbs_of.
  induction (projection_collection c) as [|[p|] l IH]; simpl; [done| |done].
  f_equal. apply IH.
Qed.

Lemma sum_sizes_insert l i o x :
  l !! i = Some o →
  sum_sizes (<[i := x]> l) = (sum_sizes l - slot_size o + slot_size x)%Z.
Proof.
  unfold sum_sizes.
  revert i. induction l as [|y l IH]; intros [|i] Hi; simpl in Hi; simplify_eq; simpl.
  - lia.
  - rewrite (IH i Hi). lia.
Qed.

Lemma sum_sizes_app l o : sum_sizes (l ++ [o]) = (sum_sizes l + slot_size o)%Z.
Proof. unfold sum_sizes. induction l as [|y l IH]; simpl; [lia|]. rewrite IH. lia. Qed.

Lemma size_invariant_alt c :
  size_invariant c ↔ collection_size c = Int.wrap (sum_sizes (pdbs_of c)).
Proof. unfold size_invariant. by rewrite total_size_sum. Qed.

Lemma add_pattern_for_var_size c v :
  size_invariant c → size_invariant (add_pattern_for_var opts c v).
Proof.
  rewrite !size_invariant_alt. intros Hc.
  destruct (add_pattern_for_var_spec opts c v) as (Hcoll & _ & -> & _).
  unfold pdbs_of. rewrite Hcoll, map_app. simpl. rewrite sum_sizes_app. simpl.
  unfold Int.add. fold (pdbs_of c). by rewrite Hc, wrap_add_l.
Qed.

Lemma merge_patterns_size c i j c' :
  i ≠ j → merge_patterns opts c i j = Returns c' →
  size_invariant c → size_invariant c'.
Proof.
  rewrite !size_invariant_alt. intros Hij Hrun Hc.
  apply merge_patterns_spec in Hrun
    as (pi & pj & Hpi & Hpj & -> & _ & -> & _).
  apply pdbs_of_lookup in Hpi, Hpj.
  rewrite (sum_sizes_insert _ j (Some (get_pdb pj)))
    by (by rewrite list_lookup_insert_ne).
  rewrite (sum_sizes_insert _ i (Some (get_pdb pi))) by done. simpl.
  unfold Int.add, Int.sub. rewrite Hc, !wrap_sub_l, wrap_add_l.
  match goal with
  | |- Int.wrap (Int.wrap ?t - ?a - ?b + ?m) = _ =>
      replace (Int.wrap t - a - b + m)%Z with (Int.wrap t + (- a - b + m))%Z by lia
  end.
  rewrite wrap_add_l. apply wrap_eq. lia.
Qed.

Lemma add_variable_to_pattern_size c i v c' :
  add_variable_to_pattern opts c i v = Returns c' →
  size_invariant c → size_invariant c'.
Proof.
  rewrite !size_invariant_alt. intros Hrun Hc.
  apply add_variable_to_pattern_spec in Hrun as (p & Hp & -> & _ & -> & _).
  apply pdbs_of_lookup in Hp.
  rewrite (sum_sizes_insert _ i (Some (get_pdb p))) by done. simpl.
  unfold Int.add, Int.sub. rewrite Hc, !wrap_sub_l, wrap_add_l.
  apply wrap_eq. simpl. lia.
Qed.

Lemma size_invariant_stable : Stable opts (size_invariant).
Proof.
  split.
  - intros c c' Hm. rewrite !size_invariant_alt.
    by rewrite (marked_pdbs_of _ _ Hm), (marked_size _ _ Hm).
  - done.
  - done.
  - done.
  - apply merge_patterns_size.
  - intros c i v c' _. apply add_variable_to_pattern_size.
Qed.

Lemma initial_size_invariant gs c :
  size_invariant c →
  size_invariant (foldl (fun c goal => add_pattern_for_var opts c (var goal)) c gs).
Proof.
  revert c. induction gs as [|g gs IH]; intros c Hc; simpl; [done|].
  apply IH. by apply add_pattern_for_var_size.
Qed.

Lemma reachable_stable P initial_blacklist r c :
  Stable opts P →
  (∀ c0, compute_initial_collection opts (Cegar_new initial_blacklist r) = Returns c0 →
         P c0) →
  reachable opts initial_blacklist r c → P c.
Proof.
  intros HP Hinit (c0 & Hc0 & Hrtc). eapply passes_stable; eauto.
Qed.

Lemma compute_initial_collection_Returns c c0 :
  compute_initial_collection opts c = Returns c0 →
  c0 = foldl (fun c goal => add_pattern_for_var opts c (var goal)) c (goals opts).
Proof.
  unfold compute_initial_collection. intros Hrun.
  apply bind_Returns in Hrun as (_ & _ & Hrun). by simplify_eq.
Qed.

(** X26. [collection_size] is the sum of the PDB sizes of the live slots
    as an [int]: congruent to the sum modulo 2^32, and the sum itself
    whenever that is representable.  [add_pattern_for_var],
    [merge_patterns] (of two different slots) and [add_variable_to_pattern]
    each keep this, and it holds in every state of every run: after
    initialization and after each pass of the loop. *)
Theorem X26_collection_size_modulo :
  (∀ c v, size_invariant c → size_invariant (add_pattern_for_var opts c v)) ∧
  (∀ c i j c', i ≠ j → merge_patterns opts c i j = Returns c' →
               size_invariant c → size_invariant c') ∧
  (∀ c i v c', add_variable_to_pattern opts c i v = Returns c' →
               size_invariant c → size_invariant c') ∧
  (∀ initial_blacklist r c,
     reachable opts initial_blacklist r c →
     collection_size c = Int.wrap (total_size c) ∧
     (Int.in_range (total_size c) → collection_size c = total_size c)).
Proof.
  split; [apply add_pattern_for_var_size|].
  split; [apply merge_patterns_size|].
  split; [apply add_variable_to_pattern_size|].
  intros bl r c Hc.
  assert (size_invariant c) as Hinv.
  { eapply reachable_stable; [apply size_invariant_stable| |done].
    intros c0 ->%compute_initial_collection_Returns.
    apply initial_size_invariant. done. }
  split; [done|]. intros Hrange. rewrite <- (wrap_in_range _ Hrange). done.
Qed.

End operations.

(** ** Disjoint patterns and the variable map *)

Section disjointness.
Context `{Collaborators} (opts : Options).

(** [map_invariant], read off the PDBs of the slots. *)
Definition map_invariant_on (m : gmap nat nat) (l : list (option PatternDatabase))
  : Prop :=
  (∀ v j, m !! v = Some j → ∃ d, l !! j = Some (Some d) ∧ v ∈ pdb_pattern d) ∧
  (∀ j d v, l !! j = Some (Some d) → v ∈ pdb_pattern d → m !! v = Some j).

Lemma map_invariant_alt c :
  map_invariant c ↔ map_invariant_on (variable_to_projection c) (pdbs_of c).
Proof.
  unfold map_invariant, map_invariant_on, get_pattern. split; intros [Ha Hb]; split.
  - intros v j Hv. destruct (Ha v j Hv) as (p & Hp & Hin).
    exists (get_pdb p). split; [by apply pdbs_of_lookup|done].
  - intros j d v Hd Hin. apply pdbs_of_lookup_inv in Hd as (p & Hp & <-). eauto.
  - intros v j Hv. destruct (Ha v j Hv) as (d & Hd & Hin).
    apply pdbs_of_lookup_inv in Hd as (p & Hp & <-). eauto.
  - intros j p v Hp Hin. eapply Hb; [by apply pdbs_of_lookup|done].
Qed.

Lemma map_invariant_disjoint c : map_invariant c → pairwise_disjoint c.
Proof.
  intros [_ Hb] i j pi pj Hij Hpi Hpj v Hvi Hvj.
  pose proof (Hb i pi v Hpi Hvi). pose proof (Hb j pj v Hpj Hvj). congruence.
Qed.

Lemma elem_of_sort v pattern : v ∈ sort pattern ↔ v ∈ pattern.
Proof. unfold sort. by rewrite merge_sort_Permutation. Qed.

Lemma lookup_foldl_insert (m : gmap nat nat) (l : list nat) i w :
  foldl (fun m v => <[v := i]> m) m l !! w
  = if decide (w ∈ l) then Some i else m !! w.
Proof.
  revert m. induction l as [|v l IH]; intros m; simpl.
  - destruct (decide (w ∈ [])) as [Hin|]; [by apply elem_of_nil in Hin|done].
  - rewrite IH.
    destruct (decide (w ∈ l)) as [Hin|Hnin], (decide (w ∈ v :: l)) as [Hin'|Hnin'];
      try done.
    + destruct Hnin'. by right.
    + apply elem_of_cons in Hin' as [->|?]; [|done]. by rewrite lookup_insert_eq.
    + rewrite lookup_insert_ne; [done|]. intros ->. apply Hnin'. by left.
Qed.

Lemma map_invariant_merge c i j c' :
  i ≠ j → merge_patterns opts c i j = Returns c' →
  map_invariant c → map_invariant c'.
Proof.
  rewrite !map_invariant_alt. intros Hij Hrun [Ha Hb].
  assert (j ≠ i) as Hji by congruence.
  apply merge_patterns_spec in Hrun as (pi & pj & Hpi & Hpj & -> & -> & _).
  apply pdbs_of_lookup in Hpi, Hpj.
  pose proof (lookup_lt_Some _ _ _ Hpi) as Hilt.
  pose proof (lookup_lt_Some _ _ _ Hpj) as Hjlt.
  split.
  - intros w k. rewrite lookup_foldl_insert.
    case_decide as Hin.
    + intros ?; simplify_eq. eexists. split.
      * rewrite list_lookup_insert_ne by done. by apply list_lookup_insert_eq.
      * simpl. rewrite elem_of_sort, elem_of_app. by right.
    + intros Hw. destruct (Ha w k Hw) as (d & Hd & Hwd).
      assert (k ≠ j) as Hkj.
      { intros ->. rewrite Hpj in Hd. by simplify_eq. }
      rewrite list_lookup_insert_ne by done.
      destruct (decide (k = i)) as [->|Hki].
      * rewrite list_lookup_insert_eq by done. eexists. split; [done|].
        simpl. rewrite elem_of_sort, elem_of_app. left.
        rewrite Hpi in Hd. by simplify_eq.
      * rewrite list_lookup_insert_ne by done. eauto.
  - intros k d w Hd Hin. rewrite lookup_foldl_insert.
    destruct (decide (k = j)) as [->|Hkj].
    { rewrite list_lookup_insert_eq in Hd by (by rewrite length_insert). done. }
    rewrite list_lookup_insert_ne in Hd by done.
    destruct (decide (k = i)) as [->|Hki].
    + rewrite list_lookup_insert_eq in Hd by done. simplify_eq. simpl in Hin.
      rewrite elem_of_sort, elem_of_app in Hin.
      case_decide as Hwj; [done|].
      destruct Hin as [Hin|?]; [|done]. by apply (Hb i (get_pdb pi)).
    + rewrite list_lookup_insert_ne in Hd by done.
      case_decide as Hwj; [|by eapply Hb].
      pose proof (Hb k d w Hd Hin). pose proof (Hb j (get_pdb pj) w Hpj Hwj).
      congruence.
Qed.

Lemma map_invariant_add c i v c' :
  variable_to_projection c !! v = None →
  add_variable_to_pattern opts c i v = Returns c' →
  map_invariant c → map_invariant c'.
Proof.
  rewrite !map_invariant_alt. intros Hv Hrun [Ha Hb].
  apply add_variable_to_pattern_spec in Hrun as (p & Hp & -> & -> & _).
  apply pdbs_of_lookup in Hp.
  pose proof (lookup_lt_Some _ _ _ Hp) as Hilt.
  split.
  - intros w k Hw. destruct (decide (w = v)) as [->|Hne].
    + rewrite lookup_insert_eq in Hw. simplify_eq.
      rewrite list_lookup_insert_eq by done. eexists. split; [done|].
      simpl. rewrite elem_of_sort, elem_of_app, list_elem_of_singleton. by right.
    + rewrite lookup_insert_ne in Hw by done.
      destruct (Ha w k Hw) as (d & Hd & Hin).
      destruct (decide (k = i)) as [->|Hki].
      * rewrite list_lookup_insert_eq by done. eexists. split; [done|].
        simpl. rewrite elem_of_sort, elem_of_app. left.
        rewrite Hp in Hd. by simplify_eq.
      * rewrite list_lookup_insert_ne by done. eauto.
  - intros k d w Hd Hin. destruct (decide (k = i)) as [->|Hki].
    + rewrite list_lookup_insert_eq in Hd by done. simplify_eq. simpl in Hin.
      rewrite elem_of_sort, elem_of_app, list_elem_of_singleton in Hin.
      destruct Hin as [Hin| ->]; [|by rewrite lookup_insert_eq].
      pose proof (Hb i (get_pdb p) w Hp Hin) as Hw.
      rewrite lookup_insert_ne by congruence. done.
    + rewrite list_lookup_insert_ne in Hd by done.
      pose proof (Hb k d w Hd Hin) as Hw.
      rewrite lookup_insert_ne by congruence. done.
Qed.

Lemma map_invariant_stable : Stable opts map_invariant.
Proof.
  split.
  - intros c c' Hm. rewrite !map_invariant_alt.
    by rewrite (marked_pdbs_of _ _ Hm), (marked_map _ _ Hm).
  - done.
  - done.
  - done.
  - apply map_invariant_merge.
  - apply map_invariant_add.
Qed.

Lemma map_invariant_add_pattern c v :
  variable_to_projection c !! v = None →
  map_invariant c → map_invariant (add_pattern_for_var opts c v).
Proof.
  rewrite !map_invariant_alt. intros Hv [Ha Hb].
  destruct (add_pattern_for_var_spec opts c v) as (Hcoll & -> & _).
  unfold pdbs_of at 1. rewrite Hcoll, map_app. fold (pdbs_of c). simpl.
  rewrite compute_projection_pdb.
  assert (length (projection_collection c) = length (pdbs_of c)) as ->.
  { unfold pdbs_of. by rewrite length_map. }
  split.
  - intros w k Hw. destruct (decide (w = v)) as [->|Hne].
    + rewrite lookup_insert_eq in Hw. simplify_eq.
      rewrite list_lookup_middle by done. eexists. split; [done|].
      simpl. by apply list_elem_of_singleton.
    + rewrite lookup_insert_ne in Hw by done.
      destruct (Ha w k Hw) as (d & Hd & Hin). exists d. split; [|done].
      by apply lookup_app_l_Some.
  - intros k d w Hd Hin. apply lookup_app_Some in Hd as [Hd|[Hge Hd]].
    + pose proof (Hb k d w Hd Hin) as Hw.
      rewrite lookup_insert_ne by congruence. done.
    + apply list_lookup_singleton_Some in Hd as [Hk Hd]. simplify_eq.
      simpl in Hin. apply list_elem_of_singleton in Hin as ->.
      replace k with (length (pdbs_of c)) by lia. by rewrite lookup_insert_eq.
Qed.

Lemma initial_map_invariant gs c :
  NoDup (map var gs) →
  (∀ g, g ∈ gs → variable_to_projection c !! var g = None) →
  map_invariant c →
  map_invariant (foldl (fun c goal => add_pattern_for_var opts c (var goal)) c gs).
Proof.
  revert c. induction gs as [|g gs IH]; intros c Hnd Hfresh Hc; simpl; [done|].
  simpl in Hnd. apply NoDup_cons in Hnd as [Hg Hnd].
  apply IH; [done| |].
  - intros g' Hg'.
    destruct (add_pattern_for_var_spec opts c (var g)) as (_ & -> & _).
    rewrite lookup_insert_ne.
    + apply Hfresh. by right.
    + intros Heq. apply Hg. rewrite Heq. apply list_elem_of_fmap. eauto.
  - apply map_invariant_add_pattern; [|done]. apply Hfresh. by left.
Qed.

Lemma reachable_map_invariant initial_blacklist r c :
  NoDup (map var (goals opts)) →
  reachable opts initial_blacklist r c →
  map_invariant c.
Proof.
  intros Hnd Hc.
  eapply reachable_stable; [apply map_invariant_stable| |done].
  intros c0 ->%compute_initial_collection_Returns.
  apply initial_map_invariant; [done|done|].
  split.
  - intros v j Hv. simpl in Hv. by rewrite lookup_empty in Hv.
  - intros j p v Hp. simpl in Hp. by rewrite lookup_nil in Hp.
Qed.

(** C2, as the code has it.  When the given goals name pairwise distinct
    variables, the patterns of the live slots are pairwise disjoint in every
    state of every run: after initialization and after each pass of the
    loop, for every task, generator, blacklist, timer and limits. *)
Theorem C2_live_patterns_disjoint initial_blacklist r c :
  NoDup (map var (goals opts)) →
  reachable opts initial_blacklist r c →
  pairwise_disjoint c.
Proof.
  intros Hnd Hc. apply map_invariant_disjoint.
  by eapply reachable_map_invariant.
Qed.

End disjointness.

(** ** Soundness of the variable map, for any goals *)

Section map_soundness.
Context `{Collaborators} (opts : Options).

(** Every entry of [variable_to_projection] points to a live slot whose
    pattern holds the variable. *)
Definition map_sound (c : Cegar) : Prop :=
  ∀ v j, variable_to_projection c !! v = Some j →
         ∃ p, projection_collection c !! j = Some (Some p) ∧ v ∈ get_pattern p.

Definition map_sound_on (m : gmap nat nat) (l : list (option PatternDatabase))
  : Prop :=
  ∀ v j, m !! v = Some j → ∃ d, l !! j = Some (Some d) ∧ v ∈ pdb_pattern d.

Lemma map_sound_alt c :
  map_sound c ↔ map_sound_on (variable_to_projection c) (pdbs_of c).
Proof.
  unfold map_sound, map_sound_on, get_pattern. split; intros Ha v j Hv.
  - destruct (Ha v j Hv) as (p & Hp & Hin).
    exists (get_pdb p). split; [by apply pdbs_of_lookup|done].
  - destruct (Ha v j Hv) as (d & Hd & Hin).
    apply pdbs_of_lookup_inv in Hd as (p & Hp & <-). eauto.
Qed.

Lemma map_sound_merge c i j c' :
  i ≠ j → merge_patterns opts c i j = Returns c' → map_sound c → map_sound c'.
Proof.
  rewrite !map_sound_alt. intros Hij Hrun Ha.
  assert (j ≠ i) as Hji by congruence.
  apply merge_patterns_spec in Hrun as (pi & pj & Hpi & Hpj & -> & -> & _).
  apply pdbs_of_lookup in Hpi, Hpj.
  pose proof (lookup_lt_Some _ _ _ Hpi) as Hilt.
  intros w k. rewrite lookup_foldl_insert. case_decide as Hin.
  - intros ?; simplify_eq. eexists. split.
    + rewrite list_lookup_insert_ne by done. by apply list_lookup_insert_eq.
    + simpl. rewrite elem_of_sort, elem_of_app. by right.
  - intros Hw. destruct (Ha w k Hw) as (d & Hd & Hwd).
    assert (k ≠ j) as Hkj.
    { intros ->. rewrite Hpj in Hd. by simplify_eq. }
    rewrite list_lookup_insert_ne by done.
    destruct (decide (k = i)) as [->|Hki].
    + rewrite list_lookup_insert_eq by done. eexists. split; [done|].
      simpl. rewrite elem_of_sort, elem_of_app. left.
      rewrite Hpi in Hd. by simplify_eq.
    + rewrite list_lookup_insert_ne by done. eauto.
Qed.

Lemma map_sound_add c i v c' :
  add_variable_to_pattern opts c i v = Returns c' → map_sound c → map_sound c'.
Proof.
  rewrite !map_sound_alt. intros Hrun Ha.
  apply add_variable_to_pattern_spec in Hrun as (p & Hp & -> & -> & _).
  apply pdbs_of_lookup in Hp.
  pose proof (lookup_lt_Some _ _ _ Hp) as Hilt.
  intros w k Hw. destruct (decide (w = v)) as [->|Hne].
  - rewrite lookup_insert_eq in Hw. simplify_eq.
    rewrite list_lookup_insert_eq by done. eexists. split; [done|].
    simpl. rewrite elem_of_sort, elem_of_app, list_elem_of_singleton. by right.
  - rewrite lookup_insert_ne in Hw by done.
    destruct (Ha w k Hw) as (d & Hd & Hin).
    destruct (decide (k = i)) as [->|Hki].
    + rewrite list_lookup_insert_eq by done. eexists. split; [done|].
      simpl. rewrite elem_of_sort, elem_of_app. left.
      rewrite Hp in Hd. by simplify_eq.
    + rewrite list_lookup_insert_ne by done. eauto.
Qed.

Lemma map_sound_stable : Stable opts map_sound.
Proof.
  split.
  - intros c c' Hm. rewrite !map_sound_alt.
    by rewrite (marked_pdbs_of _ _ Hm), (marked_map _ _ Hm).
  - done.
  - done.
  - done.
  - apply map_sound_merge.
  - intros c i v c' _. apply map_sound_add.
Qed.

Lemma map_sound_add_pattern c v :
  map_sound c → map_sound (add_pattern_for_var opts c v).
Proof.
  rewrite !map_sound_alt. intros Ha.
  destruct (add_pattern_for_var_spec opts c v) as (Hcoll & -> & _).
  unfold pdbs_of at 1. rewrite Hcoll, map_app. fold (pdbs_of c). simpl.
  rewrite compute_projection_pdb.
  assert (length (projection_collection c) = length (pdbs_of c)) as ->.
  { unfold pdbs_of. by rewrite length_map. }
  intros w k Hw. destruct (decide (w = v)) as [->|Hne].
  - rewrite lookup_insert_eq in Hw. simplify_eq.
    rewrite list_lookup_middle by done. eexists. split; [done|].
    simpl. by apply list_elem_of_singleton.
  - rewrite lookup_insert_ne in Hw by done.
    destruct (Ha w k Hw) as (d & Hd & Hin). exists d. split; [|done].
    by apply lookup_app_l_Some.
Qed.

(** The map is sound in every state of every run, whatever the goals. *)
Lemma reachable_map_sound initial_blacklist r c :
  reachable opts initial_blacklist r c → map_sound c.
Proof.
  intros Hc. eapply reachable_stable; [apply map_sound_stable| |done].
  intros c0 ->%compute_initial_collection_Returns.
  assert (∀ gs c1, map_sound c1 →
            map_sound (foldl (fun c goal => add_pattern_for_var opts c (var goal))
                             c1 gs)) as Hfold.
  { induction gs as [|g gs IH]; intros c1 Hc1; simpl; [done|].
    apply IH. by apply map_sound_add_pattern. }
  apply Hfold. intros v j Hv. simpl in Hv. by rewrite lookup_empty in Hv.
Qed.

End map_soundness.

(** ** The blacklist *)

Section blacklisting.
Context `{Collaborators} (opts : Options).

Lemma blacklist_grows_stable (b : gset nat) :
  Stable opts (fun c => b ⊆ blacklisted_variables c).
Proof.
  split.
  - intros c c' Hm. by rewrite (marked_blacklist _ _ Hm).
  - done.
  - done.
  - intros c v Hc. simpl. set_solver.
  - intros c i j c' _ Hrun Hc.
    apply merge_patterns_spec in Hrun as (? & ? & _ & _ & _ & _ & _ & -> & _). done.
  - intros c i v c' _ Hrun Hc.
    apply add_variable_to_pattern_spec in Hrun as (? & _ & _ & _ & _ & -> & _). done.
Qed.

Lemma no_solution_stable (b : gset nat) :
  Stable opts (fun c => b ⊆ blacklisted_variables c ∧
                        (b ≠ ∅ → concrete_solution_index c = (-1)%Z)).
Proof.
  split.
  - intros c c' Hm. by rewrite (marked_blacklist _ _ Hm), (marked_index _ _ Hm).
  - intros c z Hempty [Hsub _]. simpl. split; [done|].
    intros Hb. destruct Hb. set_solver.
  - done.
  - intros c v [Hsub Hc]. simpl. split; [set_solver|done].
  - intros c i j c' _ Hrun Hc.
    apply merge_patterns_spec in Hrun
      as (? & ? & _ & _ & _ & _ & _ & -> & ->). done.
  - intros c i v c' _ Hrun Hc.
    apply add_variable_to_pattern_spec in Hrun as (? & _ & _ & _ & _ & -> & ->).
    done.
Qed.

(** C10. A pass of the loop never removes a variable from the blacklist.
    Hence every state of a run contains the blacklist given to the
    constructor, and when that blacklist is non-empty
    [concrete_solution_index] keeps its sentinel [-1] throughout and a run
    that returns returns all live slots, never the single slot of a
    concrete solution. *)
Theorem C10_blacklist_grows :
  (∀ c c', pass opts c c' →
           blacklisted_variables c ⊆ blacklisted_variables c') ∧
  (∀ initial_blacklist r c,
     reachable opts initial_blacklist r c →
     initial_blacklist ⊆ blacklisted_variables c ∧
     (initial_blacklist ≠ ∅ → concrete_solution_index c = (-1)%Z)) ∧
  (∀ fuel clock initial_blacklist r result,
     initial_blacklist ≠ ∅ →
     run opts fuel clock initial_blacklist r = Some (Returns result) →
     ∃ c, reachable opts initial_blacklist r c ∧
          concrete_solution_index c = (-1)%Z ∧
          result = mkPCI (map get_pattern (live_projections c))
                         (map get_pdb (live_projections c))).
Proof.
  assert (∀ initial_blacklist r c,
            reachable opts initial_blacklist r c →
            initial_blacklist ⊆ blacklisted_variables c ∧
            (initial_blacklist ≠ ∅ → concrete_solution_index c = (-1)%Z)) as Hreach.
  { intros b r c Hc.
    eapply (reachable_stable opts _ b r c (no_solution_stable b)); [|done].
    intros c0 ->%compute_initial_collection_Returns.
    destruct (initial_collection_spec opts (goals opts) (Cegar_new b r))
      as (-> & -> & _). done. }
  split; [|split; [done|]].
  - intros c c' Hpass.
    by apply (pass_stable opts _ c c' (blacklist_grows_stable _) Hpass).
  - intros fuel clock b r result Hb Hrun.
    unfold run, run_from in Hrun.
    destruct (compute_initial_collection _ _) as [c0| | |] eqn:Hc0; try done.
    unfold run_loop in Hrun.
    destruct (main_loop _ _ _ _ _ _) as [[c| | |]|] eqn:Hloop; try done.
    simpl in Hrun.
    assert (reachable opts b r c) as Hc.
    { exists c0. split; [done|]. by eapply main_loop_passes. }
    destruct (Hreach b r c Hc) as [_ Hcsi]. specialize (Hcsi Hb).
    exists c. split; [done|]. split; [done|].
    unfold collect in Hrun. rewrite Hcsi in Hrun. simpl in Hrun. by simplify_eq.
Qed.

End blacklisting.

(** ** The merge test *)

Section merging.
Context `{Collaborators} (opts : Options).

Lemma wrap_add_r a b : Int.wrap (a + Int.wrap b) = Int.wrap (a + b).
Proof. by rewrite Z.add_comm, wrap_add_l, Z.add_comm. Qed.

Lemma wrap_mul a b : Int.mul a b = Int.wrap (a * b).
Proof. done. Qed.

(** For non-negative factors and limit the product test is the exact
    comparison of the product with the limit. *)
Lemma is_product_within_limit_spec a b limit :
  (0 ≤ a)%Z → (0 ≤ b)%Z → (0 ≤ limit)%Z →
  is_product_within_limit a b limit = true ↔ (a * b ≤ limit)%Z.
Proof.
  intros Ha Hb Hl. unfold is_product_within_limit.
  rewrite orb_true_iff, !bool_decide_eq_true.
  destruct (decide (b = 0)%Z) as [->|Hb0].
  - split; [lia|by left].
  - rewrite Z.quot_div_nonneg by lia. split.
    + intros [?|Hle]; [done|].
      pose proof (Z.mul_div_le limit b ltac:(lia)). nia.
    + intros Hle. right. apply Z.div_le_lower_bound; lia.
Qed.

(** The collection size after the merge as the code computes it. *)
Definition merged_collection_size (c : Cegar) (si sj : Z) : Z :=
  Int.add (collection_size c) (Int.sub (Int.sub (Int.mul si sj) si) sj).

Lemma merged_collection_size_exact c si sj :
  Int.in_range (collection_size c + (si * sj - si - sj)) →
  merged_collection_size c si sj = (collection_size c + (si * sj - si - sj))%Z.
Proof.
  intros Hrange. unfold merged_collection_size, Int.add, Int.sub, Int.mul.
  rewrite (wrap_sub_l (Int.wrap (si * sj) - si) sj).
  replace (Int.wrap (si * sj) - si - sj)%Z
    with (Int.wrap (si * sj) - (si + sj))%Z by lia.
  rewrite wrap_sub_l, wrap_add_r. rewrite <- (wrap_in_range _ Hrange).
  apply wrap_eq. lia.
Qed.

(** [handle_flaw] on a flaw whose variable lies in another live slot. *)
Lemma handle_flaw_other_slot (c : Cegar) i j v pi pj :
  variable_to_projection c !! v = Some j →
  j ≠ i →
  projection_collection c !! i = Some (Some pi) →
  projection_collection c !! j = Some (Some pj) →
  handle_flaw opts c (mkFlaw i v)
  = if is_product_within_limit (get_size (get_pdb pi)) (get_size (get_pdb pj))
         (max_pdb_size opts)
       && bool_decide (merged_collection_size c (get_size (get_pdb pi))
                         (get_size (get_pdb pj)) ≤ max_collection_size opts)%Z
    then merge_patterns opts c i j else Returns (blacklist c v).
Proof.
  intros Hv Hji Hpi Hpj.
  unfold handle_flaw. simpl. rewrite Hv. simpl.
  rewrite (bool_decide_eq_false_2 _ Hji). simpl. rewrite Hpj. simpl.
  unfold can_merge_patterns.
  rewrite (proj2 (deref_Returns c i pi) Hpi),
          (proj2 (deref_Returns c j pj) Hpj). simpl.
  destruct (is_product_within_limit _ _ _); simpl; [|done].
  unfold merged_collection_size. by destruct (bool_decide _).
Qed.

Lemma merge_patterns_returns (c : Cegar) i j pi pj :
  projection_collection c !! i = Some (Some pi) →
  projection_collection c !! j = Some (Some pj) →
  ∃ c', merge_patterns opts c i j = Returns c'.
Proof.
  intros Hpi Hpj. unfold merge_patterns.
  rewrite (proj2 (deref_Returns c i pi) Hpi),
          (proj2 (deref_Returns c j pj) Hpj). simpl.
  destruct (compute_projection _ _ _ _) as [merged r']. eauto.
Qed.

(** The flaw [refine] passes to [handle_flaw]. *)
Lemma refine_chosen (c : Cegar) flaws f :
  flaws !! (rng_draw (rng c) (length flaws)).1 = Some f →
  refine opts c flaws
  = handle_flaw opts (set_rng c (rng_draw (rng c) (length flaws)).2) f.
Proof.
  intros Hf. unfold refine.
  destruct flaws as [|f0 flaws]; [by rewrite lookup_nil in Hf|].
  simpl. destruct (rng_draw _ _) as [k r']. simpl in *.
  match goal with |- match ?x with _ => _ end = _ => change x with ((f0 :: flaws) !! k) end.
  by rewrite Hf.
Qed.

(** What a merge of two different live slots leaves behind, in exact
    arithmetic and in the arithmetic of the code. *)
Lemma merge_patterns_result (c : Cegar) i j pi pj c' :
  i ≠ j →
  projection_collection c !! i = Some (Some pi) →
  projection_collection c !! j = Some (Some pj) →
  merge_patterns opts c i j = Returns c' →
  let merged_size :=
    pdb_num_states (task opts) (sort (get_pattern pi ++ get_pattern pj)) in
  projection_collection c' !! j = Some None ∧
  (∃ merged, projection_collection c' !! i = Some (Some merged) ∧
             get_pattern merged = sort (get_pattern pi ++ get_pattern pj)) ∧
  blacklisted_variables c' = blacklisted_variables c ∧
  collection_size c'
  = Int.add (Int.sub (Int.sub (collection_size c) (get_size (get_pdb pi)))
                     (get_size (get_pdb pj))) merged_size ∧
  total_size c'
  = (total_size c - get_size (get_pdb pi) - get_size (get_pdb pj) + merged_size)%Z.
Proof.
  intros Hij Hpi Hpj Hrun merged_size.
  destruct (merge_patterns_spec opts _ _ _ _ Hrun)
    as (pi' & pj' & Hpi' & Hpj' & Hpdbs & _ & Hsize & Hbl & _).
  rewrite Hpi in Hpi'. rewrite Hpj in Hpj'. simplify_eq.
  assert (pdbs_of c' !! j = Some None) as Hj.
  { rewrite Hpdbs. apply list_lookup_insert_eq. rewrite length_insert.
    unfold pdbs_of. rewrite length_map. by eapply lookup_lt_Some. }
  assert (pdbs_of c' !! i
          = Some (Some (make_pdb (task opts)
                          (sort (get_pattern pi' ++ get_pattern pj'))))) as Hi.
  { rewrite Hpdbs, list_lookup_insert_ne by done.
    apply list_lookup_insert_eq. unfold pdbs_of. rewrite length_map.
    by eapply lookup_lt_Some. }
  split; [|split; [|split; [done|split; [done|]]]].
  - unfold pdbs_of in Hj. rewrite list_lookup_fmap in Hj.
    by destruct (projection_collection c' !! j) as [[?|]|].
  - apply pdbs_of_lookup_inv in Hi as (merged & Hm & Hpdb).
    exists merged. split; [done|]. unfold get_pattern at 1. by rewrite Hpdb.
  - rewrite !total_size_sum, Hpdbs.
    rewrite (sum_sizes_insert _ j (Some (get_pdb pj')))
      by (rewrite list_lookup_insert_ne by done; by apply pdbs_of_lookup).
    rewrite (sum_sizes_insert _ i (Some (get_pdb pi')))
      by (by apply pdbs_of_lookup).
    simpl. fold merged_size. lia.
Qed.

(** A pass of the loop that refines. *)
Lemma iteration_Continue timer poll counter (c c1 c2 : Cegar) flaws :
  termination_conditions_met opts timer poll counter = false →
  get_flaws opts c = Returns (flaws, c1) →
  flaws ≠ [] →
  time_limit_reached timer (poll + 1) = false →
  refine opts c1 flaws = Returns c2 →
  iteration opts timer poll counter c = Returns (Continue c2).
Proof.
  intros Hterm Hflaws Hne Htime Hrefine. unfold iteration.
  rewrite Hterm, Hflaws. simpl. destruct flaws; [done|].
  by rewrite Htime, Hrefine.
Qed.

(** X25. What [handle_flaw] does with a flaw [(i, v)] whose variable
    lies in another live slot [j], in the arithmetic of the code.  The two
    slots are merged exactly when the product of their PDB sizes is within
    [max_pdb_size] and [collection_size + (s_i * s_j - s_i - s_j)], as the
    [int] the code computes, is within [max_collection_size].  Otherwise
    [v] joins the blacklist and the collection, the variable map and
    [collection_size] stay as they are.  The [int] is the exact sum
    whenever that is representable; where it is not, the comparison is
    made on the wrapped value. *)
Theorem X25_merge_or_blacklist (c : Cegar) i j v pi pj :
  variable_to_projection c !! v = Some j →
  j ≠ i →
  projection_collection c !! i = Some (Some pi) →
  projection_collection c !! j = Some (Some pj) →
  (0 ≤ get_size (get_pdb pi))%Z →
  (0 ≤ get_size (get_pdb pj))%Z →
  (0 ≤ max_pdb_size opts)%Z →
  let si := get_size (get_pdb pi) in
  let sj := get_size (get_pdb pj) in
  let allowed :=
    (si * sj ≤ max_pdb_size opts)%Z ∧
    (merged_collection_size c si sj ≤ max_collection_size opts)%Z in
  (allowed →
   ∃ c' merged,
     handle_flaw opts c (mkFlaw i v) = Returns c' ∧
     merge_patterns opts c i j = Returns c' ∧
     projection_collection c' !! j = Some None ∧
     projection_collection c' !! i = Some (Some merged) ∧
     get_pattern merged = sort (get_pattern pi ++ get_pattern pj)) ∧
  (¬ allowed →
   handle_flaw opts c (mkFlaw i v) = Returns (blacklist c v) ∧
   v ∈ blacklisted_variables (blacklist c v) ∧
   projection_collection (blacklist c v) = projection_collection c ∧
   variable_to_projection (blacklist c v) = variable_to_projection c ∧
   collection_size (blacklist c v) = collection_size c) ∧
  (Int.in_range (collection_size c + (si * sj - si - sj)) →
   merged_collection_size c si sj = (collection_size c + (si * sj - si - sj))%Z).
Proof.
  intros Hv Hji Hpi Hpj Hsi Hsj Hmax si sj allowed.
  assert (handle_flaw opts c (mkFlaw i v) =
          if is_product_within_limit si sj (max_pdb_size opts)
             && bool_decide (merged_collection_size c si sj ≤ max_collection_size opts)%Z
          then merge_patterns opts c i j else Returns (blacklist c v)) as Hhandle.
  { unfold handle_flaw. simpl. rewrite Hv. simpl.
    rewrite (bool_decide_eq_false_2 _ Hji). simpl. rewrite Hpj. simpl.
    unfold can_merge_patterns.
    rewrite (proj2 (deref_Returns c i pi) Hpi),
            (proj2 (deref_Returns c j pj) Hpj). simpl.
    fold si sj. destruct (is_product_within_limit si sj _); simpl; [|done].
    unfold merged_collection_size. by destruct (bool_decide _). }
  assert (is_product_within_limit si sj (max_pdb_size opts)
          && bool_decide (merged_collection_size c si sj ≤ max_collection_size opts)%Z
          = true ↔ allowed) as Hallowed.
  { rewrite andb_true_iff, bool_decide_eq_true.
    by rewrite is_product_within_limit_spec. }
  split; [|split].
  - intros Hok. rewrite (proj2 Hallowed Hok) in Hhandle.
    pose proof (lookup_lt_Some _ _ _ Hpi) as Hilt.
    pose proof (lookup_lt_Some _ _ _ Hpj) as Hjlt.
    pose proof (compute_projection_pdb (task opts)
                  (sort (get_pattern pi ++ get_pattern pj)) (rng c)
                  (wildcard_plans opts)) as Hpdb.
    unfold merge_patterns in *.
    rewrite (proj2 (deref_Returns c i pi) Hpi),
            (proj2 (deref_Returns c j pj) Hpj) in *. simpl in *.
    destruct (compute_projection _ _ _ _) as [merged r']. simpl in Hpdb.
    eexists _, merged. split; [done|]. split; [done|]. simpl.
    split; [by rewrite list_lookup_insert_eq by (by rewrite length_insert)|].
    split.
    + rewrite list_lookup_insert_ne by done. by rewrite list_lookup_insert_eq.
    + unfold get_pattern at 1. by rewrite Hpdb.
  - intros Hno.
    assert (is_product_within_limit si sj (max_pdb_size opts)
            && bool_decide (merged_collection_size c si sj ≤ max_collection_size opts)%Z
            = false) as Hfalse.
    { apply not_true_is_false. intros Hb. exact (Hno (proj1 Hallowed Hb)). }
    rewrite Hfalse in Hhandle. split; [done|]. simpl. split; [|done].
    apply elem_of_union. left. by apply elem_of_singleton.
  - apply merged_collection_size_exact.
Qed.

End merging.

(** ** Determinism *)

Section determinism.
Context `{Collaborators} (opts : Options).

(** Two timers give the same answer at every poll. *)
Definition same_expiry (t1 t2 : CountdownTimer) : Prop :=
  ∀ poll, is_expired t1 poll = is_expired t2 poll.

Lemma iteration_same_expiry t1 t2 poll counter c :
  same_expiry t1 t2 →
  iteration opts t1 poll counter c = iteration opts t2 poll counter c.
Proof.
  intros Ht. unfold iteration, termination_conditions_met, time_limit_reached.
  by rewrite !Ht.
Qed.

Lemma main_loop_same_expiry t1 t2 fuel :
  same_expiry t1 t2 →
  ∀ poll counter c,
    main_loop opts fuel t1 poll counter c = main_loop opts fuel t2 poll counter c.
Proof.
  intros Ht. induction fuel as [|fuel IH]; intros poll counter c; [done|].
  simpl. rewrite (iteration_same_expiry t1 t2) by done.
  destruct (iteration _ _ _ _ _) as [[?|?]| | |]; done.
Qed.

(** More fuel does not change a result. *)
Lemma main_loop_fuel timer fuel :
  ∀ fuel' poll counter c o,
    fuel ≤ fuel' →
    main_loop opts fuel timer poll counter c = Some o →
    main_loop opts fuel' timer poll counter c = Some o.
Proof.
  induction fuel as [|fuel IH]; intros fuel' poll counter c o Hle Hrun; [done|].
  destruct fuel' as [|fuel']; [lia|]. simpl in *.
  destruct (iteration _ _ _ _ _) as [[?|?]| | |]; try done.
  apply IH; [lia|done].
Qed.

Lemma main_loop_deterministic timer fuel1 fuel2 poll counter c o1 o2 :
  main_loop opts fuel1 timer poll counter c = Some o1 →
  main_loop opts fuel2 timer poll counter c = Some o2 →
  o1 = o2.
Proof.
  intros H1 H2.
  apply (main_loop_fuel _ _ (fuel1 `max` fuel2)) in H1; [|lia].
  apply (main_loop_fuel _ _ (fuel1 `max` fuel2)) in H2; [|lia].
  congruence.
Qed.

Lemma run_deterministic fuel1 fuel2 clock1 clock2 b r o1 o2 :
  same_expiry (mkTimer (max_time opts) clock1) (mkTimer (max_time opts) clock2) →
  run opts fuel1 clock1 b r = Some o1 →
  run opts fuel2 clock2 b r = Some o2 →
  o1 = o2.
Proof.
  intros Ht. unfold run, run_from.
  destruct (compute_initial_collection _ _) as [c0| | |]; try congruence.
  unfold run_loop.
  rewrite (main_loop_same_expiry _ _ fuel1 Ht).
  destruct (main_loop opts fuel1 _ _ _ _) as [x1|] eqn:H1; [|done].
  destruct (main_loop opts fuel2 _ _ _ _) as [x2|] eqn:H2; [|done].
  intros ? ?. simplify_eq.
  by rewrite (main_loop_deterministic _ _ _ _ _ _ _ _ H1 H2).
Qed.

End determinism.

(** *** Two runs whose collaborators answer alike *)

(** Two computations end alike: both return, with related results, or
    both end with the same exit code, failed assertion or undefined
    access. *)
Definition same_outcome {A B} (P : A → B → Prop)
    (o1 : Outcome A) (o2 : Outcome B) : Prop :=
  match o1, o2 with
  | Returns a, Returns b => P a b
  | ExitWith code1, ExitWith code2 => code1 = code2
  | AssertionFailed, AssertionFailed => True
  | Undefined, Undefined => True
  | _, _ => False
  end.

Lemma same_outcome_bind {A1 A2 B1 B2} (P : A1 → A2 → Prop) (Q : B1 → B2 → Prop)
    o1 o2 (k1 : A1 → Outcome B1) (k2 : A2 → Outcome B2) :
  same_outcome P o1 o2 →
  (∀ a1 a2, P a1 a2 → same_outcome Q (k1 a1) (k2 a2)) →
  same_outcome Q (bind o1 k1) (bind o2 k2).
Proof. destruct o1, o2; simpl; try done. intros HP Hk. by apply Hk. Qed.

Lemma same_outcome_eq {A} (o1 o2 : Outcome A) :
  same_outcome eq o1 o2 ↔ o1 = o2.
Proof. destruct o1, o2; simpl; split; intros; simplify_eq; done. Qed.

Lemma same_outcome_refl {A} (o : Outcome A) : same_outcome eq o o.
Proof. by apply same_outcome_eq. Qed.

Section determinism_across.
Context (H1 H2 : Collaborators) (opts : Options).
Context (R : @RandomNumberGenerator H1 → @RandomNumberGenerator H2 → Prop).

(** The collaborators of two runs answer alike on the task: generators
    in related states draw the same numbers and stay related, the plan
    extractor returns the same plan from related generators and leaves them
    related, and the PDBs and the operator ids agree. *)
Record same_answers : Prop := {
  same_draw : ∀ r1 r2 n,
    R r1 r2 →
    (@rng_draw H1 r1 n).1 = (@rng_draw H2 r2 n).1 ∧
    R (@rng_draw H1 r1 n).2 (@rng_draw H2 r2 n).2;
  same_num_states : ∀ pattern,
    @pdb_num_states H1 (task opts) pattern = @pdb_num_states H2 (task opts) pattern;
  same_initial_distance : ∀ pattern,
    @pdb_initial_distance H1 (task opts) pattern
    = @pdb_initial_distance H2 (task opts) pattern;
  same_plan : ∀ pattern r1 r2 wildcard,
    R r1 r2 →
    (@steepest_ascent_enforced_hillclimbing H1 (task opts) pattern r1 wildcard).1
    = (@steepest_ascent_enforced_hillclimbing H2 (task opts) pattern r2 wildcard).1 ∧
    R (@steepest_ascent_enforced_hillclimbing H1 (task opts) pattern r1 wildcard).2
      (@steepest_ascent_enforced_hillclimbing H2 (task opts) pattern r2 wildcard).2;
  same_ancestor : ∀ pattern abs_id,
    @get_ancestor_operator_id H1 (task opts) pattern abs_id
    = @get_ancestor_operator_id H2 (task opts) pattern abs_id;
}.

(** The objects of the two runs agree in every member, up to the state of
    the generator. *)
Record similar (c1 : @Cegar H1) (c2 : @Cegar H2) : Prop := {
  similar_blacklist : blacklisted_variables c1 = blacklisted_variables c2;
  similar_rng : R (rng c1) (rng c2);
  similar_collection : projection_collection c1 = projection_collection c2;
  similar_map : variable_to_projection c1 = variable_to_projection c2;
  similar_size : collection_size c1 = collection_size c2;
  similar_solution : concrete_solution_index c1 = concrete_solution_index c2;
}.

Definition similar_flaws (x1 : FlawList * @Cegar H1) (x2 : FlawList * @Cegar H2)
  : Prop :=
  x1.1 = x2.1 ∧ similar x1.2 x2.2.

Definition similar_step (s1 : @LoopStep H1) (s2 : @LoopStep H2) : Prop :=
  match s1, s2 with
  | Break c1, Break c2 => similar c1 c2
  | Continue c1, Continue c2 => similar c1 c2
  | _, _ => False
  end.

Hypothesis answers : same_answers.

Lemma compute_projection_similar pattern r1 r2 :
  R r1 r2 →
  (@compute_projection H1 (task opts) pattern r1 (wildcard_plans opts)).1
  = (@compute_projection H2 (task opts) pattern r2 (wildcard_plans opts)).1 ∧
  R (@compute_projection H1 (task opts) pattern r1 (wildcard_plans opts)).2
    (@compute_projection H2 (task opts) pattern r2 (wildcard_plans opts)).2.
Proof using All.
  intros Hr. unfold compute_projection, make_pdb. simpl.
  rewrite (same_num_states answers), (same_initial_distance answers).
  case_bool_decide; [done|].
  destruct (same_plan answers pattern r1 r2 (wildcard_plans opts) Hr)
    as [Hplan Hr'].
  destruct (@steepest_ascent_enforced_hillclimbing H1 _ _ _ _) as [plan1 r1'].
  destruct (@steepest_ascent_enforced_hillclimbing H2 _ _ _ _) as [plan2 r2'].
  simpl in *. subst plan2. split; [|done]. f_equal.
  apply map_ext. intros step. apply map_ext. intros abs_id.
  apply (same_ancestor answers).
Qed.

Lemma deref_similar c1 c2 index :
  similar c1 c2 → deref c1 index = deref c2 index.
Proof using All. intros Hc. unfold deref. by rewrite (similar_collection _ _ Hc). Qed.

Lemma add_pattern_for_var_similar c1 c2 v :
  similar c1 c2 →
  similar (add_pattern_for_var opts c1 v) (add_pattern_for_var opts c2 v).
Proof using All.
  intros [Hb Hr Hcoll Hmap Hsize Hsol]. unfold add_pattern_for_var.
  destruct (compute_projection_similar [v] _ _ Hr) as [Hp Hr'].
  destruct (@compute_projection H1 _ _ _ _) as [p1 r1'].
  destruct (@compute_projection H2 _ _ _ _) as [p2 r2'].
  simpl in *. subst p2. split; simpl; [done|done|by rewrite Hcoll|
    by rewrite Hcoll, Hmap|by rewrite Hsize|done].
Qed.

Lemma compute_initial_collection_similar c1 c2 :
  similar c1 c2 →
  same_outcome similar (compute_initial_collection opts c1)
               (compute_initial_collection opts c2).
Proof using All.
  intros Hc. unfold compute_initial_collection.
  destruct (negb _); simpl; [|done].
  revert c1 c2 Hc. induction (goals opts) as [|g gs IH]; intros c1 c2 Hc; [done|].
  simpl. apply IH. by apply add_pattern_for_var_similar.
Qed.

Lemma apply_wildcard_plan_similar c1 c2 index init :
  similar c1 c2 →
  same_outcome similar_flaws (apply_wildcard_plan opts c1 index init)
               (apply_wildcard_plan opts c2 index init).
Proof using All.
  intros Hc. pose proof Hc as [Hb Hr Hcoll Hmap Hsize Hsol].
  unfold apply_wildcard_plan. rewrite (deref_similar c1 c2 index Hc).
  destruct (deref c2 index) as [p| | |]; simpl; try done.
  rewrite Hb.
  destruct (apply_steps _ _ _ _ _ _) as [flaws current].
  assert (similar (mark_slot_as_solved c1 index p) (mark_slot_as_solved c2 index p))
    as Hmarked.
  { unfold mark_slot_as_solved, set_projection_collection.
    split; simpl; [done|done|by rewrite Hcoll|done|done|done]. }
  destruct flaws as [|f flaws]; [|by split].
  destruct (is_goal_state _ _).
  - case_bool_decide; simpl; (split; [done|]); [|done].
    unfold set_concrete_solution_index. by split.
  - destruct (goal_flaws _ _ _ _); by split.
Qed.

Lemma get_flaws_loop_similar indices :
  ∀ flaws c1 c2,
    similar c1 c2 →
    same_outcome similar_flaws (get_flaws_loop opts indices flaws c1)
                 (get_flaws_loop opts indices flaws c2).
Proof using All.
  induction indices as [|index rest IH]; intros flaws c1 c2 Hc; [by split|].
  simpl. rewrite (similar_collection _ _ Hc).
  destruct (projection_collection c2 !! index) as [[p|]|]; [|by apply IH..].
  destruct (is_solved p); [by apply IH|].
  destruct (is_unsolvable p); [done|].
  eapply same_outcome_bind; [by apply apply_wildcard_plan_similar|].
  intros [new1 c1'] [new2 c2'] [Hnew Hc']. simpl in Hnew, Hc'. subst new2.
  rewrite (similar_solution _ _ Hc'), (similar_blacklist _ _ Hc').
  destruct (negb _); [|by apply IH].
  destruct (assert _); simpl; try done.
  destruct (assert _); simpl; try done.
  destruct (assert _); simpl; try done.
Qed.

Lemma get_flaws_similar c1 c2 :
  similar c1 c2 →
  same_outcome similar_flaws (get_flaws opts c1) (get_flaws opts c2).
Proof using All.
  intros Hc. unfold get_flaws. rewrite (similar_collection _ _ Hc).
  by apply get_flaws_loop_similar.
Qed.

Lemma can_merge_patterns_similar c1 c2 i j :
  similar c1 c2 →
  can_merge_patterns opts c1 i j = can_merge_patterns opts c2 i j.
Proof using All.
  intros Hc. unfold can_merge_patterns.
  rewrite !(deref_similar c1 c2 _ Hc). by rewrite (similar_size _ _ Hc).
Qed.

Lemma can_add_variable_to_pattern_similar c1 c2 i v :
  similar c1 c2 →
  can_add_variable_to_pattern opts c1 i v = can_add_variable_to_pattern opts c2 i v.
Proof using All.
  intros Hc. unfold can_add_variable_to_pattern.
  rewrite !(deref_similar c1 c2 _ Hc). by rewrite (similar_size _ _ Hc).
Qed.

Lemma merge_patterns_similar c1 c2 i j :
  similar c1 c2 →
  same_outcome similar (merge_patterns opts c1 i j) (merge_patterns opts c2 i j).
Proof using All.
  intros Hc. pose proof Hc as [Hb Hr Hcoll Hmap Hsize Hsol].
  unfold merge_patterns. rewrite !(deref_similar c1 c2 _ Hc).
  destruct (deref c2 i) as [pi| | |]; simpl; try done.
  destruct (deref c2 j) as [pj| | |]; simpl; try done.
  destruct (compute_projection_similar
              (sort (get_pattern pi ++ get_pattern pj)) _ _ Hr) as [Hp Hr'].
  destruct (@compute_projection H1 _ _ _ _) as [p1 r1'].
  destruct (@compute_projection H2 _ _ _ _) as [p2 r2'].
  simpl in *. subst p2.
  split; simpl; [done|done|by rewrite Hcoll|by rewrite Hmap|by rewrite Hsize|done].
Qed.

Lemma add_variable_to_pattern_similar c1 c2 i v :
  similar c1 c2 →
  same_outcome similar (add_variable_to_pattern opts c1 i v)
               (add_variable_to_pattern opts c2 i v).
Proof using All.
  intros Hc. pose proof Hc as [Hb Hr Hcoll Hmap Hsize Hsol].
  unfold add_variable_to_pattern. rewrite !(deref_similar c1 c2 _ Hc).
  destruct (deref c2 i) as [p| | |]; simpl; try done.
  destruct (compute_projection_similar (sort (get_pattern p ++ [v])) _ _ Hr)
    as [Hp Hr'].
  destruct (@compute_projection H1 _ _ _ _) as [p1 r1'].
  destruct (@compute_projection H2 _ _ _ _) as [p2 r2'].
  simpl in *. subst p2.
  split; simpl; [done|done|by rewrite Hcoll|by rewrite Hmap|by rewrite Hsize|done].
Qed.

Lemma blacklist_similar c1 c2 v :
  similar c1 c2 → similar (blacklist c1 v) (blacklist c2 v).
Proof using All.
  intros [Hb Hr Hcoll Hmap Hsize Hsol].
  unfold blacklist, set_blacklisted_variables.
  split; simpl; [by rewrite Hb|done..].
Qed.

Lemma handle_flaw_similar c1 c2 flaw :
  similar c1 c2 →
  same_outcome similar (handle_flaw opts c1 flaw) (handle_flaw opts c2 flaw).
Proof using All.
  intros Hc. unfold handle_flaw.
  rewrite (similar_map _ _ Hc), (similar_collection _ _ Hc).
  destruct (variable_to_projection c2 !! variable flaw) as [other|].
  - destruct (assert _); simpl; try done.
    destruct (projection_collection c2 !! other) as [slot|]; simpl; [|done].
    destruct (assert _); simpl; try done.
    rewrite (can_merge_patterns_similar c1 c2 _ _ Hc).
    destruct (can_merge_patterns opts c2 _ _) as [[|]| | |]; simpl; try done.
    + by apply merge_patterns_similar.
    + by apply blacklist_similar.
  - rewrite (can_add_variable_to_pattern_similar c1 c2 _ _ Hc).
    destruct (can_add_variable_to_pattern opts c2 _ _) as [[|]| | |];
      simpl; try done.
    + by apply add_variable_to_pattern_similar.
    + by apply blacklist_similar.
Qed.

Lemma refine_similar c1 c2 flaws :
  similar c1 c2 →
  same_outcome similar (refine opts c1 flaws) (refine opts c2 flaws).
Proof using All.
  intros Hc. pose proof Hc as [Hb Hr Hcoll Hmap Hsize Hsol]. unfold refine.
  destruct (assert _); simpl; try done.
  destruct (same_draw answers _ _ (length flaws) Hr) as [Hk Hr'].
  destruct (@rng_draw H1 _ _) as [k1 r1'].
  destruct (@rng_draw H2 _ _) as [k2 r2']. simpl in *. subst k2.
  destruct (flaws !! k1) as [flaw|]; [|done].
  apply handle_flaw_similar. unfold set_rng. by split.
Qed.

Lemma iteration_similar timer poll counter c1 c2 :
  similar c1 c2 →
  same_outcome similar_step (iteration opts timer poll counter c1)
               (iteration opts timer poll counter c2).
Proof using All.
  intros Hc. unfold iteration.
  destruct (termination_conditions_met _ _ _ _); [done|].
  eapply same_outcome_bind; [by apply get_flaws_similar|].
  intros [flaws1 c1'] [flaws2 c2'] [Hflaws Hc']. simpl in Hflaws, Hc'.
  subst flaws2. destruct flaws1 as [|f flaws]; [done|].
  destruct (time_limit_reached _ _); [done|].
  eapply same_outcome_bind; [by apply refine_similar|].
  by intros c1'' c2'' Hc''.
Qed.

Lemma main_loop_similar timer fuel :
  ∀ poll counter c1 c2,
    similar c1 c2 →
    match main_loop opts fuel timer poll counter c1,
          main_loop opts fuel timer poll counter c2 with
    | Some o1, Some o2 => same_outcome similar o1 o2
    | None, None => True
    | _, _ => False
    end.
Proof using All.
  induction fuel as [|fuel IH]; intros poll counter c1 c2 Hc; [done|]. simpl.
  pose proof (iteration_similar timer poll counter c1 c2 Hc) as Hit.
  destruct (iteration opts timer poll counter c1) as [[c1'|c1']| | |],
           (iteration opts timer poll counter c2) as [[c2'|c2']| | |];
    simpl in Hit; try done.
  by apply IH.
Qed.

Lemma collect_similar c1 c2 :
  similar c1 c2 → collect c1 = collect c2.
Proof using All.
  intros Hc. unfold collect, live_projections.
  by rewrite (similar_solution _ _ Hc), (deref_similar c1 c2 _ Hc),
             (similar_collection _ _ Hc).
Qed.

Lemma run_similar fuel clock initial_blacklist r1 r2 :
  R r1 r2 →
  @run H1 opts fuel clock initial_blacklist r1
  = @run H2 opts fuel clock initial_blacklist r2.
Proof using All.
  intros Hr. unfold run, run_from.
  assert (similar (Cegar_new initial_blacklist r1) (Cegar_new initial_blacklist r2))
    as Hnew by (by split).
  pose proof (compute_initial_collection_similar _ _ Hnew) as Hinit.
  destruct (compute_initial_collection opts (Cegar_new initial_blacklist r1))
    as [c1| | |],
    (compute_initial_collection opts (Cegar_new initial_blacklist r2))
    as [c2| | |]; simpl in Hinit; try done; [|by subst].
  unfold run_loop.
  pose proof (main_loop_similar (mkTimer (max_time opts) clock) fuel 0 0%Z
                c1 c2 Hinit) as Hloop.
  destruct (main_loop opts fuel _ 0 0%Z c1) as [o1|],
           (main_loop opts fuel _ 0 0%Z c2) as [o2|]; try done.
  f_equal. apply same_outcome_eq.
  eapply same_outcome_bind; [done|].
  intros c1' c2' Hc'. rewrite (collect_similar _ _ Hc'). apply same_outcome_refl.
Qed.


End determinism_across.

(** ** Flaws and the pattern of the flawed projection *)

Section plan_contract.
Context `{Collaborators} (opts : Options).

(** Two states of the same length agree on the variables of a pattern. *)
Definition agree_on (pattern : Pattern) (s a : State) : Prop :=
  length s = length a ∧ ∀ v, v ∈ pattern → state_value s v = state_value a v.

(** Modelled from the spec: the contract of the plan extractor
    ([steepest_ascent_enforced_hillclimbing], not part of cegar.cc) on the
    plan it returns, in the concrete operator ids the projection stores.
    The plan is a plan of the projection: from the projected initial state
    every step is non-empty, each of its operators is applicable in the
    projection, all of them realize the same abstract transition, and the
    last state satisfies the projected goals. *)
Fixpoint is_abstract_plan (task : AbstractTask) (pattern : Pattern)
    (a : State) (plan : WildcardPlan) : bool :=
  match plan with
  | [] => forallb (holds a) (project_goals pattern task)
  | step :: rest =>
      match step with
      | [] => false
      | op_id :: _ =>
          let a' :=
            get_unregistered_successor a
              (project_operator pattern (operator_at task op_id)) in
          forallb (fun k =>
                     let op := project_operator pattern (operator_at task k) in
                     applicable a op
                     && bool_decide (get_unregistered_successor a op = a'))
                  step
          && is_abstract_plan task pattern a' rest
      end
  end.

(** Every effect of the operator on a pattern variable is conditioned on
    pattern variables only (as is any unconditional effect). *)
Definition conditions_in_pattern (pattern : Pattern) (op : Operator) : bool :=
  forallb (fun e =>
             negb (in_pattern pattern (get_fact e))
             || forallb (in_pattern pattern) (get_conditions e))
          (get_effects op).

(** The hypotheses on a slot under which its plan is replayed: the slots
    still to detect hold plans of their projections over operators whose
    effects on the pattern are determined by the pattern. *)
Definition plans_valid (c : Cegar) : Prop :=
  ∀ i p, projection_collection c !! i = Some (Some p) →
         is_solved p = false → is_unsolvable p = false →
         is_abstract_plan (task opts) (get_pattern p)
           (get_initial_state_values (task opts)) (get_plan p) = true ∧
         ∀ op_id, conditions_in_pattern (get_pattern p)
                    (operator_at (task opts) op_id) = true.

End plan_contract.

Section flaw_variables.
Context `{Collaborators} (opts : Options).
Abbreviation init := (get_initial_state_values (task opts)).

Lemma state_value_lookup (s : list Z) v : state_value s v = default 0%Z (s !! v).
Proof. unfold state_value. apply nth_lookup. Qed.

Lemma state_value_insert_ne (s : list Z) w x v :
  w ≠ v → state_value (<[w := x]> s) v = state_value s v.
Proof. intros Hne. by rewrite !state_value_lookup, list_lookup_insert_ne. Qed.

Lemma agree_on_refl pattern s : agree_on pattern s s.
Proof. by split. Qed.

Lemma agree_on_insert pattern (s a : list Z) w x :
  agree_on pattern s a → agree_on pattern (<[w := x]> s) (<[w := x]> a).
Proof.
  intros [Hlen Hag]. split; [by rewrite !length_insert|].
  intros v Hv. destruct (decide (w = v)) as [->|Hne].
  - rewrite !state_value_lookup.
    destruct (decide (v < length s)) as [Hlt|Hge].
    + by rewrite !list_lookup_insert_eq by lia.
    + rewrite !list_insert_ge by lia. rewrite <- !state_value_lookup. by apply Hag.
  - rewrite !state_value_insert_ne by done. by apply Hag.
Qed.

Lemma agree_on_insert_out pattern (s a : list Z) w x :
  w ∉ pattern → agree_on pattern s a → agree_on pattern (<[w := x]> s) a.
Proof.
  intros Hw [Hlen Hag]. split; [by rewrite length_insert|].
  intros v Hv. rewrite state_value_insert_ne; [by apply Hag|].
  intros ->. done.
Qed.

Lemma holds_agree pattern s a f :
  agree_on pattern s a → var f ∈ pattern → holds s f = holds a f.
Proof. intros [_ Hag] Hf. unfold holds. by rewrite (Hag _ Hf). Qed.

Lemma in_pattern_true pattern f : in_pattern pattern f = true ↔ var f ∈ pattern.
Proof. unfold in_pattern. apply bool_decide_eq_true. Qed.

Lemma does_fire_agree pattern s a e :
  agree_on pattern s a →
  forallb (in_pattern pattern) (get_conditions e) = true →
  does_fire e s = does_fire (project_effect pattern e) a.
Proof.
  intros Hag. unfold does_fire. simpl.
  induction (get_conditions e) as [|f conds IH]; simpl; [done|].
  intros [Hf Hconds]%andb_true_iff. rewrite Hf. simpl.
  rewrite (holds_agree pattern s a f Hag) by (by apply in_pattern_true).
  by rewrite IH.
Qed.

Lemma fold_effects_agree pattern (s a : list Z) effs :
  agree_on pattern s a →
  forallb (fun e =>
             negb (in_pattern pattern (get_fact e))
             || forallb (in_pattern pattern) (get_conditions e)) effs = true →
  ∀ ns na : list Z,
    agree_on pattern ns na →
    agree_on pattern
      (foldl (fun new_values e =>
                if does_fire e s
                then <[var (get_fact e) := value (get_fact e)]> new_values
                else new_values) ns effs)
      (foldl (fun new_values e =>
                if does_fire e a
                then <[var (get_fact e) := value (get_fact e)]> new_values
                else new_values) na
             (map (project_effect pattern)
                  (List.filter (fun e => in_pattern pattern (get_fact e)) effs))).
Proof.
  intros Hag. induction effs as [|e effs IH]; intros Hcond ns na Hacc;
    simpl in *; [done|].
  apply andb_true_iff in Hcond as [He Hcond].
  destruct (in_pattern pattern (get_fact e)) eqn:Hin; simpl in *.
  - rewrite <- (does_fire_agree pattern s a e Hag He).
    apply IH; [done|]. destruct (does_fire e s); [|done].
    by apply agree_on_insert.
  - apply IH; [done|]. destruct (does_fire e s); [|done].
    apply agree_on_insert_out; [|done].
    intros Hv. apply in_pattern_true in Hv. congruence.
Qed.

Lemma successor_agree pattern s a op :
  agree_on pattern s a →
  conditions_in_pattern pattern op = true →
  agree_on pattern (get_unregistered_successor s op)
           (get_unregistered_successor a (project_operator pattern op)).
Proof.
  intros Hag Hcond. unfold get_unregistered_successor. simpl.
  by apply fold_effects_agree.
Qed.

Lemma violated_outside pattern blacklist index (s a : list Z) op :
  agree_on pattern s a →
  applicable a (project_operator pattern op) = true →
  ∀ f, f ∈ violated blacklist index s op →
       collection_index f = index ∧ variable f ∉ pattern.
Proof.
  intros Hag Happ f Hf. unfold violated in Hf.
  apply list_elem_of_In, in_map_iff in Hf as (g & <- & Hg).
  apply filter_In in Hg as [Hg Hviol]. simpl. split; [done|]. intros Hin.
  apply andb_true_iff in Hviol as [_ Hnh]. apply negb_true_iff in Hnh.
  unfold applicable in Happ. simpl in Happ. rewrite forallb_forall in Happ.
  rewrite (holds_agree pattern s a g Hag Hin) in Hnh.
  rewrite Happ in Hnh; [done|].
  apply filter_In. split; [done|]. by apply in_pattern_true.
Qed.

Lemma step_flaws_outside pattern blacklist index (s a : list Z) step :
  agree_on pattern s a →
  (∀ k, In k step →
        applicable a (project_operator pattern (operator_at (task opts) k)) = true) →
  ∀ f, f ∈ step_flaws opts blacklist index s step →
       collection_index f = index ∧ variable f ∉ pattern.
Proof.
  intros Hag Happ f Hf. unfold step_flaws in Hf.
  apply list_elem_of_In, in_concat in Hf as (fl & Hfl & Hf).
  apply in_map_iff in Hfl as (k & <- & Hk).
  eapply violated_outside; [done|by apply Happ|]. by apply list_elem_of_In.
Qed.

(** Replaying a plan of the projection in the concrete task: the values
    of the pattern variables follow the abstract states, so no flaw names a
    pattern variable, and a plan that runs through ends in a state whose
    pattern variables satisfy the projected goals. *)
Lemma apply_steps_outside pattern blacklist index plan :
  (∀ op_id, conditions_in_pattern pattern (operator_at (task opts) op_id) = true) →
  ∀ (s a : list Z),
    agree_on pattern s a →
    is_abstract_plan (task opts) pattern a plan = true →
    ∀ flaws current,
      apply_steps opts blacklist index plan s [] = (flaws, current) →
      (∀ f, f ∈ flaws → collection_index f = index ∧ variable f ∉ pattern) ∧
      (flaws = [] →
       ∃ a', agree_on pattern current a' ∧
             forallb (holds a') (project_goals pattern (task opts)) = true).
Proof.
  intros Hcond. induction plan as [|step rest IH];
    intros s a Hag Hplan flaws current Hrun.
  - simpl in *. simplify_eq. split; [|by eauto].
    intros f Hf. by apply elem_of_nil in Hf.
  - rewrite apply_steps_cons in Hrun. simpl in Hplan.
    destruct step as [|op0 ops]; [done|].
    apply andb_true_iff in Hplan as [Hstep Hrest].
    rewrite forallb_forall in Hstep.
    destruct (first_applicable opts blacklist s (op0 :: ops)) as [k|] eqn:Hfirst.
    + unfold first_applicable in Hfirst. apply find_some in Hfirst as [Hk _].
      pose proof (Hstep k Hk) as [_ Hsame%bool_decide_eq_true]%andb_true_iff.
      eapply IH; [|exact Hrest|exact Hrun].
      rewrite <- Hsame. by apply successor_agree.
    + simplify_eq. split.
      * apply (step_flaws_outside pattern blacklist index current a); [done|].
        intros k Hk. by pose proof (Hstep k Hk) as [? _]%andb_true_iff.
      * intros Hnil. by destruct (step_flaws_nonempty opts blacklist index current
                                    (op0 :: ops)).
Qed.

Lemma goal_flaws_spec blacklist index current :
  goal_flaws opts blacklist index current
  = map (fun g => mkFlaw index (var g))
        (List.filter (fun g => negb (holds current g)
                               && negb (bool_decide (var g ∈ blacklist)))
                     (goals opts)).
Proof.
  unfold goal_flaws.
  assert (∀ gs acc,
            foldl (fun flaws goal =>
                     if negb (holds current goal)
                        && negb (bool_decide (var goal ∈ blacklist))
                     then flaws ++ [mkFlaw index (var goal)] else flaws) acc gs
            = acc ++ map (fun g => mkFlaw index (var g))
                (List.filter (fun g => negb (holds current g)
                                       && negb (bool_decide (var g ∈ blacklist))) gs))
    as Hgen.
  { induction gs as [|g gs IH]; intros acc; simpl; [by rewrite app_nil_r|].
    rewrite IH. destruct (negb (holds current g) && _); [|done].
    simpl. by rewrite <- app_assoc. }
  by rewrite Hgen.
Qed.

Lemma apply_wildcard_plan_outside c i p flaws c' :
  projection_collection c !! i = Some (Some p) →
  is_abstract_plan (task opts) (get_pattern p) init (get_plan p) = true →
  (∀ op_id, conditions_in_pattern (get_pattern p)
              (operator_at (task opts) op_id) = true) →
  (∀ g, g ∈ goals opts → g ∈ get_goals (task opts)) →
  apply_wildcard_plan opts c i init = Returns (flaws, c') →
  ∀ f, f ∈ flaws → collection_index f = i ∧ variable f ∉ get_pattern p.
Proof.
  intros Hp Hplan Hcond Hgoals Hrun. unfold apply_wildcard_plan in Hrun.
  rewrite (proj2 (deref_Returns c i p) Hp) in Hrun. simpl in Hrun.
  destruct (apply_steps opts (blacklisted_variables c) i (get_plan p) init [])
    as [fl current] eqn:Hsteps.
  destruct (apply_steps_outside (get_pattern p) (blacklisted_variables c) i
              (get_plan p) Hcond init init (agree_on_refl _ _) Hplan
              fl current Hsteps) as [Hout Hend].
  destruct fl as [|f0 fl]; [|by simplify_eq].
  destruct (Hend eq_refl) as (a' & Hag & Hgoal).
  assert (∀ f, f ∈ goal_flaws opts (blacklisted_variables c) i current →
               collection_index f = i ∧ variable f ∉ get_pattern p) as Hgf.
  { intros f. rewrite goal_flaws_spec.
    intros (g & <- & Hg)%list_elem_of_In%in_map_iff.
    apply filter_In in Hg as [Hg [Hnh _]%andb_true_iff].
    apply negb_true_iff in Hnh. simpl. split; [done|]. intros Hin.
    rewrite (holds_agree _ _ _ g Hag Hin) in Hnh.
    rewrite forallb_forall in Hgoal. rewrite Hgoal in Hnh; [done|].
    apply filter_In. split; [|by apply in_pattern_true].
    apply list_elem_of_In, Hgoals. by apply list_elem_of_In. }
  destruct (is_goal_state _ _).
  - destruct (bool_decide _); simplify_eq; intros f Hf; by apply elem_of_nil in Hf.
  - destruct (goal_flaws _ _ _ _) as [|g0 gl]; simplify_eq; [|done].
    intros f Hf. by apply elem_of_nil in Hf.
Qed.

(** The flaw is raised against a live slot whose pattern does not hold
    its variable. *)
Definition outside_own_pattern (l : list (option PatternDatabase)) (f : Flaw)
  : Prop :=
  ∃ d, l !! collection_index f = Some (Some d) ∧ variable f ∉ pdb_pattern d.

Lemma plans_valid_step c j q c1 :
  projection_collection c !! j = Some (Some q) →
  c1 = c ∨ c1 = mark_slot_as_solved c j q →
  plans_valid opts c → plans_valid opts c1.
Proof.
  intros Hq [->| ->] Hvalid; [done|]. intros i p Hp Hps Hpu. simpl in Hp.
  destruct (decide (i = j)) as [->|Hne].
  - rewrite list_lookup_insert_eq in Hp by (by eapply lookup_lt_Some).
    by simplify_eq.
  - rewrite list_lookup_insert_ne in Hp by done. by apply (Hvalid i p).
Qed.

Lemma get_flaws_loop_outside indices :
  (∀ g, g ∈ goals opts → g ∈ get_goals (task opts)) →
  ∀ flaws c fl c1,
    plans_valid opts c →
    (∀ f, f ∈ flaws → outside_own_pattern (pdbs_of c) f) →
    get_flaws_loop opts indices flaws c = Returns (fl, c1) →
    ∀ f, f ∈ fl → outside_own_pattern (pdbs_of c) f.
Proof.
  intros Hgoals. induction indices as [|j indices IH];
    intros flaws c fl c1 Hvalid Hflaws Hrun.
  - simpl in Hrun. by simplify_eq.
  - rewrite get_flaws_loop_cons in Hrun.
    destruct (projection_collection c !! j) as [[q|]|] eqn:Hq; [|by eapply IH..].
    destruct (is_solved q) eqn:Hqs; [by eapply IH|].
    destruct (is_unsolvable q) eqn:Hqu; [done|].
    destruct (Hvalid j q Hq Hqs Hqu) as [Hplan Hcond].
    destruct (apply_wildcard_plan_cases opts c j q init Hq)
      as [(_ & _ & Hcall)|(_ & nf & c' & Hcall & Hc')];
      rewrite Hcall in Hrun; simpl in Hrun.
    + rewrite bool_decide_eq_false_2 in Hrun by lia. simpl in Hrun.
      destruct (bool_decide _); simpl in Hrun; [|done].
      destruct (bool_decide _); simpl in Hrun; [|done].
      simplify_eq. intros f Hf. by apply elem_of_nil in Hf.
    + pose proof (apply_wildcard_plan_outside c j q nf c' Hq Hplan Hcond Hgoals Hcall)
        as Hnf.
      assert (pdbs_of c' = pdbs_of c) as Hpdbs.
      { apply marked_pdbs_of.
        destruct Hc' as [->|[_ ->]]; [apply marked_refl|by apply marked_mark_slot]. }
      destruct (bool_decide (concrete_solution_index c' = -1)%Z); simpl in Hrun.
      * rewrite <- Hpdbs. eapply IH; [| |exact Hrun].
        -- eapply plans_valid_step; [done| |done]. by destruct Hc' as [->|[_ ->]]; eauto.
        -- rewrite Hpdbs. intros f [Hf|Hf]%elem_of_app; [by apply Hflaws|].
           destruct (Hnf f Hf) as [Hi Hv]. exists (get_pdb q).
           rewrite Hi. split; [by apply pdbs_of_lookup|done].
      * destruct (bool_decide _); simpl in Hrun; [|done].
        destruct (bool_decide _); simpl in Hrun; [|done].
        destruct (bool_decide _); simpl in Hrun; [|done].
        simplify_eq. intros f Hf. by apply elem_of_nil in Hf.
Qed.

Lemma can_merge_patterns_no_assert (c : Cegar) i j :
  can_merge_patterns opts c i j ≠ AssertionFailed.
Proof.
  unfold can_merge_patterns, deref.
  destruct (projection_collection c !! i) as [[?|]|]; simpl; try done.
  destruct (projection_collection c !! j) as [[?|]|]; simpl; try done.
  by destruct (negb _).
Qed.

Lemma merge_patterns_no_assert (c : Cegar) i j :
  merge_patterns opts c i j ≠ AssertionFailed.
Proof.
  unfold merge_patterns, deref.
  destruct (projection_collection c !! i) as [[?|]|]; simpl; try done.
  destruct (projection_collection c !! j) as [[?|]|]; simpl; try done.
  by destruct (compute_projection _ _ _ _).
Qed.

Lemma can_add_variable_to_pattern_no_assert (c : Cegar) i v :
  can_add_variable_to_pattern opts c i v ≠ AssertionFailed.
Proof.
  unfold can_add_variable_to_pattern, deref.
  destruct (projection_collection c !! i) as [[?|]|]; simpl; try done.
  by destruct (negb _).
Qed.

Lemma add_variable_to_pattern_no_assert (c : Cegar) i v :
  add_variable_to_pattern opts c i v ≠ AssertionFailed.
Proof.
  unfold add_variable_to_pattern, deref.
  destruct (projection_collection c !! i) as [[?|]|]; simpl; try done.
  by destruct (compute_projection _ _ _ _).
Qed.

(** The flaws of one detection, for an object with a sound variable map
    whose slots hold plans of their projections. *)
Lemma flaws_outside_own_pattern (c : Cegar) flaws c' :
  map_sound c →
  plans_valid opts c →
  (∀ g, g ∈ goals opts → g ∈ get_goals (task opts)) →
  get_flaws opts c = Returns (flaws, c') →
  ∀ f, f ∈ flaws →
    (∃ p, projection_collection c' !! collection_index f = Some (Some p) ∧
          variable f ∉ get_pattern p) ∧
    variable_to_projection c' !! variable f ≠ Some (collection_index f) ∧
    (∀ r, handle_flaw opts (set_rng c' r) f ≠ AssertionFailed).
Proof.
  intros Hmap Hvalid Hgoals Hget f Hf.
  assert (outside_own_pattern (pdbs_of c) f) as (d & Hd & Hout).
  { eapply (get_flaws_loop_outside _ Hgoals [] c); [done| |exact Hget|done].
    intros f' Hf'. by apply elem_of_nil in Hf'. }
  assert (pdbs_of c' = pdbs_of c ∧
          variable_to_projection c' = variable_to_projection c) as [Hpdbs Hvtp].
  { apply get_flaws_loop_frame in Hget as (c2 & Hm & [->|(_ & z & ->)]);
      by rewrite <- (marked_pdbs_of _ _ Hm), <- (marked_map _ _ Hm). }
  apply map_sound_alt in Hmap. unfold map_sound_on in Hmap. rename Hmap into Ha.
  rewrite <- Hpdbs in Hd, Ha. rewrite <- Hvtp in Ha.
  assert (variable_to_projection c' !! variable f ≠ Some (collection_index f))
    as Hother.
  { intros Hv. destruct (Ha _ _ Hv) as (d' & Hd' & Hin). congruence. }
  split; [|split; [done|]].
  - apply pdbs_of_lookup_inv in Hd as (p & Hp & <-). eauto.
  - intros r. unfold handle_flaw. simpl.
    destruct (variable_to_projection c' !! variable f) as [j|] eqn:Hv.
    + rewrite bool_decide_eq_false_2 by congruence. simpl.
      destruct (Ha _ _ Hv) as (d' & Hd' & _).
      apply pdbs_of_lookup_inv in Hd' as (q & -> & _). simpl.
      pose proof (can_merge_patterns_no_assert (set_rng c' r) (collection_index f) j).
      pose proof (merge_patterns_no_assert (set_rng c' r) (collection_index f) j).
      destruct (can_merge_patterns _ _ _ _) as [[]| | |]; simpl; done.
    + pose proof (can_add_variable_to_pattern_no_assert (set_rng c' r)
                    (collection_index f) (variable f)).
      pose proof (add_variable_to_pattern_no_assert (set_rng c' r)
                    (collection_index f) (variable f)).
      destruct (can_add_variable_to_pattern _ _ _ _) as [[]| | |]; simpl; done.
Qed.

End flaw_variables.

(** ** Flaws in a run, under the contract of the plan extractor *)

Section extractor_contract.
Context `{Collaborators} (opts : Options).

(** Modelled from the spec: what the plan extractor owes on every call.
    For a pattern whose projection is solvable, the plan stored in the
    projection built by [compute_projection] is a plan of that
    projection. *)
Definition extractor_contract : Prop :=
  ∀ pattern r,
    is_unsolvable
      (compute_projection (task opts) pattern r (wildcard_plans opts)).1 = false →
    is_abstract_plan (task opts) pattern (get_initial_state_values (task opts))
      (get_plan (compute_projection (task opts) pattern r (wildcard_plans opts)).1)
    = true.

Definition no_conditional_effects (task : AbstractTask) : bool :=
  forallb (fun op =>
             forallb (fun e => bool_decide (get_conditions e = [])) (get_effects op))
          (get_operators task).

(** Every solvable slot holds a plan of its projection. *)
Definition plans_hold (c : Cegar) : Prop :=
  ∀ i p, projection_collection c !! i = Some (Some p) →
         is_unsolvable p = false →
         is_abstract_plan (task opts) (get_pattern p)
           (get_initial_state_values (task opts)) (get_plan p) = true.

End extractor_contract.

Section flaws_in_a_run.
Context `{Collaborators} (opts : Options).

Lemma no_conditional_effects_in_pattern pattern op_id :
  no_conditional_effects (task opts) = true →
  conditions_in_pattern pattern (operator_at (task opts) op_id) = true.
Proof.
  unfold no_conditional_effects, conditions_in_pattern, operator_at.
  rewrite forallb_forall. intros Hall.
  destruct (nth_in_or_default op_id (get_operators (task opts)) no_operator)
    as [Hin| ->]; [|done].
  specialize (Hall _ Hin). rewrite forallb_forall in Hall.
  apply forallb_forall. intros e He.
  apply Hall, bool_decide_eq_true in He. rewrite He. simpl. apply orb_true_r.
Qed.

Lemma plans_hold_valid c :
  no_conditional_effects (task opts) = true →
  plans_hold opts c → plans_valid opts c.
Proof.
  intros Hnce Hhold i p Hp _ Hpu. split; [by eapply Hhold|].
  intros op_id. by apply no_conditional_effects_in_pattern.
Qed.

Lemma compute_projection_pattern t pattern r w :
  get_pattern (compute_projection t pattern r w).1 = pattern.
Proof. unfold get_pattern. by rewrite compute_projection_pdb. Qed.

Lemma merge_patterns_collection c i j c' :
  merge_patterns opts c i j = Returns c' →
  ∃ pattern r,
    projection_collection c'
    = <[j := None]>
        (<[i := Some (compute_projection (task opts) pattern r
                        (wildcard_plans opts)).1]> (projection_collection c)).
Proof.
  unfold merge_patterns. intros Hrun.
  apply bind_Returns in Hrun as (pi & _ & Hrun).
  apply bind_Returns in Hrun as (pj & _ & Hrun).
  exists (sort (get_pattern pi ++ get_pattern pj)), (rng c).
  destruct (compute_projection _ _ _ _) as [merged r]. by simplify_eq.
Qed.

Lemma add_variable_to_pattern_collection c i v c' :
  add_variable_to_pattern opts c i v = Returns c' →
  ∃ pattern r,
    projection_collection c'
    = <[i := Some (compute_projection (task opts) pattern r
                     (wildcard_plans opts)).1]> (projection_collection c).
Proof.
  unfold add_variable_to_pattern. intros Hrun.
  apply bind_Returns in Hrun as (p & _ & Hrun).
  exists (sort (get_pattern p ++ [v])), (rng c).
  destruct (compute_projection _ _ _ _) as [new r]. by simplify_eq.
Qed.

Lemma plans_hold_insert c i pattern r l :
  extractor_contract opts →
  plans_hold opts c →
  l = <[i := Some (compute_projection (task opts) pattern r (wildcard_plans opts)).1]>
        (projection_collection c) →
  ∀ k p, l !! k = Some (Some p) → is_unsolvable p = false →
         is_abstract_plan (task opts) (get_pattern p)
           (get_initial_state_values (task opts)) (get_plan p) = true.
Proof.
  intros Hcontract Hhold -> k p Hp Hpu.
  destruct (decide (k = i)) as [->|Hne].
  - apply list_lookup_insert_Some in Hp as [(_ & Hp & _)|[? _]]; [|done].
    simplify_eq. rewrite compute_projection_pattern. by apply Hcontract.
  - rewrite list_lookup_insert_ne in Hp by done. by eapply Hhold.
Qed.

Lemma plans_hold_stable : extractor_contract opts → Stable opts (plans_hold opts).
Proof.
  intros Hcontract. split.
  - intros c c' [_ _ _ _ _ Hslots] Hhold i p' Hp' Hpu.
    destruct (Forall2_lookup_r _ _ _ _ _ Hslots Hp') as (o & Ho & Hm).
    destruct Hm as [?|(p & -> & ?)]; simplify_eq; [by eapply Hhold|].
    by apply (Hhold i p).
  - done.
  - done.
  - done.
  - intros c i j c' _ Hrun Hhold k p Hp Hpu.
    apply merge_patterns_collection in Hrun as (pattern & r & Hcoll).
    rewrite Hcoll in Hp.
    destruct (decide (k = j)) as [->|Hne].
    + apply list_lookup_insert_Some in Hp as [(_ & ? & _)|[? _]]; done.
    + rewrite list_lookup_insert_ne in Hp by done.
      exact (plans_hold_insert c i pattern r _ Hcontract Hhold eq_refl k p Hp Hpu).
  - intros c i v c' _ Hrun Hhold k p Hp Hpu.
    apply add_variable_to_pattern_collection in Hrun as (pattern & r & Hcoll).
    rewrite Hcoll in Hp.
    exact (plans_hold_insert c i pattern r _ Hcontract Hhold eq_refl k p Hp Hpu).
Qed.

Lemma reachable_plans_hold initial_blacklist r c :
  extractor_contract opts →
  reachable opts initial_blacklist r c → plans_hold opts c.
Proof.
  intros Hcontract Hc.
  eapply reachable_stable; [by apply plans_hold_stable| |done].
  intros c0 ->%compute_initial_collection_Returns.
  assert (∀ gs c1, plans_hold opts c1 →
            plans_hold opts (foldl (fun c goal => add_pattern_for_var opts c (var goal))
                                   c1 gs)) as Hfold.
  { induction gs as [|g gs IH]; intros c1 Hc1; simpl; [done|].
    apply IH. intros k p Hp Hpu.
    destruct (add_pattern_for_var_spec opts c1 (var g)) as (Hcoll & _).
    rewrite Hcoll in Hp. apply lookup_app_Some in Hp as [Hp|[_ Hp]].
    - by eapply Hc1.
    - apply list_lookup_singleton_Some in Hp as [_ Hp]. simplify_eq.
      rewrite compute_projection_pattern. by apply Hcontract. }
  apply Hfold. intros k p Hp. simpl in Hp. by rewrite lookup_nil in Hp.
Qed.


End flaws_in_a_run.

(** ** An unsolvable projection and the concrete task *)

Section unsolvable_projection.
Context `{Collaborators} (opts : Options).

(** Running concrete operator ids in the projection onto a pattern. *)
Fixpoint abstract_path (task : AbstractTask) (pattern : Pattern) (s : State)
    (path : list nat) : option State :=
  match path with
  | [] => Some s
  | op_id :: rest =>
      let op := project_operator pattern (operator_at task op_id) in
      if applicable s op
      then abstract_path task pattern (get_unregistered_successor s op) rest
      else None
  end.

(** Modelled from the spec: an infinite PDB value at the projected initial
    state ([get_value_abstracted], not part of cegar.cc, "returns infinity
    iff unreachable") means that no path of the projection onto the goal
    variable leads from the initial state to the goal value. *)
Definition unreachable_in_projection (task : AbstractTask) (g : FactPair) : Prop :=
  ∀ path a,
    abstract_path task [var g] (get_initial_state_values task) path = Some a →
    holds a g = false.

End unsolvable_projection.

Section unsolvable_exit.
Context `{Collaborators} (opts : Options).
Abbreviation init := (get_initial_state_values (task opts)).

Lemma applicable_ignoring_empty s op :
  applicable_ignoring ∅ s op = applicable s op.
Proof.
  unfold applicable_ignoring, applicable.
  induction (get_preconditions op) as [|f pre IH]; simpl; [done|].
  rewrite IH. by rewrite bool_decide_eq_false_2 by set_solver.
Qed.

Lemma applicable_projected pattern (s a : list Z) op :
  agree_on pattern s a →
  applicable s op = true →
  applicable a (project_operator pattern op) = true.
Proof.
  intros Hag. unfold applicable. simpl. rewrite !forallb_forall.
  intros Hall f [Hf Hin%in_pattern_true]%filter_In.
  rewrite <- (holds_agree pattern s a f Hag Hin). by apply Hall.
Qed.

(** Without blacklisted variables, the state in which plan execution
    stops without a flaw is reached by a path of every projection. *)
Lemma apply_steps_abstract_path pattern index plan :
  (∀ op_id, conditions_in_pattern pattern (operator_at (task opts) op_id) = true) →
  ∀ (s a : list Z) current,
    agree_on pattern s a →
    apply_steps opts ∅ index plan s [] = ([], current) →
    ∃ path a',
      abstract_path (task opts) pattern a path = Some a' ∧
      agree_on pattern current a'.
Proof.
  intros Hcond. induction plan as [|step rest IH]; intros s a current Hag Hrun.
  - simpl in Hrun. simplify_eq. by exists [], a.
  - rewrite apply_steps_cons in Hrun.
    destruct (first_applicable opts ∅ s step) as [k|] eqn:Hfirst.
    + unfold first_applicable in Hfirst. apply find_some in Hfirst as [_ Happ].
      rewrite applicable_ignoring_empty in Happ.
      destruct (IH (get_unregistered_successor s (operator_at (task opts) k))
                  (get_unregistered_successor a
                     (project_operator pattern (operator_at (task opts) k)))
                  current) as (path & a' & Hpath & Hag').
      * by apply successor_agree.
      * done.
      * exists (k :: path), a'. split; [|done]. simpl.
        by rewrite (applicable_projected pattern s a _ Hag Happ).
    + simplify_eq. by exists [], a.
Qed.


End unsolvable_exit.

(** ** The reference plan extractor honours the contract *)

Module ReferenceContract.
Import Reference.

(** Running a path of abstract operator ids in the projection. *)
Fixpoint run_path (task : AbstractTask) (pattern : Pattern) (s : State)
    (path : list nat) : option State :=
  match path with
  | [] => Some s
  | k :: rest =>
      let op := abstract_operator task pattern k in
      if applicable s op && bool_decide (k ∈ abstract_ids task pattern)
      then run_path task pattern (get_unregistered_successor s op) rest
      else None
  end.

Definition reached (task : AbstractTask) (pattern : Pattern)
    (entry : State * list nat) : Prop :=
  run_path task pattern (get_initial_state_values task) (rev entry.2) = Some entry.1.

Lemma run_path_snoc task pattern s path k s' :
  run_path task pattern s path = Some s' →
  applicable s' (abstract_operator task pattern k) = true →
  k ∈ abstract_ids task pattern →
  run_path task pattern s (path ++ [k])
  = Some (get_unregistered_successor s' (abstract_operator task pattern k)).
Proof.
  revert s. induction path as [|j path IH]; intros s Hrun Happ Hk; simpl in *.
  - simplify_eq. by rewrite Happ, bool_decide_eq_true_2.
  - destruct (applicable s _ && _); [|done]. by apply IH.
Qed.

Lemma expand_one_reached task pattern s path :
  reached task pattern (s, path) →
  ∀ ids, (∀ k, k ∈ ids → k ∈ abstract_ids task pattern) →
    ∀ visited acc visited' next,
      Forall (reached task pattern) acc →
      foldl (fun '(visited, next) abs_id =>
               let op := abstract_operator task pattern abs_id in
               let s' := get_unregistered_successor s op in
               if applicable s op && negb (bool_decide (s' ∈ visited))
               then (s' :: visited, next ++ [(s', abs_id :: path)])
               else (visited, next))
            (visited, acc) ids = (visited', next) →
      Forall (reached task pattern) next.
Proof.
  intros Hs. induction ids as [|k ids IH];
    intros Hids visited acc visited' next Hacc Hfold; simpl in Hfold.
  - by simplify_eq.
  - assert (∀ k', k' ∈ ids → k' ∈ abstract_ids task pattern) as Hids'.
    { intros k' Hk'. apply Hids. by right. }
    destruct (applicable s _) eqn:Happ; simpl in Hfold;
      [|by eapply (IH Hids')].
    destruct (negb _); simpl in Hfold; [|by eapply (IH Hids')].
    eapply (IH Hids'); [|exact Hfold].
    apply Forall_app. split; [done|]. constructor; [|constructor].
    unfold reached in *. simpl in *.
    apply run_path_snoc; [done..|]. apply Hids. by left.
Qed.

Lemma expand_fold_reached task pattern frontier :
  Forall (reached task pattern) frontier →
  ∀ visited acc visited' next,
    Forall (reached task pattern) acc →
    foldl (fun '(visited, next) '(s, path) =>
             foldl (fun '(visited, next) abs_id =>
                      let op := abstract_operator task pattern abs_id in
                      let s' := get_unregistered_successor s op in
                      if applicable s op && negb (bool_decide (s' ∈ visited))
                      then (s' :: visited, next ++ [(s', abs_id :: path)])
                      else (visited, next))
                   (visited, next) (abstract_ids task pattern))
          (visited, acc) frontier = (visited', next) →
    Forall (reached task pattern) next.
Proof.
  induction 1 as [|[s path] frontier Hs _ IH];
    intros visited acc visited' next Hacc Hrun; simpl in Hrun.
  - by simplify_eq.
  - destruct (foldl _ (visited, acc) (abstract_ids task pattern))
      as [visited1 acc1] eqn:Hinner.
    eapply IH; [|exact Hrun].
    by eapply (expand_one_reached task pattern s path Hs
                 (abstract_ids task pattern)).
Qed.

Lemma expand_reached task pattern visited frontier visited' next :
  Forall (reached task pattern) frontier →
  expand task pattern visited frontier = (visited', next) →
  Forall (reached task pattern) next.
Proof.
  intros Hfrontier Hrun. unfold expand in Hrun.
  eapply expand_fold_reached; [done| |exact Hrun]. constructor.
Qed.

Lemma search_reached fuel task pattern :
  ∀ visited frontier path,
    Forall (reached task pattern) frontier →
    search fuel task pattern visited frontier = Some path →
    ∃ s, run_path task pattern (get_initial_state_values task) path = Some s ∧
         is_abstract_goal task pattern s = true.
Proof.
  induction fuel as [|fuel IH]; intros visited frontier path Hfrontier Hrun;
    simpl in Hrun.
  - destruct (List.find _ frontier) as [[s p]|] eqn:Hfind; [|done].
    simplify_eq. apply find_some in Hfind as [Hin Hgoal].
    exists s. split; [|done].
    rewrite Forall_forall in Hfrontier.
    by apply (Hfrontier (s, p)), list_elem_of_In.
  - destruct (List.find _ frontier) as [[s p]|] eqn:Hfind.
    + simplify_eq. apply find_some in Hfind as [Hin Hgoal].
      exists s. split; [|done].
      rewrite Forall_forall in Hfrontier.
      by apply (Hfrontier (s, p)), list_elem_of_In.
    + destruct frontier as [|entry frontier]; [done|].
      destruct (expand task pattern visited (entry :: frontier))
        as [visited' next] eqn:Hexpand.
      eapply IH; [|exact Hrun]. by eapply expand_reached.
Qed.

Lemma forallb_map {A B} (f : B → bool) (g : A → B) l :
  forallb f (map g l) = forallb (fun x => f (g x)) l.
Proof. induction l as [|x l IH]; simpl; [done|]. by rewrite IH. Qed.

Lemma wildcard_steps_plan task pattern wildcard :
  ∀ path s s_end,
    run_path task pattern s path = Some s_end →
    is_abstract_goal task pattern s_end = true →
    is_abstract_plan task pattern s
      (map (map (ancestor task pattern))
           (wildcard_steps task pattern wildcard s path)) = true.
Proof.
  induction path as [|k path IH]; intros s s_end Hrun Hgoal; simpl in *.
  - by simplify_eq.
  - destruct (applicable s (abstract_operator task pattern k)) eqn:Happ;
      simpl in Hrun; [|done].
    case_bool_decide as Hk; [|done]. simpl in Hrun.
    set (s' := get_unregistered_successor s (abstract_operator task pattern k)) in *.
    pose proof (IH s' s_end Hrun Hgoal) as Hrest.
    destruct wildcard.
    + set (step := List.filter _ (abstract_ids task pattern)).
      assert (∀ j, In j step →
                applicable s (abstract_operator task pattern j) = true ∧
                get_unregistered_successor s (abstract_operator task pattern j) = s')
        as Hstep.
      { intros j [_ [? ?%bool_decide_eq_true]%andb_true_iff]%filter_In. done. }
      assert (In k step) as Hin.
      { apply filter_In. split; [by apply list_elem_of_In|].
        by rewrite Happ, bool_decide_eq_true_2. }
      destruct step as [|k0 step0] eqn:Hstep0; [done|]. simpl.
      fold (abstract_operator task pattern k0).
      destruct (Hstep k0 ltac:(by left)) as [Happ0 Hsucc0].
      rewrite Happ0, Hsucc0. rewrite (bool_decide_eq_true_2 (s' = s')) by done. simpl.
      rewrite Hrest, andb_true_r. rewrite forallb_map.
      apply forallb_forall. intros j Hj.
      fold (abstract_operator task pattern j).
      destruct (Hstep j ltac:(by right)) as [-> ->].
      by rewrite bool_decide_eq_true_2.
    + simpl. fold (abstract_operator task pattern k). fold s'.
      by rewrite Happ, bool_decide_eq_true_2, Hrest.
Qed.

Lemma extractor_contract_holds (opts : Options) :
  @extractor_contract collaborators opts.
Proof.
  intros pattern r. unfold compute_projection. simpl.
  unfold initial_distance, plan_extractor.
  destruct (abstract_plan (task opts) pattern) as [path|] eqn:Hplan; simpl.
  - case_bool_decide; simpl; [done|]. intros _.
    unfold abstract_plan in Hplan.
    apply search_reached in Hplan as (s & Hrun & Hgoal).
    + by eapply wildcard_steps_plan.
    + constructor; [done|constructor].
  - done.
Qed.

End ReferenceContract.

(** ** Checking the plan contract on a concrete object *)

Section plan_contract_check.
Context `{Collaborators} (opts : Options).

Definition check_plans (c : Cegar) : bool :=
  forallb (fun o =>
             match o with
             | Some p =>
                 is_solved p || is_unsolvable p
                 || (is_abstract_plan (task opts) (get_pattern p)
                       (get_initial_state_values (task opts)) (get_plan p)
                     && forallb (conditions_in_pattern (get_pattern p))
                          (get_operators (task opts)))
             | None => true
             end)
          (projection_collection c).

Lemma check_plans_sound c : check_plans c = true → plans_valid opts c.
Proof.
  unfold check_plans. rewrite forallb_forall. intros Hall i p Hp Hps Hpu.
  specialize (Hall (Some p)). simpl in Hall. rewrite Hps, Hpu in Hall. simpl in Hall.
  apply andb_true_iff in Hall as [Hplan Hops].
  - split; [done|]. intros op_id. unfold operator_at.
    destruct (nth_in_or_default op_id (get_operators (task opts)) no_operator)
      as [Hin| ->]; [|done].
    rewrite forallb_forall in Hops. by apply Hops.
  - apply list_elem_of_In. by eapply list_elem_of_lookup_2.
Qed.

End plan_contract_check.

(** * Further properties of the code *)

(** ** Successor states *)

Section successor.
Context `{Collaborators} (opts : Options).

Lemma fold_effects_length (s : list Z) effs :
  ∀ ns : list Z,
    length (foldl (fun new_values e =>
                     if does_fire e s
                     then <[var (get_fact e) := value (get_fact e)]> new_values
                     else new_values) ns effs) = length ns.
Proof.
  induction effs as [|e effs IH]; intros ns; simpl; [done|].
  rewrite IH. destruct (does_fire e s); [|done]. by rewrite length_insert.
Qed.

Lemma fold_effects_frame (s : list Z) effs v :
  (∀ e, e ∈ effs → does_fire e s = true → var (get_fact e) ≠ v) →
  ∀ ns : list Z,
    state_value (foldl (fun new_values e =>
                          if does_fire e s
                          then <[var (get_fact e) := value (get_fact e)]> new_values
                          else new_values) ns effs) v
    = state_value ns v.
Proof.
  induction effs as [|e effs IH]; intros Hno ns; simpl; [done|].
  rewrite IH by (intros e' He'; apply Hno; by right).
  destruct (does_fire e s) eqn:Hfire; [|done].
  apply state_value_insert_ne. apply Hno; [by left|done].
Qed.

Lemma state_value_insert_eq (s : list Z) w x :
  w < length s → state_value (<[w := x]> s) w = x.
Proof. intros Hlt. by rewrite state_value_lookup, list_lookup_insert_eq. Qed.

(** X1. [get_unregistered_successor] keeps the number of values; a
    variable that no firing effect of the operator writes keeps its value;
    and a variable of the state written by a firing effect takes the value
    of the last such effect, every effect being tested against the state
    the operator is applied in.  The preconditions play no part. *)
Theorem X1_successor_effects (s : list Z) op :
  length (get_unregistered_successor s op) = length s ∧
  (∀ v, (∀ e, e ∈ get_effects op → does_fire e s = true → var (get_fact e) ≠ v) →
        state_value (get_unregistered_successor s op) v = state_value s v) ∧
  (∀ before e after,
     get_effects op = before ++ e :: after →
     does_fire e s = true →
     var (get_fact e) < length s →
     (∀ e', e' ∈ after → does_fire e' s = true →
            var (get_fact e') ≠ var (get_fact e)) →
     state_value (get_unregistered_successor s op) (var (get_fact e))
     = value (get_fact e)) ∧
  (∀ pre, get_unregistered_successor s (mkOperator pre (get_effects op))
          = get_unregistered_successor s op).
Proof.
  unfold get_unregistered_successor. split; [apply fold_effects_length|].
  split; [intros v Hno; by apply fold_effects_frame|]. split; [|done].
  intros before e after Heffs Hfire Hlt Hlast.
  rewrite Heffs, foldl_app. simpl. rewrite Hfire.
  rewrite fold_effects_frame by done.
  apply state_value_insert_eq. by rewrite fold_effects_length.
Qed.

End successor.

(** ** An empty step in a plan *)

Section empty_step.
Context `{Collaborators} (opts : Options).

(** X2. A step without operators ends plan execution without a flaw:
    [step_failed] keeps its initial value, so the steps after it are never
    applied and the execution ends in the state before the step, as if the
    plan had ended there.  With an empty blacklist and that state a goal
    state, [apply_wildcard_plan] records the slot as a concrete solution. *)
Theorem X2_empty_step_ends_execution :
  (∀ blacklist index done later init s,
     after_steps opts blacklist done init = Some s →
     apply_steps opts blacklist index (done ++ [] :: later) init [] = ([], s) ∧
     apply_steps opts blacklist index done init [] = ([], s)) ∧
  (∀ (c : Cegar) index p done later init s,
     deref c index = Returns p →
     get_plan p = done ++ [] :: later →
     after_steps opts (blacklisted_variables c) done init = Some s →
     is_goal_state (task opts) s = true →
     blacklisted_variables c = ∅ →
     apply_wildcard_plan opts c index init
     = Returns ([], set_concrete_solution_index c (Z.of_nat index))).
Proof.
  assert (∀ blacklist index done later init s,
     after_steps opts blacklist done init = Some s →
     apply_steps opts blacklist index (done ++ [] :: later) init [] = ([], s) ∧
     apply_steps opts blacklist index done init [] = ([], s)) as Hsteps.
  { intros blacklist index done later init s Hdone. split.
    - by rewrite (apply_steps_app _ _ _ _ _ _ _ Hdone).
    - rewrite <- (app_nil_r done).
      by rewrite (apply_steps_app _ _ _ _ _ _ _ Hdone). }
  split; [done|].
  intros c index p done later init s Hp Hplan Hdone Hgoal Hempty.
  unfold apply_wildcard_plan. rewrite Hp; simpl.
  rewrite Hplan, (proj1 (Hsteps _ index _ later _ _ Hdone)).
  rewrite Hgoal. by rewrite (bool_decide_eq_true_2 _ Hempty).
Qed.

End empty_step.

(** ** A flaw on a variable outside the collection *)

Section extending.
Context `{Collaborators} (opts : Options).

(** The collection size after the extension as the code computes it. *)
Definition extended_collection_size (c : Cegar) (s d : Z) : Z :=
  Int.add (collection_size c) (Int.sub (Int.mul s d) s).

Lemma extended_collection_size_exact c s d :
  Int.in_range (collection_size c + (s * d - s)) →
  extended_collection_size c s d = (collection_size c + (s * d - s))%Z.
Proof.
  intros Hrange. unfold extended_collection_size, Int.add, Int.sub, Int.mul.
  rewrite wrap_sub_l, wrap_add_r. by apply wrap_in_range.
Qed.

(** X3. The chosen flaw is [(i, v)] and [v] is in no pattern of the
    collection.  The variable is added to the pattern of slot [i] exactly
    when the PDB size of the slot times the domain size of [v] is within
    [max_pdb_size] and the collection size after the extension,
    [collection_size + (s * d - s)] in [int] arithmetic (the exact value
    whenever that is representable), is within [max_collection_size]: the
    slot then holds the projection onto the sorted extended pattern and
    [v] is mapped to [i].  Otherwise [v] joins the blacklist and the
    collection, the variable map and [collection_size] stay as they are. *)
Theorem X3_add_or_blacklist (c : Cegar) i v p :
  variable_to_projection c !! v = None →
  projection_collection c !! i = Some (Some p) →
  (0 ≤ get_size (get_pdb p))%Z →
  (0 ≤ get_domain_size (task opts) v)%Z →
  (0 ≤ max_pdb_size opts)%Z →
  let s := get_size (get_pdb p) in
  let d := get_domain_size (task opts) v in
  let allowed :=
    (s * d ≤ max_pdb_size opts)%Z ∧
    (extended_collection_size c s d ≤ max_collection_size opts)%Z in
  (allowed →
   ∃ c' extended,
     handle_flaw opts c (mkFlaw i v) = Returns c' ∧
     add_variable_to_pattern opts c i v = Returns c' ∧
     projection_collection c' = <[i := Some extended]> (projection_collection c) ∧
     get_pattern extended = sort (get_pattern p ++ [v]) ∧
     variable_to_projection c' = <[v := i]> (variable_to_projection c) ∧
     blacklisted_variables c' = blacklisted_variables c) ∧
  (¬ allowed →
   handle_flaw opts c (mkFlaw i v) = Returns (blacklist c v) ∧
   v ∈ blacklisted_variables (blacklist c v) ∧
   projection_collection (blacklist c v) = projection_collection c ∧
   variable_to_projection (blacklist c v) = variable_to_projection c ∧
   collection_size (blacklist c v) = collection_size c) ∧
  (Int.in_range (collection_size c + (s * d - s)) →
   extended_collection_size c s d = (collection_size c + (s * d - s))%Z).
Proof.
  intros Hv Hp Hs Hd Hmax s d allowed.
  assert (handle_flaw opts c (mkFlaw i v) =
          if is_product_within_limit s d (max_pdb_size opts)
             && bool_decide (extended_collection_size c s d ≤ max_collection_size opts)%Z
          then add_variable_to_pattern opts c i v else Returns (blacklist c v))
    as Hhandle.
  { unfold handle_flaw. simpl. rewrite Hv.
    unfold can_add_variable_to_pattern.
    rewrite (proj2 (deref_Returns c i p) Hp). simpl.
    fold s d. destruct (is_product_within_limit s d _); simpl; [|done].
    unfold extended_collection_size. by destruct (bool_decide _). }
  assert (is_product_within_limit s d (max_pdb_size opts)
          && bool_decide (extended_collection_size c s d ≤ max_collection_size opts)%Z
          = true ↔ allowed) as Hallowed.
  { rewrite andb_true_iff, bool_decide_eq_true.
    by rewrite is_product_within_limit_spec. }
  split; [|split].
  - intros Hok. rewrite (proj2 Hallowed Hok) in Hhandle.
    pose proof (compute_projection_pdb (task opts)
                  (sort (get_pattern p ++ [v])) (rng c)
                  (wildcard_plans opts)) as Hpdb.
    unfold add_variable_to_pattern in *.
    rewrite (proj2 (deref_Returns c i p) Hp) in *. simpl in *.
    destruct (compute_projection _ _ _ _) as [extended r']. simpl in Hpdb.
    eexists _, extended. split; [done|]. split; [done|]. simpl.
    split; [done|]. split; [|done].
    unfold get_pattern at 1. by rewrite Hpdb.
  - intros Hno.
    assert (is_product_within_limit s d (max_pdb_size opts)
            && bool_decide (extended_collection_size c s d ≤ max_collection_size opts)%Z
            = false) as Hfalse.
    { apply not_true_is_false. intros Hb. exact (Hno (proj1 Hallowed Hb)). }
    rewrite Hfalse in Hhandle. split; [done|]. simpl. split; [|done].
    apply elem_of_union. left. by apply elem_of_singleton.
  - apply extended_collection_size_exact.
Qed.

End extending.

(** ** The edges of the driver: no goals, no time *)

Section driver_edges.
Context `{Collaborators} (opts : Options).

(** X4. Without given goals the entry check of [cegar] has nothing to
    reject, and [compute_initial_collection] fails its assertion before
    any projection is computed: neither [cegar] nor [run] returns a
    collection, whatever the task, the limits and the timer. *)
Theorem X4_empty_goals fuel clock initial_blacklist r :
  goals opts = [] →
  cegar opts fuel clock initial_blacklist r = Some AssertionFailed ∧
  run opts fuel clock initial_blacklist r = Some AssertionFailed.
Proof.
  intros Hgoals. unfold cegar, run, run_from, compute_initial_collection.
  by rewrite Hgoals.
Qed.

(** X5. The time limit.  When the timer has expired at the first check of
    the loop condition (as with [max_time = 0]), [run] returns the initial
    collection: one singleton pattern per given goal, no flaw detection, no
    refinement.  When it expires between a detection that found flaws and
    the refinement, the loop ends with the object as detection left it and
    no flaw is handled. *)
Theorem X5_time_limit :
  (∀ fuel clock initial_blacklist r,
     goals opts ≠ [] →
     is_expired (mkTimer (max_time opts) clock) 0 = true →
     run opts (S fuel) clock initial_blacklist r
     = Some (Returns (mkPCI (map (fun g => [var g]) (goals opts))
                            (map (fun g => make_pdb (task opts) [var g])
                                 (goals opts))))) ∧
  (∀ timer poll refinement_counter c flaws c',
     termination_conditions_met opts timer poll refinement_counter = false →
     get_flaws opts c = Returns (flaws, c') →
     is_expired timer (poll + 1) = true →
     iteration opts timer poll refinement_counter c = Returns (Break c') ∧
     pdbs_of c' = pdbs_of c ∧
     variable_to_projection c' = variable_to_projection c ∧
     blacklisted_variables c' = blacklisted_variables c ∧
     collection_size c' = collection_size c).
Proof.
  split.
  - intros fuel clock initial_blacklist r Hgoals Hexpired.
    unfold run, run_from, compute_initial_collection.
    rewrite (bool_decide_eq_false_2 _ Hgoals). simpl.
    unfold run_loop. simpl.
    unfold iteration, termination_conditions_met, time_limit_reached.
    rewrite Hexpired. simpl.
    rewrite collect_without_solution.
    + rewrite initial_collection_pdbs. unfold pdbs_of. simpl.
      rewrite <- (map_map (fun g => make_pdb (task opts) [var g]) Some).
      rewrite omap_id_Some, map_map. done.
    + by destruct (initial_collection_spec opts (goals opts)
                     (Cegar_new initial_blacklist r)) as (_ & -> & _).
  - intros timer poll refinement_counter c flaws c' Hterm Hflaws Hexpired.
    unfold iteration. rewrite Hterm, Hflaws. simpl.
    unfold time_limit_reached. rewrite Hexpired.
    split; [by destruct flaws|].
    destruct (get_flaws_loop_frame opts _ _ _ _ _ Hflaws) as (c2 & Hmarked & Hc').
    pose proof (marked_pdbs_of _ _ Hmarked) as Hpdbs.
    destruct Hmarked as [Hb Hr Hm Hs Hi _].
    destruct Hc' as [->|(_ & z & ->)]; (split; [exact Hpdbs|]); simpl;
      by rewrite Hm, Hb, Hs.
Qed.

End driver_edges.

(** ** What a flaw names *)

Section flaw_shape.
Context `{Collaborators} (opts : Options).
Abbreviation init := (get_initial_state_values (task opts)).

(** Where the variable of a flaw of projection [p] comes from: a
    precondition of an operator of its plan, or a given goal. *)
Definition flaw_source (p : Projection) (v : nat) : Prop :=
  (∃ step op_id pre,
     step ∈ get_plan p ∧ op_id ∈ step ∧
     pre ∈ get_preconditions (operator_at (task opts) op_id) ∧ var pre = v) ∨
  (∃ g, g ∈ goals opts ∧ var g = v).

(** The flaw is raised against a live slot that is neither solved nor
    unsolvable, on a variable outside the blacklist. *)
Definition well_formed_flaw (c : Cegar) (f : Flaw) : Prop :=
  (variable f ∉ blacklisted_variables c) ∧
  ∃ p, projection_collection c !! collection_index f = Some (Some p) ∧
       is_solved p = false ∧ is_unsolvable p = false ∧
       flaw_source p (variable f).

Lemma violated_elem blacklist index s op f :
  f ∈ violated blacklist index s op →
  collection_index f = index ∧ (variable f ∉ blacklist) ∧
  ∃ pre, pre ∈ get_preconditions op ∧ var pre = variable f ∧ holds s pre = false.
Proof.
  unfold violated. intros (g & <- & Hg)%list_elem_of_In%in_map_iff.
  apply filter_In in Hg as [Hg [Hbl Hnh]%andb_true_iff]. simpl.
  apply negb_true_iff in Hbl, Hnh. apply bool_decide_eq_false in Hbl.
  split; [done|]. split; [done|]. exists g. by rewrite list_elem_of_In.
Qed.

Lemma step_flaws_elem blacklist index s step f :
  f ∈ step_flaws opts blacklist index s step →
  collection_index f = index ∧ (variable f ∉ blacklist) ∧
  ∃ op_id pre, op_id ∈ step ∧
    pre ∈ get_preconditions (operator_at (task opts) op_id) ∧ var pre = variable f.
Proof.
  unfold step_flaws. intros (fl & Hfl & Hf)%list_elem_of_In%in_concat.
  apply in_map_iff in Hfl as (k & <- & Hk).
  apply list_elem_of_In, violated_elem in Hf as (Hi & Hb & pre & Hpre & Hv & _).
  split; [done|]. split; [done|]. exists k, pre. by rewrite list_elem_of_In.
Qed.

Lemma apply_steps_elem blacklist index plan :
  ∀ s flaws current,
    apply_steps opts blacklist index plan s [] = (flaws, current) →
    ∀ f, f ∈ flaws →
      collection_index f = index ∧ (variable f ∉ blacklist) ∧
      ∃ step op_id pre, step ∈ plan ∧ op_id ∈ step ∧
        pre ∈ get_preconditions (operator_at (task opts) op_id) ∧
        var pre = variable f.
Proof.
  induction plan as [|step rest IH]; intros s flaws current Hrun f Hf.
  - simpl in Hrun. simplify_eq. by apply elem_of_nil in Hf.
  - rewrite apply_steps_cons in Hrun.
    destruct (first_applicable opts blacklist s step) as [k|].
    + destruct (IH _ _ _ Hrun f Hf) as (Hi & Hb & st & op_id & pre & Hst & Hrest).
      split; [done|]. split; [done|]. exists st, op_id, pre.
      split; [by right|done].
    + simplify_eq.
      destruct (step_flaws_elem _ _ _ _ _ Hf) as (Hi & Hb & op_id & pre & Hrest).
      split; [done|]. split; [done|]. exists step, op_id, pre.
      split; [by left|done].
Qed.

Lemma goal_flaws_elem blacklist index current f :
  f ∈ goal_flaws opts blacklist index current →
  collection_index f = index ∧ (variable f ∉ blacklist) ∧
  ∃ g, g ∈ goals opts ∧ var g = variable f ∧ holds current g = false.
Proof.
  rewrite goal_flaws_spec. intros (g & <- & Hg)%list_elem_of_In%in_map_iff.
  apply filter_In in Hg as [Hg [Hnh Hbl]%andb_true_iff]. simpl.
  apply negb_true_iff in Hbl, Hnh. apply bool_decide_eq_false in Hbl.
  split; [done|]. split; [done|]. exists g. by rewrite list_elem_of_In.
Qed.

(** One call of [apply_wildcard_plan]: the flaws are against the slot
    itself, a call that returns flaws leaves the object as it is, and no
    call touches the blacklist or another slot. *)
Lemma apply_wildcard_plan_flaws c i p s flaws c' :
  projection_collection c !! i = Some (Some p) →
  apply_wildcard_plan opts c i s = Returns (flaws, c') →
  (flaws ≠ [] → c' = c) ∧
  blacklisted_variables c' = blacklisted_variables c ∧
  (∀ k, k ≠ i → projection_collection c' !! k = projection_collection c !! k) ∧
  ∀ f, f ∈ flaws →
    collection_index f = i ∧ (variable f ∉ blacklisted_variables c) ∧
    flaw_source p (variable f).
Proof.
  intros Hp Hrun. unfold apply_wildcard_plan in Hrun.
  rewrite (proj2 (deref_Returns c i p) Hp) in Hrun. simpl in Hrun.
  destruct (apply_steps opts (blacklisted_variables c) i (get_plan p) s [])
    as [fl current] eqn:Hsteps.
  pose proof (apply_steps_elem _ _ _ _ _ _ Hsteps) as Helem.
  assert (∀ k, k ≠ i →
            projection_collection (mark_slot_as_solved c i p) !! k
            = projection_collection c !! k) as Hmark.
  { intros k Hk. simpl. by rewrite list_lookup_insert_ne. }
  destruct fl as [|f0 fl].
  - destruct (is_goal_state _ _).
    + destruct (bool_decide _); simplify_eq;
        (split; [done|]); (split; [done|]); (split; [done|]);
        intros f Hf; by apply elem_of_nil in Hf.
    + destruct (goal_flaws _ _ _ _) as [|g0 gl] eqn:Hgf; simplify_eq.
      * do 3 (split; [done|]). intros f Hf. by apply elem_of_nil in Hf.
      * do 3 (split; [done|]). intros f Hf. rewrite <- Hgf in Hf.
        destruct (goal_flaws_elem _ _ _ _ Hf) as (Hi & Hb & g & Hg & Hv & _).
        split; [done|]. split; [done|]. right. by exists g.
  - simplify_eq. do 3 (split; [done|]). intros f Hf.
    destruct (Helem f Hf) as (Hi & Hb & Hsrc).
    split; [done|]. split; [done|]. by left.
Qed.

Lemma get_flaws_loop_well_formed indices :
  NoDup indices →
  ∀ flaws c fl c1,
    (∀ f, f ∈ flaws → well_formed_flaw c f ∧ collection_index f ∉ indices) →
    get_flaws_loop opts indices flaws c = Returns (fl, c1) →
    blacklisted_variables c1 = blacklisted_variables c ∧
    ∀ f, f ∈ fl → well_formed_flaw c1 f.
Proof.
  induction indices as [|j indices IH]; intros Hnd flaws c fl c1 Hflaws Hrun.
  - simpl in Hrun. simplify_eq. split; [done|]. intros f Hf. by apply Hflaws.
  - apply NoDup_cons in Hnd as [Hj Hnd].
    assert (∀ f, f ∈ flaws → well_formed_flaw c f ∧ collection_index f ∉ indices)
      as Hflaws'.
    { intros f Hf. destruct (Hflaws f Hf) as [Hwf Hni]. split; [done|].
      intros Hin. apply Hni. by right. }
    rewrite get_flaws_loop_cons in Hrun.
    destruct (projection_collection c !! j) as [[q|]|] eqn:Hq; [|by eapply IH..].
    destruct (is_solved q) eqn:Hqs; [by eapply IH|].
    destruct (is_unsolvable q) eqn:Hqu; [done|].
    destruct (apply_wildcard_plan opts c j init) as [[nf c']| | |] eqn:Hcall;
      simpl in Hrun; try done.
    destruct (apply_wildcard_plan_flaws c j q init nf c' Hq Hcall)
      as (Hsame & Hbl & Hother & Hnf).
    destruct (bool_decide (concrete_solution_index c' = -1)%Z); simpl in Hrun.
    + destruct (IH Hnd (flaws ++ nf) c' fl c1) as [Hb Hwf]; [|done|].
      * intros f [Hf|Hf]%elem_of_app.
        -- destruct (Hflaws f Hf) as [(Hfb & p & Hp & Hrest) Hni]. split.
           ++ split; [by rewrite Hbl|]. exists p. split; [|done].
              rewrite Hother; [done|]. intros Heq. apply Hni. rewrite Heq. by left.
           ++ intros Hin. apply Hni. by right.
        -- destruct (Hnf f Hf) as (Hi & Hb & Hsrc).
           assert (c' = c) as ->
               by (apply Hsame; intros ->; by apply elem_of_nil in Hf).
           split; [|by rewrite Hi].
           split; [done|]. exists q. by rewrite Hi.
      * split; [by rewrite Hb|done].
    + destruct (bool_decide _); simpl in Hrun; [|done].
      destruct (bool_decide _); simpl in Hrun; [|done].
      destruct (bool_decide _); simpl in Hrun; [|done].
      simplify_eq. split; [done|]. intros f Hf. by apply elem_of_nil in Hf.
Qed.

Lemma get_flaws_well_formed (c : Cegar) flaws c' :
  get_flaws opts c = Returns (flaws, c') →
  blacklisted_variables c' = blacklisted_variables c ∧
  ∀ f, f ∈ flaws → well_formed_flaw c' f.
Proof.
  intros Hrun. unfold get_flaws in Hrun.
  eapply get_flaws_loop_well_formed; [apply NoDup_seq| |exact Hrun].
  intros f Hf. by apply elem_of_nil in Hf.
Qed.

(** X6. Every flaw [(i, v)] that [get_flaws] returns is raised against a
    slot [i] that is live, not marked as solved and not unsolvable in the
    object detection leaves behind; [v] is not blacklisted (detection does
    not change the blacklist); and [v] is the variable of a precondition of
    an operator in the plan of slot [i] or of a given goal. *)
Theorem X6_flaws_well_formed (c : Cegar) flaws c' :
  get_flaws opts c = Returns (flaws, c') →
  blacklisted_variables c' = blacklisted_variables c ∧
  ∀ f, f ∈ flaws →
    (variable f ∉ blacklisted_variables c') ∧
    ∃ p, projection_collection c' !! collection_index f = Some (Some p) ∧
         is_solved p = false ∧ is_unsolvable p = false ∧
         flaw_source p (variable f).
Proof. apply get_flaws_well_formed. Qed.

End flaw_shape.

(** ** Termination of the loop *)

Section refinement_bound.
Context `{Collaborators} (opts : Options).

Lemma main_loop_counter_bound timer (n : nat) :
  (max_refinements opts ≤ Int.max_int)%Z →
  ∀ poll refinement_counter c,
    (0 ≤ refinement_counter ≤ max_refinements opts)%Z →
    Z.to_nat (max_refinements opts - refinement_counter) = n →
    ∃ o, main_loop opts (S n) timer poll refinement_counter c = Some o.
Proof.
  intros Hmax. induction n as [|n IH]; intros poll counter c Hcounter Hn.
  - assert (counter = max_refinements opts) as -> by lia.
    simpl. unfold iteration, termination_conditions_met.
    rewrite bool_decide_eq_true_2 by done.
    destruct (time_limit_reached _ _); eauto.
  - remember (S n) as fuel eqn:Hfuel. simpl.
    destruct (iteration opts timer poll counter c) as [[c'|c']| | |]; eauto.
    subst fuel. apply IH.
    + unfold Int.add. rewrite wrap_in_range; [lia|].
      unfold Int.in_range, Int.min_int. lia.
    + unfold Int.add. rewrite wrap_in_range; [lia|].
      unfold Int.in_range, Int.min_int. lia.
Qed.

(** X7. With a refinement bound [0 ≤ max_refinements] the loop of [run]
    ends within [max_refinements + 1] passes through its head, hence after
    at most [max_refinements] refinements: for every task, timer and
    generator the run comes to a result (a collection, an exit or a failed
    assertion) with that much fuel. *)
Theorem X7_refinement_bound :
  (0 ≤ max_refinements opts ≤ Int.max_int)%Z →
  (∀ timer poll c,
     ∃ o, main_loop opts (S (Z.to_nat (max_refinements opts))) timer poll 0 c
          = Some o) ∧
  (∀ clock initial_blacklist r,
     ∃ o, run opts (S (Z.to_nat (max_refinements opts))) clock initial_blacklist r
          = Some o).
Proof.
  intros [Hmin Hmax].
  assert (∀ timer poll c,
     ∃ o, main_loop opts (S (Z.to_nat (max_refinements opts))) timer poll 0 c
          = Some o) as Hloop.
  { intros timer poll c. apply main_loop_counter_bound; [done|lia|].
    by rewrite Z.sub_0_r. }
  split; [done|]. intros clock initial_blacklist r.
  unfold run, run_from.
  destruct (compute_initial_collection opts _) as [c0| | |]; eauto.
  unfold run_loop.
  destruct (Hloop (mkTimer (max_time opts) clock) 0 c0) as [o ->]. eauto.
Qed.

End refinement_bound.

Section termination.
Context `{Collaborators} (opts : Options).

(** The variables a flaw can name: those of the preconditions of the
    operators of the task and of the given goals. *)
Definition flaw_candidates : gset nat :=
  list_to_set
    (map var (concat (map get_preconditions (get_operators (task opts)))
              ++ goals opts)).

(** What is left to refine: a merge takes away a live slot, an extension
    a candidate outside the collection, a blacklisting a candidate outside
    the blacklist. *)
Definition refinement_potential (c : Cegar) : nat :=
  length (live_projections c)
  + size (flaw_candidates ∖ dom (variable_to_projection c))
  + size (flaw_candidates ∖ blacklisted_variables c).

Lemma flaw_source_candidate p v : flaw_source opts p v → v ∈ flaw_candidates.
Proof.
  unfold flaw_candidates. rewrite elem_of_list_to_set, list_elem_of_fmap.
  intros [(step & op_id & pre & _ & _ & Hpre & <-)|(g & Hg & <-)].
  - exists pre. split; [done|]. apply elem_of_app. left.
    unfold operator_at in Hpre.
    destruct (decide (op_id < length (get_operators (task opts)))) as [Hlt|Hge].
    + apply list_elem_of_In, in_concat. eexists. split; [|by apply list_elem_of_In].
      apply in_map, nth_In. done.
    + rewrite nth_overflow in Hpre by lia. by apply elem_of_nil in Hpre.
  - exists g. split; [done|]. apply elem_of_app. by right.
Qed.

Lemma live_count_insert_Some {A} (l : list (option A)) i x y :
  l !! i = Some (Some x) →
  length (omap id (<[i := Some y]> l)) = length (omap id l).
Proof.
  revert i. induction l as [|o l IH]; intros [|i] Hi; simpl in *; try done.
  - by simplify_eq.
  - destruct o; simpl; [f_equal|]; apply (IH i Hi).
Qed.

Lemma live_count_insert_None {A} (l : list (option A)) j x :
  l !! j = Some (Some x) →
  S (length (omap id (<[j := None]> l))) = length (omap id l).
Proof.
  revert j. induction l as [|o l IH]; intros [|j] Hj; simpl in *; try done.
  - by simplify_eq.
  - destruct o; simpl; [f_equal|]; apply (IH j Hj).
Qed.

Lemma live_count_le {A} (l : list (option A)) : length (omap id l) ≤ length l.
Proof.
  induction l as [|o l IH]; simpl; [done|].
  destruct o; simpl; [apply le_n_S|apply le_S]; exact IH.
Qed.

Lemma live_count_pdbs c :
  length (live_projections c) = length (omap id (pdbs_of c)).
Proof.
  unfold live_projections, pdbs_of.
  by rewrite <- omap_id_pdbs, length_map.
Qed.

Lemma dom_foldl_insert (m : gmap nat nat) (i : nat) (l : list nat) :
  dom m ⊆ dom (foldl (fun m v => <[v := i]> m) m l).
Proof.
  revert m. induction l as [|v l IH]; intros m; simpl; [done|].
  etrans; [|apply IH]. rewrite dom_insert_L. apply union_subseteq_r.
Qed.

Lemma size_difference_lt (C X : gset nat) v :
  v ∈ C → v ∉ X → size (C ∖ ({[v]} ∪ X)) < size (C ∖ X).
Proof.
  intros Hc Hx. apply subset_size. split.
  - intros x [Hxc Hn]%elem_of_difference. apply elem_of_difference.
    split; [done|]. intros Hin. apply Hn, elem_of_union. by right.
  - intros Hsub.
    assert (v ∈ C ∖ ({[v]} ∪ X)) as [_ Hn]%elem_of_difference
        by (by apply Hsub, elem_of_difference).
    apply Hn, elem_of_union. left. by apply elem_of_singleton.
Qed.

Lemma size_difference_le (C X Y : gset nat) :
  X ⊆ Y → size (C ∖ Y) ≤ size (C ∖ X).
Proof.
  intros Hsub. apply subseteq_size.
  intros x [Hxc Hn]%elem_of_difference. apply elem_of_difference.
  split; [done|]. intros Hin. by apply Hn, Hsub.
Qed.

Lemma size_difference_bound (C X : gset nat) : size (C ∖ X) ≤ size C.
Proof.
  apply subseteq_size. by intros x [Hxc _]%elem_of_difference.
Qed.

Lemma potential_blacklist c v :
  v ∈ flaw_candidates → v ∉ blacklisted_variables c →
  refinement_potential (blacklist c v) < refinement_potential c.
Proof.
  intros Hcand Hnot. unfold refinement_potential, blacklist. simpl.
  pose proof (size_difference_lt _ _ _ Hcand Hnot).
  change (live_projections (set_blacklisted_variables c
                              ({[v]} ∪ blacklisted_variables c)))
    with (live_projections c).
  lia.
Qed.

Lemma potential_merge c i j c' :
  i ≠ j → merge_patterns opts c i j = Returns c' →
  refinement_potential c' < refinement_potential c.
Proof.
  intros Hij Hmerge.
  destruct (merge_patterns_spec opts c i j c' Hmerge)
    as (pi & pj & Hpi & Hpj & Hpdbs & Hmap & _ & Hbl & _).
  unfold refinement_potential. rewrite !live_count_pdbs, Hpdbs, Hmap, Hbl.
  assert (S (length (omap id (<[j := None]>
             (<[i := Some (make_pdb (task opts)
                            (sort (get_pattern pi ++ get_pattern pj)))]> (pdbs_of c)))))
          = length (omap id (pdbs_of c))) as Hlive.
  { rewrite (live_count_insert_None _ j (get_pdb pj)).
    - apply (live_count_insert_Some _ i (get_pdb pi)). by apply pdbs_of_lookup.
    - rewrite list_lookup_insert_ne by done. by apply pdbs_of_lookup. }
  assert (size (flaw_candidates
                ∖ dom (foldl (fun m v => <[v := i]> m) (variable_to_projection c)
                         (get_pattern pj)))
          ≤ size (flaw_candidates ∖ dom (variable_to_projection c))); [|lia].
  apply size_difference_le, dom_foldl_insert.
Qed.

Lemma potential_add c i v c' :
  v ∈ flaw_candidates → variable_to_projection c !! v = None →
  add_variable_to_pattern opts c i v = Returns c' →
  refinement_potential c' < refinement_potential c.
Proof.
  intros Hcand Hnone Hadd.
  destruct (add_variable_to_pattern_spec opts c i v c' Hadd)
    as (p & Hp & Hpdbs & Hmap & _ & Hbl & _).
  unfold refinement_potential. rewrite !live_count_pdbs, Hpdbs, Hmap, Hbl.
  rewrite (live_count_insert_Some _ i (get_pdb p)) by (by apply pdbs_of_lookup).
  assert (size (flaw_candidates ∖ dom (<[v := i]> (variable_to_projection c)))
          < size (flaw_candidates ∖ dom (variable_to_projection c))); [|lia].
  rewrite dom_insert_L. apply size_difference_lt; [done|].
  by apply not_elem_of_dom.
Qed.

Lemma potential_handle_flaw c f c' :
  variable f ∈ flaw_candidates → variable f ∉ blacklisted_variables c →
  handle_flaw opts c f = Returns c' →
  refinement_potential c' < refinement_potential c.
Proof.
  intros Hcand Hnot Hrun. unfold handle_flaw in Hrun.
  destruct (variable_to_projection c !! variable f) as [j|] eqn:Hv.
  - apply bind_Returns in Hrun as ([] & Hne & Hrun).
    unfold assert in Hne.
    destruct (bool_decide (j = collection_index f)) eqn:Hji; [done|].
    apply bool_decide_eq_false in Hji.
    apply bind_Returns in Hrun as (slot & _ & Hrun).
    apply bind_Returns in Hrun as ([] & _ & Hrun).
    apply bind_Returns in Hrun as (can & _ & Hrun).
    destruct can.
    + eapply potential_merge; [|done]. done.
    + simplify_eq. by apply potential_blacklist.
  - apply bind_Returns in Hrun as (can & _ & Hrun).
    destruct can.
    + by eapply potential_add.
    + simplify_eq. by apply potential_blacklist.
Qed.

Lemma live_count_marked (l l' : list (option Projection)) :
  Forall2 slot_marked l l' → length (omap id l') = length (omap id l).
Proof.
  induction 1 as [|o o' l l' Ho _ IH]; [done|]. simpl.
  destruct Ho as [->|(p & -> & ->)].
  - destruct o; simpl; [f_equal|]; exact IH.
  - simpl. f_equal. exact IH.
Qed.

Lemma potential_get_flaws c flaws c1 :
  get_flaws opts c = Returns (flaws, c1) →
  refinement_potential c1 = refinement_potential c.
Proof.
  intros Hrun.
  destruct (get_flaws_loop_frame opts _ _ _ _ _ Hrun) as (c2 & Hmarked & Hc1).
  assert (refinement_potential c2 = refinement_potential c) as <-.
  { destruct Hmarked as [Hb _ Hm _ _ Hs]. unfold refinement_potential, live_projections.
    by rewrite (live_count_marked _ _ Hs), Hb, Hm. }
  by destruct Hc1 as [->|(_ & z & ->)].
Qed.

(** A pass that refines uses up some of the potential. *)
Lemma potential_iteration timer poll refinement_counter c c' :
  iteration opts timer poll refinement_counter c = Returns (Continue c') →
  refinement_potential c' < refinement_potential c.
Proof.
  unfold iteration. intros Hrun.
  destruct (termination_conditions_met _ _ _ _); [done|].
  apply bind_Returns in Hrun as ([flaws c1] & Hflaws & Hrun).
  destruct flaws as [|f0 flaws]; [done|].
  destruct (time_limit_reached _ _); [done|].
  apply bind_Returns in Hrun as (c2 & Hrefine & Hrun). simplify_eq.
  rewrite <- (potential_get_flaws _ _ _ Hflaws).
  destruct (get_flaws_well_formed opts _ _ _ Hflaws) as [_ Hwf].
  unfold refine in Hrefine.
  apply bind_Returns in Hrefine as ([] & _ & Hrefine).
  destruct (rng_draw (rng c1) (length (f0 :: flaws))) as [k r'].
  simpl in Hrefine.
  match type of Hrefine with
  | match ?x with _ => _ end = _ => destruct x as [f|] eqn:Hk; [|done]
  end.
  destruct (Hwf f) as (Hnot & p & _ & _ & _ & Hsrc); [by eapply list_elem_of_lookup_2|].
  change (refinement_potential c1) with (refinement_potential (set_rng c1 r')).
  eapply potential_handle_flaw; [|done|done].
  by eapply flaw_source_candidate.
Qed.

Lemma main_loop_terminates timer fuel :
  ∀ poll refinement_counter c,
    refinement_potential c < fuel →
    ∃ o, main_loop opts fuel timer poll refinement_counter c = Some o.
Proof.
  induction fuel as [|fuel IH]; intros poll counter c Hlt; [lia|]. simpl.
  destruct (iteration opts timer poll counter c) as [[c'|c']| | |] eqn:Hit; eauto.
  apply IH. pose proof (potential_iteration _ _ _ _ _ Hit). lia.
Qed.

Lemma run_terminates clock initial_blacklist r :
  ∃ o, run opts (S (length (goals opts) + 2 * size flaw_candidates))
           clock initial_blacklist r = Some o.
Proof.
  unfold run, run_from.
  destruct (compute_initial_collection opts _) as [c0| | |] eqn:Hinit; eauto.
  unfold run_loop.
  destruct (main_loop_terminates (mkTimer (max_time opts) clock)
              (S (length (goals opts) + 2 * size flaw_candidates)) 0 0%Z c0)
    as [o ->]; [|eauto].
  apply compute_initial_collection_Returns in Hinit.
  destruct (initial_collection_spec opts (goals opts)
              (Cegar_new initial_blacklist r)) as (_ & _ & Hlen & _).
  rewrite <- Hinit in Hlen. simpl in Hlen.
  unfold refinement_potential.
  assert (length (live_projections c0) ≤ length (goals opts)).
  { rewrite <- Hlen. apply live_count_le. }
  pose proof (size_difference_bound flaw_candidates
                (dom (variable_to_projection c0))).
  pose proof (size_difference_bound flaw_candidates (blacklisted_variables c0)).
  lia.
Qed.

(** X8. The loop of [run] ends whatever the refinement bound and the
    timer are: every refinement merges two live slots, brings a new
    variable into the collection or blacklists a new variable, and the
    variables of flaws come from the preconditions of the operators and
    the given goals.  With [n] given goals and [k] such variables, [run]
    comes to a result within [n + 2 k + 1] passes through the loop head. *)
Theorem X8_run_terminates :
  (∀ timer poll refinement_counter c c',
     iteration opts timer poll refinement_counter c = Returns (Continue c') →
     refinement_potential c' < refinement_potential c) ∧
  (∀ clock initial_blacklist r,
     ∃ o, run opts (S (length (goals opts) + 2 * size flaw_candidates))
              clock initial_blacklist r = Some o).
Proof. split; [apply potential_iteration|apply run_terminates]. Qed.

End termination.

(** ** The exits of a run *)

Section exits.
Context `{Collaborators} (opts : Options).
Abbreviation init := (get_initial_state_values (task opts)).

Lemma bind_ExitWith {A B} (o : Outcome A) (k : A → Outcome B) code :
  bind o k = ExitWith code →
  o = ExitWith code ∨ ∃ a, o = Returns a ∧ k a = ExitWith code.
Proof. destruct o; simpl; intros; simplify_eq; eauto. Qed.

Lemma assert_no_exit b code : assert b ≠ ExitWith code.
Proof. by destruct b. Qed.

Lemma deref_no_exit (c : Cegar) i code : deref c i ≠ ExitWith code.
Proof. unfold deref. by destruct (projection_collection c !! i) as [[?|]|]. Qed.

Lemma handle_flaw_no_exit (c : Cegar) f code :
  handle_flaw opts c f ≠ ExitWith code.
Proof.
  unfold handle_flaw, can_merge_patterns, merge_patterns,
    can_add_variable_to_pattern, add_variable_to_pattern, deref, assert.
  destruct (variable_to_projection c !! variable f) as [j|].
  - destruct (negb _); simpl; [|done].
    destruct (projection_collection c !! j) as [[pj|]|]; simpl; try done.
    destruct (projection_collection c !! collection_index f) as [[pi|]|];
      simpl; try done.
    destruct (negb _); simpl; [done|].
    destruct (bool_decide _); simpl; [|done].
    by destruct (compute_projection _ _ _ _).
  - destruct (projection_collection c !! collection_index f) as [[pi|]|];
      simpl; try done.
    destruct (negb _); simpl; [done|].
    destruct (bool_decide _); simpl; [|done].
    by destruct (compute_projection _ _ _ _).
Qed.

Lemma refine_no_exit (c : Cegar) flaws code : refine opts c flaws ≠ ExitWith code.
Proof.
  unfold refine. intros [Hex|([] & _ & Hex)]%bind_ExitWith.
  - by apply assert_no_exit in Hex.
  - destruct (rng_draw _ _) as [k r']. simpl in Hex.
    match type of Hex with
    | match ?x with _ => _ end = _ => destruct x as [f|]; [|done]
    end.
    by apply handle_flaw_no_exit in Hex.
Qed.

Lemma apply_wildcard_plan_no_exit (c : Cegar) i s code :
  apply_wildcard_plan opts c i s ≠ ExitWith code.
Proof.
  unfold apply_wildcard_plan. intros [Hex|(p & _ & Hex)]%bind_ExitWith.
  - by apply deref_no_exit in Hex.
  - destruct (apply_steps _ _ _ _ _ _) as [[|f0 fl] current]; [|done].
    destruct (is_goal_state _ _); [by destruct (bool_decide _)|].
    by destruct (goal_flaws _ _ _ _).
Qed.

(** Detection exits on an unsolvable slot of the object, and in no other
    way. *)
Lemma get_flaws_loop_exit indices :
  ∀ flaws c code,
    get_flaws_loop opts indices flaws c = ExitWith code →
    code = SEARCH_UNSOLVABLE ∧
    ∃ k p, k ∈ indices ∧ projection_collection c !! k = Some (Some p) ∧
           is_unsolvable p = true.
Proof.
  induction indices as [|j indices IH]; intros flaws c code Hrun; [done|].
  assert (∀ flaws, get_flaws_loop opts indices flaws c = ExitWith code →
            code = SEARCH_UNSOLVABLE ∧
            ∃ k p, k ∈ j :: indices ∧ projection_collection c !! k = Some (Some p) ∧
                   is_unsolvable p = true) as Hskip.
  { intros fl Hfl. destruct (IH _ _ _ Hfl) as (Hcode & k & p & Hk & Hp).
    split; [done|]. exists k, p. split; [by right|done]. }
  rewrite get_flaws_loop_cons in Hrun.
  destruct (projection_collection c !! j) as [[q|]|] eqn:Hq; [|by eapply Hskip..].
  destruct (is_solved q) eqn:Hqs; [by eapply Hskip|].
  destruct (is_unsolvable q) eqn:Hqu.
  { simplify_eq. split; [done|]. exists j, q. split; [by left|done]. }
  apply bind_ExitWith in Hrun as [Hex|([nf c'] & Hcall & Hrun)];
    [by apply apply_wildcard_plan_no_exit in Hex|].
  destruct (bool_decide (concrete_solution_index c' = -1)%Z); simpl in Hrun.
  - destruct (IH _ _ _ Hrun) as (Hcode & k & p & Hk & Hp & Hpu).
    split; [done|].
    destruct (apply_wildcard_plan_cases opts c j q init Hq)
      as [(_ & _ & Hcall')|(_ & nf' & c'' & Hcall' & Hc')];
      rewrite Hcall in Hcall'; simplify_eq.
    + exists k, p. split; [by right|done].
    + destruct Hc' as [->|[_ ->]]; [exists k, p; split; [by right|done]|].
      destruct (decide (k = j)) as [->|Hne].
      * simpl in Hp. rewrite list_lookup_insert_eq in Hp
          by (by eapply lookup_lt_Some).
        simplify_eq. simpl in Hpu. congruence.
      * rewrite marked_lookup_ne in Hp by done.
        exists k, p. split; [by right|done].
  - destruct (bool_decide _); simpl in Hrun; [|done].
    destruct (bool_decide _); simpl in Hrun; [|done].
    by destruct (bool_decide _).
Qed.

Lemma iteration_exit timer poll refinement_counter c code :
  iteration opts timer poll refinement_counter c = ExitWith code →
  code = SEARCH_UNSOLVABLE ∧
  ∃ k p, projection_collection c !! k = Some (Some p) ∧ is_unsolvable p = true.
Proof.
  unfold iteration. destruct (termination_conditions_met _ _ _ _); [done|].
  intros [Hex|([flaws c1] & _ & Hex)]%bind_ExitWith.
  - apply get_flaws_loop_exit in Hex as (Hcode & k & p & _ & Hp).
    split; [done|]. by exists k, p.
  - destruct flaws as [|f0 flaws]; [done|].
    destruct (time_limit_reached _ _); [done|].
    apply bind_ExitWith in Hex as [Hex|(c2 & _ & Hex)]; [|done].
    by apply refine_no_exit in Hex.
Qed.

Lemma main_loop_exit timer fuel :
  ∀ poll refinement_counter c code,
    main_loop opts fuel timer poll refinement_counter c = Some (ExitWith code) →
    code = SEARCH_UNSOLVABLE ∧
    ∃ c' k p, rtc (pass opts) c c' ∧
              projection_collection c' !! k = Some (Some p) ∧
              is_unsolvable p = true.
Proof.
  induction fuel as [|fuel IH]; intros poll counter c code Hrun; [done|].
  simpl in Hrun.
  destruct (iteration opts timer poll counter c) as [[c1|c1]| | |] eqn:Hit;
    try done.
  - destruct (IH _ _ _ _ Hrun) as (Hcode & c' & k & p & Hrtc & Hp).
    split; [done|]. exists c', k, p. split; [|done].
    eapply rtc_l; [|done]. by exists timer, poll, counter, (Continue c1).
  - simplify_eq. destruct (iteration_exit _ _ _ _ _ Hit) as (Hcode & k & p & Hp).
    split; [done|]. by exists c, k, p.
Qed.

(** Every live slot holds the PDB of its pattern and is flagged as
    unsolvable exactly when that PDB gives the initial state the distance
    infinity. *)
Definition slots_computed (c : Cegar) : Prop :=
  ∀ i p, projection_collection c !! i = Some (Some p) →
         get_pdb p = make_pdb (task opts) (get_pattern p) ∧
         is_unsolvable p
         = bool_decide (pdb_initial_distance (task opts) (get_pattern p)
                        = Int.max_int).

Lemma slots_computed_stable : Stable opts slots_computed.
Proof.
  split.
  - intros c c' [_ _ _ _ _ Hslots] Hc i p' Hp'.
    destruct (Forall2_lookup_r _ _ _ _ _ Hslots Hp') as (o & Ho & Hm).
    destruct Hm as [?|(p & -> & ?)]; simplify_eq; [by eapply Hc|].
    by apply (Hc i p).
  - done.
  - done.
  - done.
  - intros c i j c' _ Hrun Hc k p Hp.
    apply merge_patterns_collection in Hrun as (pattern & r & Hcoll).
    rewrite Hcoll in Hp.
    destruct (decide (k = j)) as [->|Hne].
    + apply list_lookup_insert_Some in Hp as [(_ & ? & _)|[? _]]; done.
    + rewrite list_lookup_insert_ne in Hp by done.
      destruct (decide (k = i)) as [->|Hki].
      * apply list_lookup_insert_Some in Hp as [(_ & Hp & _)|[? _]]; [|done].
        simplify_eq. rewrite compute_projection_pattern, compute_projection_pdb.
        by rewrite compute_projection_unsolvable.
      * rewrite list_lookup_insert_ne in Hp by done. by eapply Hc.
  - intros c i v c' _ Hrun Hc k p Hp.
    apply add_variable_to_pattern_collection in Hrun as (pattern & r & Hcoll).
    rewrite Hcoll in Hp.
    destruct (decide (k = i)) as [->|Hki].
    + apply list_lookup_insert_Some in Hp as [(_ & Hp & _)|[? _]]; [|done].
      simplify_eq. rewrite compute_projection_pattern, compute_projection_pdb.
      by rewrite compute_projection_unsolvable.
    + rewrite list_lookup_insert_ne in Hp by done. by eapply Hc.
Qed.

Lemma reachable_slots_computed initial_blacklist r c :
  reachable opts initial_blacklist r c → slots_computed c.
Proof.
  intros Hc.
  eapply reachable_stable; [by apply slots_computed_stable| |done].
  intros c0 ->%compute_initial_collection_Returns.
  assert (∀ gs c1, slots_computed c1 →
            slots_computed (foldl (fun c goal => add_pattern_for_var opts c (var goal))
                                  c1 gs)) as Hfold.
  { induction gs as [|g gs IH]; intros c1 Hc1; simpl; [done|].
    apply IH. intros k p Hp.
    destruct (add_pattern_for_var_spec opts c1 (var g)) as (Hcoll & _).
    rewrite Hcoll in Hp. apply lookup_app_Some in Hp as [Hp|[_ Hp]].
    - by eapply Hc1.
    - apply list_lookup_singleton_Some in Hp as [_ Hp]. simplify_eq.
      rewrite compute_projection_pattern, compute_projection_pdb.
      by rewrite compute_projection_unsolvable. }
  apply Hfold. intros k p Hp. simpl in Hp. by rewrite lookup_nil in Hp.
Qed.

Lemma run_exit fuel clock initial_blacklist r code :
  run opts fuel clock initial_blacklist r = Some (ExitWith code) →
  code = SEARCH_UNSOLVABLE ∧
  ∃ c k p, reachable opts initial_blacklist r c ∧
           projection_collection c !! k = Some (Some p) ∧
           is_unsolvable p = true.
Proof.
  unfold run, run_from. intros Hrun.
  destruct (compute_initial_collection opts _) as [c0| | |] eqn:Hinit;
    try done.
  - unfold run_loop in Hrun.
    destruct (main_loop opts fuel _ 0 0%Z c0) as [[c1| | |]|] eqn:Hloop;
      simpl in Hrun; try done.
    + exfalso. unfold collect in Hrun.
      destruct (negb _); [|done].
      injection Hrun as Hrun.
      apply bind_ExitWith in Hrun as [Hex|(p & _ & Hex)]; [|done].
      by apply deref_no_exit in Hex.
    + simplify_eq.
      destruct (main_loop_exit _ _ _ _ _ _ Hloop) as (Hcode & c' & k & p & Hrtc & Hp).
      split; [done|]. exists c', k, p. split; [|done]. by exists c0.
  - unfold compute_initial_collection in Hinit.
    apply bind_ExitWith in Hinit as [Hex|([] & _ & Hex)]; [|done].
    by apply assert_no_exit in Hex.
Qed.

Lemma forallb_false {A} (f : A → bool) (l : list A) :
  forallb f l = false → ∃ x, x ∈ l ∧ f x = false.
Proof.
  induction l as [|x l IH]; simpl; [done|].
  destruct (f x) eqn:Hx; simpl.
  - intros (y & Hy & Hfy)%IH. exists y. split; [by right|done].
  - intros _. exists x. split; [by left|done].
Qed.

(** X9. The entry point [cegar] exits with the input-error code exactly
    when some given goal is not a goal of the task, and then at once: no
    other part of the procedure uses that code. *)
Theorem X9_input_error fuel clock initial_blacklist r :
  cegar opts fuel clock initial_blacklist r = Some (ExitWith SEARCH_INPUT_ERROR)
  ↔ ∃ g, g ∈ goals opts ∧ g ∉ get_goals (task opts).
Proof.
  unfold cegar.
  destruct (forallb _ (goals opts)) eqn:Hall.
  - split.
    + intros Hrun. by apply run_exit in Hrun as [? _].
    + intros (g & Hg & Hnot). rewrite forallb_forall in Hall.
      apply list_elem_of_In, Hall, bool_decide_eq_true in Hg. done.
  - split; [|done]. intros _.
    apply forallb_false in Hall as (g & Hg & Hnot).
    exists g. split; [done|]. by apply bool_decide_eq_false in Hnot.
Qed.


End exits.

(** ** Runs without failed assertions and undefined accesses *)

Section safety.
Context `{Collaborators} (opts : Options).
Abbreviation init := (get_initial_state_values (task opts)).

(** Modelled from the spec: a call of the generator with bound [n]
    ([utils::RandomNumberGenerator], not part of cegar.cc) draws from
    [0 .. n-1]. *)
Definition rng_in_bounds : Prop :=
  ∀ (r : RandomNumberGenerator) n, 0 < n → (rng_draw r n).1 < n.

(** The two regular ends of a computation: a result or an exit. *)
Definition regular {A} (o : Outcome A) : Prop :=
  match o with
  | Returns _ | ExitWith _ => True
  | AssertionFailed | Undefined => False
  end.

(** The solution index is the sentinel or names a live slot. *)
Definition index_valid (c : Cegar) : Prop :=
  concrete_solution_index c = (-1)%Z ∨
  ∃ i p, concrete_solution_index c = Z.of_nat i ∧
         projection_collection c !! i = Some (Some p).

Lemma get_flaws_loop_regular indices :
  ∀ flaws c,
    concrete_solution_index c = (-1)%Z →
    regular (get_flaws_loop opts indices flaws c) ∧
    ∀ fl c1, get_flaws_loop opts indices flaws c = Returns (fl, c1) →
             concrete_solution_index c1 = (-1)%Z ∨
             (fl = [] ∧ ∃ i p, concrete_solution_index c1 = Z.of_nat i ∧
                               projection_collection c1 !! i = Some (Some p)).
Proof.
  induction indices as [|j indices IH]; intros flaws c Hindex.
  - simpl. split; [done|]. intros fl c1 ?. simplify_eq. by left.
  - rewrite get_flaws_loop_cons.
    destruct (projection_collection c !! j) as [[q|]|] eqn:Hq; [|by apply IH..].
    destruct (is_solved q) eqn:Hqs; [by apply IH|].
    destruct (is_unsolvable q) eqn:Hqu; [done|].
    destruct (apply_wildcard_plan_cases opts c j q init Hq)
      as [(_ & Hempty & Hcall)|(_ & nf & c' & Hcall & Hc')];
      rewrite Hcall; simpl.
    + rewrite bool_decide_eq_false_2 by lia. simpl.
      rewrite bool_decide_eq_true_2 by done. simpl.
      rewrite (bool_decide_eq_true_2 _ Hempty). simpl.
      split; [done|]. intros fl c1 ?. simplify_eq. right. split; [done|].
      by exists j, q.
    + assert (concrete_solution_index c' = (-1)%Z) as Hindex'
          by (by destruct Hc' as [->|[_ ->]]).
      rewrite (bool_decide_eq_true_2 _ Hindex'). simpl. by apply IH.
Qed.

Lemma handle_flaw_returns (c : Cegar) f p :
  map_sound c →
  projection_collection c !! collection_index f = Some (Some p) →
  variable_to_projection c !! variable f ≠ Some (collection_index f) →
  ∃ c', handle_flaw opts c f = Returns c' ∧
        concrete_solution_index c' = concrete_solution_index c.
Proof.
  intros Hmap Hp Hother. unfold handle_flaw.
  destruct (variable_to_projection c !! variable f) as [j|] eqn:Hv.
  - rewrite bool_decide_eq_false_2 by congruence. simpl.
    destruct (Hmap _ _ Hv) as (q & Hq & _). rewrite Hq. simpl.
    unfold can_merge_patterns, merge_patterns.
    rewrite (proj2 (deref_Returns c _ p) Hp), (proj2 (deref_Returns c j q) Hq).
    simpl. destruct (negb _); simpl; [by eexists|].
    destruct (bool_decide _); simpl; [|by eexists].
    destruct (compute_projection _ _ _ _). by eexists.
  - unfold can_add_variable_to_pattern, add_variable_to_pattern.
    rewrite (proj2 (deref_Returns c _ p) Hp). simpl.
    destruct (negb _); simpl; [by eexists|].
    destruct (bool_decide _); simpl; [|by eexists].
    destruct (compute_projection _ _ _ _). by eexists.
Qed.

(** What holds at the head of the loop. *)
Definition loop_invariant (c : Cegar) : Prop :=
  map_sound c ∧ plans_hold opts c ∧ concrete_solution_index c = (-1)%Z.

Lemma iteration_regular timer poll refinement_counter c :
  rng_in_bounds → extractor_contract opts →
  no_conditional_effects (task opts) = true →
  (∀ g, g ∈ goals opts → g ∈ get_goals (task opts)) →
  loop_invariant c →
  regular (iteration opts timer poll refinement_counter c) ∧
  (∀ c', iteration opts timer poll refinement_counter c = Returns (Continue c') →
         loop_invariant c') ∧
  (∀ c', iteration opts timer poll refinement_counter c = Returns (Break c') →
         index_valid c').
Proof.
  intros Hrng Hcontract Hnce Hgoals (Hmap & Hplans & Hindex).
  unfold iteration.
  destruct (termination_conditions_met _ _ _ _).
  { split; [done|]. split; [done|]. intros c' ?. simplify_eq. by left. }
  destruct (get_flaws_loop_regular (seq 0 (length (projection_collection c))) [] c
              Hindex) as [Hreg Hret].
  fold (get_flaws opts c) in Hreg, Hret.
  destruct (get_flaws opts c) as [[flaws c1]| | |] eqn:Hget; try done. simpl.
  specialize (Hret flaws c1 eq_refl).
  destruct flaws as [|f0 flaws].
  { split; [done|]. split; [done|]. intros c' ?. simplify_eq.
    destruct Hret as [?|(_ & i & p & ? & ?)]; [by left|right; by exists i, p]. }
  destruct Hret as [Hindex1|[? _]]; [|done].
  destruct (time_limit_reached _ _).
  { split; [done|]. split; [done|]. intros c' ?. simplify_eq. by left. }
  assert (map_sound c1) as Hmap1
      by (by eapply (get_flaws_stable opts _ c); [apply map_sound_stable|..]).
  assert (plans_hold opts c1) as Hplans1
      by (by eapply (get_flaws_stable opts _ c); [apply plans_hold_stable|..]).
  assert (∃ c2, refine opts c1 (f0 :: flaws) = Returns c2 ∧
                concrete_solution_index c2 = concrete_solution_index c1)
    as (c2 & Hrefine & Hindex2).
  { unfold refine. simpl.
    destruct (rng_draw (rng c1) (S (length flaws))) as [k r'] eqn:Hdraw.
    pose proof (Hrng (rng c1) (S (length flaws)) ltac:(lia)) as Hk.
    rewrite Hdraw in Hk. simpl in Hk.
    destruct (lookup_lt_is_Some_2 (f0 :: flaws) k Hk) as [f Hf].
    simpl.
    match goal with
    | |- context [match ?x with _ => _ end] => change x with ((f0 :: flaws) !! k)
    end.
    rewrite Hf.
    destruct (flaws_outside_own_pattern opts c _ c1 Hmap
                (plans_hold_valid opts c Hnce Hplans) Hgoals Hget f)
      as ((p & Hp & _) & Hother & _); [by eapply list_elem_of_lookup_2|].
    by apply (handle_flaw_returns (set_rng c1 r') f p). }
  rewrite Hrefine. simpl. split; [done|]. split; [|done].
  intros c' ?. simplify_eq.
  split; [by eapply (refine_stable opts _ c1); [apply map_sound_stable|..]|].
  split; [by eapply (refine_stable opts _ c1); [apply plans_hold_stable|..]|].
  by rewrite Hindex2.
Qed.

Lemma main_loop_regular timer fuel :
  rng_in_bounds → extractor_contract opts →
  no_conditional_effects (task opts) = true →
  (∀ g, g ∈ goals opts → g ∈ get_goals (task opts)) →
  ∀ poll refinement_counter c o,
    loop_invariant c →
    main_loop opts fuel timer poll refinement_counter c = Some o →
    regular o ∧ ∀ c', o = Returns c' → index_valid c'.
Proof.
  intros Hrng Hcontract Hnce Hgoals.
  induction fuel as [|fuel IH]; intros poll counter c o Hinv Hrun; [done|].
  simpl in Hrun.
  destruct (iteration_regular timer poll counter c Hrng Hcontract Hnce Hgoals Hinv)
    as (Hreg & Hcont & Hbreak).
  destruct (iteration opts timer poll counter c) as [[c1|c1]| | |]; try done.
  - simplify_eq. split; [done|]. intros c' ?. simplify_eq. by apply Hbreak.
  - eapply IH; [|done]. by apply Hcont.
  - by simplify_eq.
Qed.

Lemma collect_regular c : index_valid c → regular (collect c).
Proof.
  unfold collect. intros [Hi|(i & p & Hi & Hp)].
  - by rewrite (bool_decide_eq_true_2 _ Hi).
  - rewrite Hi, Nat2Z.id, (proj2 (deref_Returns c i p) Hp).
    by destruct (negb _).
Qed.

Lemma cegar_regular fuel clock initial_blacklist r o :
  rng_in_bounds → extractor_contract opts →
  no_conditional_effects (task opts) = true →
  goals opts ≠ [] →
  cegar opts fuel clock initial_blacklist r = Some o →
  regular o.
Proof.
  intros Hrng Hcontract Hnce Hne Hrun.
  unfold cegar in Hrun.
  destruct (forallb _ (goals opts)) eqn:Hall; [|by simplify_eq].
  assert (∀ g, g ∈ goals opts → g ∈ get_goals (task opts)) as Hgoals.
  { intros g Hg. rewrite forallb_forall in Hall.
    by apply list_elem_of_In, Hall, bool_decide_eq_true in Hg. }
  unfold run, run_from in Hrun.
  destruct (compute_initial_collection opts _) as [c0| | |] eqn:Hinit.
  - assert (reachable opts initial_blacklist r c0) as Hreach
        by (by exists c0).
    assert (loop_invariant c0) as Hinv.
    { split; [by eapply reachable_map_sound|].
      split; [by eapply reachable_plans_hold|].
      apply compute_initial_collection_Returns in Hinit as ->.
      by destruct (initial_collection_spec opts (goals opts)
                     (Cegar_new initial_blacklist r)) as (_ & -> & _). }
    unfold run_loop in Hrun.
    destruct (main_loop opts fuel _ 0 0%Z c0) as [o1|] eqn:Hloop; [|done].
    destruct (main_loop_regular _ _ Hrng Hcontract Hnce Hgoals _ _ _ _ Hinv Hloop)
      as [Hreg Hvalid].
    simplify_eq. destruct o1 as [c1| | |]; try done. simpl.
    by apply collect_regular, Hvalid.
  - by simplify_eq.
  - unfold compute_initial_collection in Hinit.
    by rewrite (bool_decide_eq_false_2 _ Hne) in Hinit.
  - unfold compute_initial_collection in Hinit.
    by rewrite (bool_decide_eq_false_2 _ Hne) in Hinit.
Qed.

(** X11. Under the contracts of the collaborators (the generator draws
    below its bound, the plan extractor returns plans of the projection)
    and for a task without conditional effects, [cegar] called with at
    least one goal ends, and ends with a collection or with an exit: none
    of the assertions of [compute_initial_collection], [get_flaws],
    [handle_flaw] and [refine] fails, no null slot of
    [projection_collection] is dereferenced, and neither
    [projection_collection] nor the flaw list is indexed past its end.
    These are the accesses that end in [AssertionFailed] or [Undefined]
    in the model.  The reads of the task's own tables (operators by id,
    state values and domain sizes by variable) are total in the model, and
    the task has no axioms there: the statement says nothing about
    them. *)
Theorem X11_regular_end clock initial_blacklist r :
  rng_in_bounds → extractor_contract opts →
  no_conditional_effects (task opts) = true →
  goals opts ≠ [] →
  (∀ fuel o, cegar opts fuel clock initial_blacklist r = Some o →
             o ≠ AssertionFailed ∧ o ≠ Undefined) ∧
  (∃ o, cegar opts (S (length (goals opts) + 2 * size (flaw_candidates opts)))
              clock initial_blacklist r = Some o ∧
        o ≠ AssertionFailed ∧ o ≠ Undefined).
Proof.
  intros Hrng Hcontract Hnce Hne.
  assert (∀ fuel o, cegar opts fuel clock initial_blacklist r = Some o →
                    o ≠ AssertionFailed ∧ o ≠ Undefined) as Hreg.
  { intros fuel o Hrun.
    pose proof (cegar_regular _ _ _ _ _ Hrng Hcontract Hnce Hne Hrun).
    by destruct o. }
  split; [done|].
  assert (∃ o, cegar opts (S (length (goals opts) + 2 * size (flaw_candidates opts)))
                     clock initial_blacklist r = Some o) as [o Ho].
  { unfold cegar. destruct (forallb _ _); [apply run_terminates|eauto]. }
  exists o. split; [done|]. by eapply Hreg.
Qed.

End safety.

(** ** The shape of the result *)

Section result_shape.
Context `{Collaborators} (opts : Options).

Definition some_slot_live (c : Cegar) : Prop :=
  ∃ i p, projection_collection c !! i = Some (Some p).

Lemma length_pdbs_of c : length (pdbs_of c) = length (projection_collection c).
Proof. unfold pdbs_of. apply length_map. Qed.

Lemma slot_count_stable n :
  Stable opts (fun c => length (projection_collection c) = n).
Proof.
  split; try done.
  - intros c c' [_ _ _ _ _ Hslots] <-. symmetry. by eapply Forall2_length.
  - intros c i j c' _ Hrun <-.
    apply merge_patterns_collection in Hrun as (pattern & r & Hcoll).
    cbv beta. by rewrite Hcoll, !length_insert.
  - intros c i v c' _ Hrun <-.
    apply add_variable_to_pattern_collection in Hrun as (pattern & r & Hcoll).
    cbv beta. by rewrite Hcoll, length_insert.
Qed.

Lemma some_slot_live_stable : Stable opts some_slot_live.
Proof.
  split; try done.
  - intros c c' [_ _ _ _ _ Hslots] (i & p & Hp).
    destruct (Forall2_lookup_l _ _ _ _ _ Hslots Hp) as (o & Ho & Hm).
    destruct Hm as [->|(q & ? & ->)]; by eexists i, _.
  - intros c i j c' Hij Hrun _.
    destruct (merge_patterns_spec opts c i j c' Hrun) as (pi & _ & Hpi & _).
    apply merge_patterns_collection in Hrun as (pattern & r & Hcoll).
    unfold some_slot_live. rewrite Hcoll.
    eexists i, _. rewrite list_lookup_insert_ne by done.
    apply list_lookup_insert_eq. by eapply lookup_lt_Some.
  - intros c i v c' _ Hrun _.
    destruct (add_variable_to_pattern_spec opts c i v c' Hrun) as (p & Hp & _).
    apply add_variable_to_pattern_collection in Hrun as (pattern & r & Hcoll).
    unfold some_slot_live. rewrite Hcoll.
    eexists i, _. apply list_lookup_insert_eq. by eapply lookup_lt_Some.
Qed.

Lemma live_count_pos {A} (l : list (option A)) i x :
  l !! i = Some (Some x) → 1 ≤ length (omap id l).
Proof.
  intros Hi.
  assert (x ∈ omap id l) as Hx.
  { apply list_elem_of_omap. exists (Some x). split; [|done].
    by eapply list_elem_of_lookup_2. }
  destruct (omap id l); [by apply elem_of_nil in Hx|simpl; lia].
Qed.

Lemma run_returns fuel clock initial_blacklist r result :
  run opts fuel clock initial_blacklist r = Some (Returns result) →
  goals opts ≠ [] ∧
  ∃ c, reachable opts initial_blacklist r c ∧ collect c = Returns result.
Proof.
  unfold run, run_from. intros Hrun.
  destruct (compute_initial_collection opts _) as [c0| | |] eqn:Hinit; try done.
  split.
  { intros Hnil. unfold compute_initial_collection in Hinit.
    by rewrite Hnil in Hinit. }
  unfold run_loop in Hrun.
  destruct (main_loop opts fuel _ 0 0%Z c0) as [[c1| | |]|] eqn:Hloop;
    simpl in Hrun; try done.
  exists c1. split; [|by simplify_eq].
  exists c0. split; [done|]. by eapply main_loop_passes.
Qed.


End result_shape.

(** ** Variables stay in the collection *)

Section coverage.
Context `{Collaborators} (opts : Options).

(** The variable lies in the pattern of some live slot. *)
Definition covered (v : nat) (c : Cegar) : Prop :=
  ∃ j p, projection_collection c !! j = Some (Some p) ∧ v ∈ get_pattern p.

Definition covered_on (v : nat) (l : list (option PatternDatabase)) : Prop :=
  ∃ j d, l !! j = Some (Some d) ∧ v ∈ pdb_pattern d.

Lemma covered_alt v c : covered v c ↔ covered_on v (pdbs_of c).
Proof.
  split.
  - intros (j & p & Hp & Hv). exists j, (get_pdb p). split; [|done].
    by apply pdbs_of_lookup.
  - intros (j & d & Hd & Hv). apply pdbs_of_lookup_inv in Hd as (p & Hp & <-).
    by exists j, p.
Qed.

Lemma covered_stable v : Stable opts (covered v).
Proof.
  split; try done.
  - intros c c' Hmarked. rewrite !covered_alt.
    by rewrite (marked_pdbs_of _ _ Hmarked).
  - intros c i j c' Hij Hrun. rewrite !covered_alt.
    destruct (merge_patterns_spec opts c i j c' Hrun)
      as (pi & pj & Hpi & Hpj & -> & _).
    intros (k & d & Hd & Hv).
    assert (i < length (pdbs_of c)) as Hilt
        by (rewrite length_pdbs_of; by eapply lookup_lt_Some).
    destruct (decide (k = i ∨ k = j)) as [Hk|Hk].
    + eexists i, _. rewrite list_lookup_insert_ne by done.
      rewrite list_lookup_insert_eq by done. split; [done|]. simpl.
      apply elem_of_sort, elem_of_app.
      destruct Hk as [->| ->].
      * left. apply pdbs_of_lookup in Hpi. by simplify_eq.
      * right. apply pdbs_of_lookup in Hpj. by simplify_eq.
    + exists k, d. split; [|done].
      rewrite !list_lookup_insert_ne by (intros ->; apply Hk; auto). done.
  - intros c i w c' _ Hrun. rewrite !covered_alt.
    destruct (add_variable_to_pattern_spec opts c i w c' Hrun)
      as (p & Hp & -> & _).
    intros (k & d & Hd & Hv).
    destruct (decide (k = i)) as [->|Hk].
    + eexists i, _. rewrite list_lookup_insert_eq
        by (rewrite length_pdbs_of; by eapply lookup_lt_Some).
      split; [done|]. simpl. apply elem_of_sort, elem_of_app. left.
      apply pdbs_of_lookup in Hp. by simplify_eq.
    + exists k, d. by rewrite list_lookup_insert_ne.
Qed.

Lemma initial_collection_covers gs c g :
  g ∈ gs →
  covered (var g) (foldl (fun c goal => add_pattern_for_var opts c (var goal)) c gs).
Proof.
  intros (k & Hk)%list_elem_of_lookup.
  destruct (initial_collection_spec opts gs c) as (_ & _ & _ & _ & Hslots).
  destruct (Hslots k g Hk) as (p & Hp & Hpdb & _).
  exists (length (projection_collection c) + k), p. split; [done|].
  unfold get_pattern. rewrite Hpdb. simpl. by left.
Qed.

Lemma reachable_covered initial_blacklist r c g :
  reachable opts initial_blacklist r c → g ∈ goals opts → covered (var g) c.
Proof.
  intros Hc Hg.
  eapply reachable_stable; [apply covered_stable| |done].
  intros c0 ->%compute_initial_collection_Returns.
  by apply initial_collection_covers.
Qed.

(** X13. A variable that lies in the pattern of a live slot lies in the
    pattern of a live slot after every pass of the loop: refinement never
    takes a variable out of the collection.  Hence every given goal
    variable is in a live pattern in every state of a run, and a returned
    collection that is not the single pattern of a concrete solution covers
    all given goal variables. *)
Theorem X13_variables_stay_covered :
  (∀ c c' v, pass opts c c' → covered v c → covered v c') ∧
  (∀ initial_blacklist r c g,
     reachable opts initial_blacklist r c → g ∈ goals opts → covered (var g) c) ∧
  (∀ fuel clock initial_blacklist r result,
     run opts fuel clock initial_blacklist r = Some (Returns result) →
     ∃ c, reachable opts initial_blacklist r c ∧ collect c = Returns result ∧
          (concrete_solution_index c = (-1)%Z →
           ∀ g, g ∈ goals opts →
                ∃ pattern, pattern ∈ get_patterns result ∧ var g ∈ pattern)).
Proof.
  split; [|split].
  - intros c c' v Hpass. by apply (pass_stable opts _ c c' (covered_stable v)).
  - apply reachable_covered.
  - intros fuel clock initial_blacklist r result
      (_ & c & Hc & Hcollect)%run_returns.
    exists c. split; [done|]. split; [done|]. intros Hindex g Hg.
    destruct (reachable_covered _ _ _ _ Hc Hg) as (j & p & Hp & Hv).
    unfold collect in Hcollect.
    rewrite (bool_decide_eq_true_2 _ Hindex) in Hcollect. simpl in Hcollect.
    simplify_eq. simpl. exists (get_pattern p). split; [|done].
    apply list_elem_of_fmap. exists p. split; [done|].
    apply list_elem_of_omap. exists (Some p). split; [|done].
    by eapply list_elem_of_lookup_2.
Qed.

End coverage.

(** ** The variable map, entry by entry *)

Section variable_map.
Context `{Collaborators} (opts : Options).

(** X14. [variable_to_projection] after each operation: [add_pattern_for_var]
    points the variable to the new last slot, [merge_patterns] re-points
    every variable of the second pattern to the first slot,
    [add_variable_to_pattern] points the new variable to the extended slot,
    and no other entry changes.  In every state of a run an entry [v ↦ j]
    names a live slot [j] whose pattern holds [v]; when the given goals
    name pairwise distinct variables the map is exactly the inverse of the
    live patterns. *)
Theorem X14_variable_map :
  (∀ (c : Cegar) v w,
     variable_to_projection (add_pattern_for_var opts c v) !! w
     = if decide (v = w) then Some (length (projection_collection c))
       else variable_to_projection c !! w) ∧
  (∀ c i j c',
     merge_patterns opts c i j = Returns c' →
     ∃ pj, projection_collection c !! j = Some (Some pj) ∧
           ∀ w, variable_to_projection c' !! w
                = if decide (w ∈ get_pattern pj) then Some i
                  else variable_to_projection c !! w) ∧
  (∀ c i v c',
     add_variable_to_pattern opts c i v = Returns c' →
     ∀ w, variable_to_projection c' !! w
          = if decide (v = w) then Some i else variable_to_projection c !! w) ∧
  (∀ initial_blacklist r c v j,
     reachable opts initial_blacklist r c →
     variable_to_projection c !! v = Some j →
     ∃ p, projection_collection c !! j = Some (Some p) ∧ v ∈ get_pattern p) ∧
  (NoDup (map var (goals opts)) →
   ∀ initial_blacklist r c v j,
     reachable opts initial_blacklist r c →
     (variable_to_projection c !! v = Some j ↔
      ∃ p, projection_collection c !! j = Some (Some p) ∧ v ∈ get_pattern p)).
Proof.
  split; [|split; [|split; [|split]]].
  - intros c v w.
    destruct (add_pattern_for_var_spec opts c v) as (_ & -> & _).
    apply lookup_insert.
  - intros c i j c' Hrun.
    destruct (merge_patterns_spec opts c i j c' Hrun)
      as (pi & pj & _ & Hpj & _ & -> & _).
    exists pj. split; [done|]. intros w. apply lookup_foldl_insert.
  - intros c i v c' Hrun w.
    destruct (add_variable_to_pattern_spec opts c i v c' Hrun)
      as (p & _ & _ & -> & _).
    apply lookup_insert.
  - intros initial_blacklist r c v j Hc.
    apply (reachable_map_sound opts _ _ _ Hc).
  - intros Hnd initial_blacklist r c v j Hc.
    destruct (reachable_map_invariant opts _ _ _ Hnd Hc) as [Hsound Hcomplete].
    split; [apply Hsound|]. intros (p & Hp & Hv). by eapply Hcomplete.
Qed.

End variable_map.

(** ** Patterns are ascending *)

Section sorted_patterns.
Context `{Collaborators} (opts : Options).

Definition ascending_on (l : list (option PatternDatabase)) : Prop :=
  ∀ i d, l !! i = Some (Some d) → StronglySorted le (pdb_pattern d).

Definition distinct_on (l : list (option PatternDatabase)) : Prop :=
  ∀ i d, l !! i = Some (Some d) → NoDup (pdb_pattern d).

Lemma sort_ascending pattern : StronglySorted le (sort pattern).
Proof. unfold sort. apply StronglySorted_merge_sort; apply _. Qed.

Lemma sort_NoDup pattern : NoDup pattern → NoDup (sort pattern).
Proof. unfold sort. by rewrite merge_sort_Permutation. Qed.

Lemma ascending_stable : Stable opts (fun c => ascending_on (pdbs_of c)).
Proof.
  split; try done.
  - intros c c' Hmarked. by rewrite (marked_pdbs_of _ _ Hmarked).
  - intros c i j c' Hij Hrun Hasc.
    destruct (merge_patterns_spec opts c i j c' Hrun) as (pi & pj & _ & _ & Hpdbs & _).
    cbv beta. rewrite Hpdbs. intros k d Hd.
    destruct (decide (k = j)) as [->|Hkj].
    { apply list_lookup_insert_Some in Hd as [(_ & ? & _)|[? _]]; done. }
    rewrite list_lookup_insert_ne in Hd by done.
    destruct (decide (k = i)) as [->|Hki].
    + apply list_lookup_insert_Some in Hd as [(_ & ? & _)|[? _]]; [|done].
      simplify_eq. apply sort_ascending.
    + rewrite list_lookup_insert_ne in Hd by done. by eapply Hasc.
  - intros c i v c' _ Hrun Hasc.
    destruct (add_variable_to_pattern_spec opts c i v c' Hrun) as (p & _ & Hpdbs & _).
    cbv beta. rewrite Hpdbs. intros k d Hd.
    destruct (decide (k = i)) as [->|Hki].
    + apply list_lookup_insert_Some in Hd as [(_ & ? & _)|[? _]]; [|done].
      simplify_eq. apply sort_ascending.
    + rewrite list_lookup_insert_ne in Hd by done. by eapply Hasc.
Qed.

Lemma distinct_stable :
  Stable opts (fun c => map_invariant c ∧ distinct_on (pdbs_of c)).
Proof.
  destruct (map_invariant_stable opts) as [Hm1 Hm2 Hm3 Hm4 Hm5 Hm6].
  split.
  - intros c c' Hmarked [Hmap Hd]. split; [by eapply Hm1|].
    by rewrite (marked_pdbs_of _ _ Hmarked).
  - intros c z Hb [Hmap Hd]. split; [by apply Hm2|done].
  - intros c r [Hmap Hd]. split; [by apply Hm3|done].
  - intros c v [Hmap Hd]. split; [by apply Hm4|done].
  - intros c i j c' Hij Hrun [Hmap Hdis]. split; [by eapply Hm5|].
    destruct (merge_patterns_spec opts c i j c' Hrun)
      as (pi & pj & Hpi & Hpj & Hpdbs & _).
    rewrite Hpdbs. intros k d Hd.
    destruct (decide (k = j)) as [->|Hkj].
    { apply list_lookup_insert_Some in Hd as [(_ & ? & _)|[? _]]; done. }
    rewrite list_lookup_insert_ne in Hd by done.
    destruct (decide (k = i)) as [->|Hki].
    + apply list_lookup_insert_Some in Hd as [(_ & ? & _)|[? _]]; [|done].
      simplify_eq. simpl. apply sort_NoDup, NoDup_app.
      split; [apply (Hdis i (get_pdb pi)); by apply pdbs_of_lookup|].
      split; [|apply (Hdis j (get_pdb pj)); by apply pdbs_of_lookup].
      intros v Hv. by apply (map_invariant_disjoint c Hmap i j pi pj).
    + rewrite list_lookup_insert_ne in Hd by done. by eapply Hdis.
  - intros c i v c' Hnone Hrun [Hmap Hdis]. split; [by eapply Hm6|].
    destruct (add_variable_to_pattern_spec opts c i v c' Hrun)
      as (p & Hp & Hpdbs & _).
    rewrite Hpdbs. intros k d Hd.
    destruct (decide (k = i)) as [->|Hki].
    + apply list_lookup_insert_Some in Hd as [(_ & ? & _)|[? _]]; [|done].
      simplify_eq. simpl. apply sort_NoDup, NoDup_app.
      split; [apply (Hdis i (get_pdb p)); by apply pdbs_of_lookup|].
      split; [|apply NoDup_singleton].
      intros w Hw ->%list_elem_of_singleton.
      destruct Hmap as [_ Hcomplete].
      rewrite (Hcomplete i p v Hp Hw) in Hnone. done.
    + rewrite list_lookup_insert_ne in Hd by done. by eapply Hdis.
Qed.

Lemma initial_pdbs_singletons initial_blacklist r c0 i d :
  compute_initial_collection opts (Cegar_new initial_blacklist r) = Returns c0 →
  pdbs_of c0 !! i = Some (Some d) → ∃ v, pdb_pattern d = [v].
Proof.
  intros ->%compute_initial_collection_Returns.
  rewrite initial_collection_pdbs. simpl. rewrite list_lookup_fmap.
  destruct (goals opts !! i) as [g|]; simpl; [|done].
  intros ?. simplify_eq. by exists (var g).
Qed.

Lemma ascending_distinct (l : list nat) :
  StronglySorted le l → NoDup l → StronglySorted lt l.
Proof.
  induction 1 as [|x l Hsorted IH Hall]; intros Hnd; [constructor|].
  apply NoDup_cons in Hnd as [Hx Hnd]. constructor; [by apply IH|].
  rewrite Forall_forall in Hall. apply Forall_forall. intros y Hy.
  pose proof (Hall y Hy). assert (x ≠ y) by (by intros ->). lia.
Qed.

(** X15. In every state of a run the pattern of every live slot is in
    ascending order, as [sort] leaves it; when the given goals name
    pairwise distinct variables no pattern repeats a variable, so every
    pattern is strictly ascending. *)
Theorem X15_patterns_ascending initial_blacklist r c i p :
  reachable opts initial_blacklist r c →
  projection_collection c !! i = Some (Some p) →
  StronglySorted le (get_pattern p) ∧
  (NoDup (map var (goals opts)) → StronglySorted lt (get_pattern p)).
Proof.
  intros Hc Hp.
  assert (StronglySorted le (get_pattern p)) as Hasc.
  { apply (reachable_stable opts (fun c => ascending_on (pdbs_of c))
             initial_blacklist r c ascending_stable) with (i := i); [|done|].
    - intros c0 Hc0 k d Hd.
      destruct (initial_pdbs_singletons _ _ _ _ _ Hc0 Hd) as [v ->].
      repeat constructor.
    - by apply pdbs_of_lookup. }
  split; [done|]. intros Hnd. apply ascending_distinct; [done|].
  apply (reachable_stable opts
           (fun c => map_invariant c ∧ distinct_on (pdbs_of c))
           initial_blacklist r c distinct_stable) with (i := i); [|done|].
  - intros c0 Hc0. split.
    + apply (reachable_map_invariant opts initial_blacklist r); [done|].
      by exists c0.
    + intros k d Hd.
      destruct (initial_pdbs_singletons _ _ _ _ _ Hc0 Hd) as [v ->].
      apply NoDup_singleton.
  - by apply pdbs_of_lookup.
Qed.

End sorted_patterns.

(** ** The size arithmetic *)

Section size_arithmetic.
Context `{Collaborators} (opts : Options).

Lemma product_guard_exact a b limit :
  (0 ≤ a ≤ Int.max_int)%Z → (0 ≤ b ≤ Int.max_int)%Z →
  (0 ≤ limit ≤ Int.max_int)%Z →
  is_product_within_limit a b limit = true →
  (a * b ≤ limit)%Z ∧
  Int.mul a b = (a * b)%Z ∧
  Int.sub (Int.mul a b) a = (a * b - a)%Z ∧
  Int.sub (Int.sub (Int.mul a b) a) b = (a * b - a - b)%Z.
Proof.
  intros Ha Hb Hl Hguard.
  apply is_product_within_limit_spec in Hguard; [|lia..].
  assert (0 ≤ a * b)%Z by nia.
  unfold Int.sub, Int.mul.
  assert (Int.wrap (a * b) = (a * b)%Z) as ->.
  { apply wrap_in_range. unfold Int.in_range, Int.min_int. lia. }
  assert (Int.wrap (a * b - a) = (a * b - a)%Z) as ->.
  { apply wrap_in_range. unfold Int.in_range, Int.min_int, Int.max_int in *. lia. }
  split; [done|]. split; [done|]. split; [done|].
  apply wrap_in_range. unfold Int.in_range, Int.min_int, Int.max_int in *.
  assert (a = 0 ∨ b = 0 ∨ (1 ≤ a ∧ 1 ≤ b))%Z as [->|[->|[? ?]]] by lia; [lia|lia|nia].
Qed.

(** X16. The products in the two size tests do not overflow.  For PDB
    sizes, a domain size and a [max_pdb_size] that are non-negative [int]
    values, [can_merge_patterns] and [can_add_variable_to_pattern] answer
    [true] exactly when the product is within [max_pdb_size] and
    [collection_size] plus the exactly computed increase
    ([s1 * s2 - s1 - s2], or [s * d - s]) is within [max_collection_size];
    the only [int] operation that can wrap is that last addition. *)
Theorem X16_size_tests_exact (c : Cegar) :
  (0 ≤ max_pdb_size opts ≤ Int.max_int)%Z →
  (∀ i j pi pj,
     projection_collection c !! i = Some (Some pi) →
     projection_collection c !! j = Some (Some pj) →
     (0 ≤ get_size (get_pdb pi) ≤ Int.max_int)%Z →
     (0 ≤ get_size (get_pdb pj) ≤ Int.max_int)%Z →
     let s1 := get_size (get_pdb pi) in
     let s2 := get_size (get_pdb pj) in
     can_merge_patterns opts c i j
     = Returns (bool_decide (s1 * s2 ≤ max_pdb_size opts)%Z
                && bool_decide (Int.wrap (collection_size c + (s1 * s2 - s1 - s2))
                                ≤ max_collection_size opts)%Z)) ∧
  (∀ i v p,
     projection_collection c !! i = Some (Some p) →
     (0 ≤ get_size (get_pdb p) ≤ Int.max_int)%Z →
     (0 ≤ get_domain_size (task opts) v ≤ Int.max_int)%Z →
     let s := get_size (get_pdb p) in
     let d := get_domain_size (task opts) v in
     can_add_variable_to_pattern opts c i v
     = Returns (bool_decide (s * d ≤ max_pdb_size opts)%Z
                && bool_decide (Int.wrap (collection_size c + (s * d - s))
                                ≤ max_collection_size opts)%Z)).
Proof.
  intros Hmax. split.
  - intros i j pi pj Hpi Hpj Hs1 Hs2 s1 s2. unfold can_merge_patterns.
    rewrite (proj2 (deref_Returns c i pi) Hpi),
            (proj2 (deref_Returns c j pj) Hpj). simpl. fold s1 s2.
    destruct (is_product_within_limit s1 s2 (max_pdb_size opts)) eqn:Hguard; simpl.
    + destruct (product_guard_exact s1 s2 _ Hs1 Hs2 Hmax Hguard)
        as (Hle & _ & _ & ->).
      by rewrite (bool_decide_eq_true_2 _ Hle).
    + rewrite bool_decide_eq_false_2; [done|]. intros Hle.
      apply (is_product_within_limit_spec s1 s2) in Hle; [|lia..]. congruence.
  - intros i v p Hp Hs Hd s d. unfold can_add_variable_to_pattern.
    rewrite (proj2 (deref_Returns c i p) Hp). simpl. fold s d.
    destruct (is_product_within_limit s d (max_pdb_size opts)) eqn:Hguard; simpl.
    + destruct (product_guard_exact s d _ Hs Hd Hmax Hguard)
        as (Hle & _ & -> & _).
      by rewrite (bool_decide_eq_true_2 _ Hle).
    + rewrite bool_decide_eq_false_2; [done|]. intros Hle.
      apply (is_product_within_limit_spec s d) in Hle; [|lia..]. congruence.
Qed.

End size_arithmetic.

(** ** What detection leaves alone *)

Section detection_frame.
Context `{Collaborators} (opts : Options).

Lemma marked_slot c c' i p' :
  marked c c' →
  projection_collection c' !! i = Some (Some p') →
  ∃ p, projection_collection c !! i = Some (Some p) ∧
       get_pdb p' = get_pdb p ∧ get_plan p' = get_plan p ∧
       is_unsolvable p' = is_unsolvable p ∧
       (is_solved p = true → is_solved p' = true).
Proof.
  intros [_ _ _ _ _ Hslots] Hp'.
  destruct (Forall2_lookup_r _ _ _ _ _ Hslots Hp') as (o & Ho & Hm).
  destruct Hm as [?|(p & -> & ?)]; simplify_eq; eauto 10.
Qed.

(** X17. Flaw detection reads the collection and writes two things only:
    solved flags, which it sets and never clears, and
    [concrete_solution_index], which it writes only under an empty
    blacklist and together with an empty flaw list.  PDBs, plans,
    unsolvable flags, the variable map, the blacklist, [collection_size]
    and the generator are as before, and no slot appears or disappears. *)
Theorem X17_detection_frame (c : Cegar) flaws c' :
  get_flaws opts c = Returns (flaws, c') →
  pdbs_of c' = pdbs_of c ∧
  variable_to_projection c' = variable_to_projection c ∧
  blacklisted_variables c' = blacklisted_variables c ∧
  collection_size c' = collection_size c ∧
  rng c' = rng c ∧
  (∀ i p', projection_collection c' !! i = Some (Some p') →
     ∃ p, projection_collection c !! i = Some (Some p) ∧
          get_pdb p' = get_pdb p ∧ get_plan p' = get_plan p ∧
          is_unsolvable p' = is_unsolvable p ∧
          (is_solved p = true → is_solved p' = true)) ∧
  (concrete_solution_index c' ≠ concrete_solution_index c →
   blacklisted_variables c = ∅ ∧
   (concrete_solution_index c = (-1)%Z → flaws = [])).
Proof.
  intros Hget.
  destruct (get_flaws_loop_frame opts _ _ _ _ _ Hget) as (c2 & Hmarked & Hc').
  pose proof (marked_pdbs_of _ _ Hmarked) as Hpdbs.
  pose proof (fun i p' => marked_slot c c2 i p' Hmarked) as Hslot.
  destruct Hmarked as [Hb Hr Hm Hs Hi _].
  assert (pdbs_of c' = pdbs_of c ∧
          variable_to_projection c' = variable_to_projection c ∧
          blacklisted_variables c' = blacklisted_variables c ∧
          collection_size c' = collection_size c ∧
          rng c' = rng c ∧
          projection_collection c' = projection_collection c2)
    as (? & ? & ? & ? & ? & Hcoll)
      by (by destruct Hc' as [->|(_ & z & ->)]).
  do 5 (split; [done|]). split.
  { intros i p'. rewrite Hcoll. apply Hslot. }
  intros Hindex.
  destruct Hc' as [->|(Hempty & z & ->)]; [by rewrite Hi in Hindex|].
  split; [done|]. intros Hminus.
  destruct (get_flaws_loop_regular opts
              (seq 0 (length (projection_collection c))) [] c Hminus) as [_ Hret].
  destruct (Hret _ _ Hget) as [Hno|[? _]]; [|done].
  simpl in Hno, Hindex. rewrite Hminus in Hindex. done.
Qed.

End detection_frame.

(** ** The collection as it is logged *)

(** The model of the driver leaves logging out.  [print_collection],
    the one logging routine with a loop of its own, is modelled by what it
    writes to the log, item by item. *)
Inductive LogItem :=
| LogOpen
| LogPattern (pattern : Pattern)
| LogSeparator
| LogClose
| LogEndl.

Section logging.
Context `{Collaborators}.

(** The loop of [print_collection] from index [i] on, over the slots
    still to print; [size] is [projection_collection.size()]. *)
Fixpoint print_slots (size i : nat) (slots : list (option Projection))
  : list LogItem :=
  match slots with
  | [] => []
  | projection :: rest =>
      match projection with
      | Some projection =>
          LogPattern (get_pattern projection)
          :: (if bool_decide (i ≠ size - 1) then [LogSeparator] else [])
      | None => []
      end ++ print_slots size (S i) rest
  end.

Definition print_collection (c : Cegar) : list LogItem :=
  [LogOpen]
  ++ print_slots (length (projection_collection c)) 0 (projection_collection c)
  ++ [LogClose; LogEndl].

Definition logged_pattern (item : LogItem) : option Pattern :=
  match item with LogPattern pattern => Some pattern | _ => None end.

Definition is_separator (item : LogItem) : bool :=
  match item with LogSeparator => true | _ => false end.

(** The last slot of the collection is live. *)
Definition last_slot_live (slots : list (option Projection)) : bool :=
  match last slots with Some (Some _) => true | _ => false end.

Lemma print_slots_patterns size slots :
  ∀ i, omap logged_pattern (print_slots size i slots)
       = map get_pattern (omap id slots).
Proof.
  induction slots as [|[p|] slots IH]; intros i; simpl; [done| |apply IH].
  destruct (bool_decide _); simpl; f_equal; apply IH.
Qed.

Lemma print_slots_separators slots :
  ∀ size i, size = i + length slots →
    length (List.filter is_separator (print_slots size i slots))
    + (if last_slot_live slots then 1 else 0)
    = length (omap id slots).
Proof.
  induction slots as [|o slots IH]; intros size i Hsize; simpl; [done|].
  simpl in Hsize.
  assert (last_slot_live (o :: slots)
          = match slots with
            | [] => match o with Some _ => true | None => false end
            | _ => last_slot_live slots
            end) as Hlast.
  { unfold last_slot_live. destruct slots as [|o' slots]; [by destruct o|].
    by rewrite last_cons_cons. }
  rewrite Hlast. destruct o as [p|]; simpl.
  - destruct slots as [|o' slots].
    + simpl. rewrite bool_decide_eq_false_2 by (simpl in Hsize; lia). done.
    + rewrite bool_decide_eq_true_2 by (simpl in Hsize; lia). simpl.
      f_equal. apply (IH size (S i)). simpl in *. lia.
  - destruct slots as [|o' slots]; [done|].
    apply (IH size (S i)). simpl in *. lia.
Qed.

(** What the loop writes for a live slot that is not the last slot of the
    vector: its pattern and the separator. *)
Definition with_separator (projection : Projection) : list LogItem :=
  [LogPattern (get_pattern projection); LogSeparator].

(** The items between the brackets: every live slot before the last slot
    of the vector with its separator, then the last slot, if it is live,
    without one. *)
Definition logged_slots (slots : list (option Projection)) : list LogItem :=
  match last slots with
  | Some (Some projection) =>
      flat_map with_separator (omap id (removelast slots))
      ++ [LogPattern (get_pattern projection)]
  | _ => flat_map with_separator (omap id slots)
  end.

Lemma logged_slots_cons o o' slots :
  logged_slots (o :: o' :: slots)
  = match o with Some p => with_separator p | None => [] end
    ++ logged_slots (o' :: slots).
Proof.
  unfold logged_slots. rewrite last_cons_cons.
  change (removelast (o :: o' :: slots)) with (o :: removelast (o' :: slots)).
  destruct (last (o' :: slots)) as [[q|]|]; by destruct o.
Qed.

Lemma print_slots_logged slots :
  ∀ size i, size = i + length slots →
    print_slots size i slots = logged_slots slots.
Proof.
  induction slots as [|o slots IH]; intros size i Hsize; [done|].
  destruct slots as [|o' slots].
  - simpl in *. destruct o as [p|]; [|done].
    rewrite bool_decide_eq_false_2 by lia. done.
  - rewrite logged_slots_cons, <- (IH size (S i)) by (simpl in *; lia).
    change (print_slots size i (o :: o' :: slots))
      with (match o with
            | Some projection =>
                LogPattern (get_pattern projection)
                :: (if bool_decide (i ≠ size - 1) then [LogSeparator] else [])
            | None => []
            end ++ print_slots size (S i) (o' :: slots)).
    destruct o as [p|]; [|done].
    rewrite bool_decide_eq_true_2 by (simpl in *; lia). done.
Qed.

(** X18. What [print_collection] writes, item by item.  Between the two
    brackets every live slot is logged in slot order, and the separator
    follows the pattern of every live slot except the last slot of the
    vector: when that slot is live, the log is the patterns of the live
    slots before it, each followed by the separator, and then its pattern
    alone; when it is a null slot left by a merge (or there is no slot),
    every pattern logged, the last one included, is followed by the
    separator.  In particular the patterns logged are those of the live
    slots in slot order, and the separators are as many as the live slots,
    less one when the last slot is live. *)
Theorem X18_print_collection (c : Cegar) :
  match last (projection_collection c) with
  | Some (Some projection) =>
      print_collection c
      = [LogOpen]
        ++ flat_map with_separator
             (omap id (removelast (projection_collection c)))
        ++ [LogPattern (get_pattern projection); LogClose; LogEndl]
  | _ =>
      print_collection c
      = [LogOpen] ++ flat_map with_separator (live_projections c)
        ++ [LogClose; LogEndl]
  end ∧
  omap logged_pattern (print_collection c)
  = map get_pattern (live_projections c) ∧
  length (List.filter is_separator (print_collection c))
  + (if last_slot_live (projection_collection c) then 1 else 0)
  = length (live_projections c).
Proof.
  split; [|split].
  - unfold print_collection. rewrite (print_slots_logged _ _ 0) by done.
    unfold logged_slots, live_projections.
    destruct (last (projection_collection c)) as [[q|]|]; [|done..].
    by rewrite <- !app_assoc.
  - unfold print_collection, live_projections.
    simpl. rewrite omap_app. simpl. rewrite app_nil_r. apply print_slots_patterns.
  - unfold print_collection, live_projections.
    simpl. rewrite List.filter_app. simpl. rewrite app_nil_r.
    by apply print_slots_separators.
Qed.

End logging.

(** ** A recorded solution is a plan of the task *)

(** The operators, applied in turn from [s], are applicable one after the
    other and end in a goal state of the task. *)
Fixpoint is_plan (task : AbstractTask) (s : State) (ops : list nat) : bool :=
  match ops with
  | [] => is_goal_state task s
  | op_id :: rest =>
      applicable s (operator_at task op_id)
      && is_plan task (get_unregistered_successor s (operator_at task op_id)) rest
  end.

Section concrete_solution.
Context `{Collaborators} (opts : Options).
Abbreviation init := (get_initial_state_values (task opts)).

(** The steps of [plan] that were executed, one operator of each, form
    a plan of the task. *)
Definition holds_plan (plan : WildcardPlan) : Prop :=
  ∃ ops executed rest,
    plan = executed ++ rest ∧
    Forall2 (fun op_id step => op_id ∈ step) ops executed ∧
    is_plan (task opts) init ops = true.

Lemma apply_steps_is_plan index plan :
  ∀ s current,
    apply_steps opts ∅ index plan s [] = ([], current) →
    is_goal_state (task opts) current = true →
    ∃ ops executed rest,
      plan = executed ++ rest ∧
      Forall2 (fun op_id step => op_id ∈ step) ops executed ∧
      is_plan (task opts) s ops = true.
Proof.
  induction plan as [|step later IH]; intros s current Hrun Hgoal.
  - simpl in Hrun. simplify_eq. by exists [], [], [].
  - rewrite apply_steps_cons in Hrun.
    destruct (first_applicable opts ∅ s step) as [k|] eqn:Hfirst.
    + destruct (IH _ _ Hrun Hgoal) as (ops & executed & rest & -> & Hops & Hplan).
      unfold first_applicable in Hfirst.
      apply find_some in Hfirst as [Hk Happ].
      rewrite applicable_ignoring_empty in Happ.
      exists (k :: ops), (step :: executed), rest. split; [done|].
      split; [constructor; [by apply list_elem_of_In|done]|].
      simpl. by rewrite Happ.
    + simplify_eq. exists [], [], (step :: later). by repeat split.
Qed.

Lemma executes_to_goal_holds_plan index plan :
  executes_to_goal opts ∅ index plan init = true → holds_plan plan.
Proof.
  unfold executes_to_goal.
  destruct (apply_steps opts ∅ index plan init []) as [flaws current] eqn:Hrun.
  intros [Hnil%bool_decide_eq_true Hgoal]%andb_true_iff. subst flaws.
  by eapply apply_steps_is_plan.
Qed.

(** The solution index names a live slot whose plan was executed to a
    goal state under an empty blacklist. *)
Definition solution_recorded (c : Cegar) : Prop :=
  blacklisted_variables c = ∅ ∧
  ∃ i p, concrete_solution_index c = Z.of_nat i ∧
         projection_collection c !! i = Some (Some p) ∧
         holds_plan (get_plan p).

Lemma get_flaws_loop_solution_recorded indices :
  ∀ flaws c fl c1,
    concrete_solution_index c = (-1)%Z →
    get_flaws_loop opts indices flaws c = Returns (fl, c1) →
    concrete_solution_index c1 = (-1)%Z ∨ (fl = [] ∧ solution_recorded c1).
Proof.
  induction indices as [|j indices IH]; intros flaws c fl c1 Hindex Hrun.
  - simpl in Hrun. simplify_eq. by left.
  - rewrite get_flaws_loop_cons in Hrun.
    destruct (projection_collection c !! j) as [[q|]|] eqn:Hq; [|by eapply IH..].
    destruct (is_solved q) eqn:Hqs; [by eapply IH|].
    destruct (is_unsolvable q) eqn:Hqu; [done|].
    destruct (apply_wildcard_plan_cases opts c j q init Hq)
      as [(Hexec & Hempty & Hcall)|(_ & nf & c' & Hcall & Hc')];
      rewrite Hcall in Hrun; simpl in Hrun.
    + rewrite bool_decide_eq_false_2 in Hrun by lia. simpl in Hrun.
      rewrite bool_decide_eq_true_2 in Hrun by done. simpl in Hrun.
      rewrite (bool_decide_eq_true_2 _ Hempty) in Hrun. simpl in Hrun.
      simplify_eq. right. split; [done|]. split; [done|].
      exists j, q. split; [done|]. split; [done|].
      rewrite Hempty in Hexec. by eapply executes_to_goal_holds_plan.
    + assert (concrete_solution_index c' = (-1)%Z) as Hindex'
          by (by destruct Hc' as [->|[_ ->]]).
      rewrite (bool_decide_eq_true_2 _ Hindex') in Hrun. simpl in Hrun.
      by eapply IH.
Qed.

Lemma handle_flaw_index (c : Cegar) f c' :
  handle_flaw opts c f = Returns c' →
  concrete_solution_index c' = concrete_solution_index c.
Proof.
  unfold handle_flaw. intros Hrun.
  destruct (variable_to_projection c !! variable f) as [j|].
  - apply bind_Returns in Hrun as ([] & _ & Hrun).
    apply bind_Returns in Hrun as (slot & _ & Hrun).
    apply bind_Returns in Hrun as ([] & _ & Hrun).
    apply bind_Returns in Hrun as (can & _ & Hrun).
    destruct can; [|by simplify_eq].
    by destruct (merge_patterns_spec opts _ _ _ _ Hrun)
      as (? & ? & _ & _ & _ & _ & _ & _ & ?).
  - apply bind_Returns in Hrun as (can & _ & Hrun).
    destruct can; [|by simplify_eq].
    by destruct (add_variable_to_pattern_spec opts _ _ _ _ Hrun)
      as (? & _ & _ & _ & _ & _ & ?).
Qed.

Lemma refine_index (c : Cegar) flaws c' :
  refine opts c flaws = Returns c' →
  concrete_solution_index c' = concrete_solution_index c.
Proof.
  unfold refine. intros Hrun.
  apply bind_Returns in Hrun as ([] & _ & Hrun).
  destruct (rng_draw _ _) as [k r']. simpl in Hrun.
  match type of Hrun with
  | match ?x with _ => _ end = _ => destruct x as [f|]; [|done]
  end.
  by apply handle_flaw_index in Hrun.
Qed.

Lemma main_loop_solution_recorded timer fuel :
  ∀ poll refinement_counter c c',
    concrete_solution_index c = (-1)%Z →
    main_loop opts fuel timer poll refinement_counter c = Some (Returns c') →
    concrete_solution_index c' = (-1)%Z ∨ solution_recorded c'.
Proof.
  induction fuel as [|fuel IH]; intros poll counter c c' Hindex Hrun; [done|].
  simpl in Hrun. unfold iteration in Hrun.
  destruct (termination_conditions_met _ _ _ _).
  { simpl in Hrun. simplify_eq. by left. }
  destruct (get_flaws opts c) as [[flaws c1]| | |] eqn:Hget; simpl in Hrun;
    try (by simplify_eq).
  destruct (get_flaws_loop_solution_recorded _ _ _ _ _ Hindex Hget)
    as [Hindex1|[-> Hsol]]; [|simplify_eq; by right].
  destruct flaws as [|f0 flaws]; [simplify_eq; by left|].
  destruct (time_limit_reached _ _); [simplify_eq; by left|].
  destruct (refine opts c1 (f0 :: flaws)) as [c2| | |] eqn:Hrefine;
    simpl in Hrun; try (by simplify_eq).
  eapply IH; [|exact Hrun].
  by rewrite (refine_index _ _ _ Hrefine).
Qed.

(** X19. When [run] returns the single slot of a concrete solution, that
    slot's plan is a plan of the concrete task: the blacklist is empty and,
    taking the executed steps of the plan in order, some operator of each
    is applicable with all its preconditions in the state reached so far,
    and the last state is a goal state of the task.  (The executed steps
    are all steps of the plan, or those before an empty step.) *)
Theorem X19_solution_is_plan fuel clock initial_blacklist r result :
  run opts fuel clock initial_blacklist r = Some (Returns result) →
  ∃ c, reachable opts initial_blacklist r c ∧
       collect c = Returns result ∧
       (concrete_solution_index c ≠ (-1)%Z →
        blacklisted_variables c = ∅ ∧
        ∃ i p ops executed rest,
          concrete_solution_index c = Z.of_nat i ∧
          projection_collection c !! i = Some (Some p) ∧
          result = mkPCI [get_pattern p] [get_pdb p] ∧
          get_plan p = executed ++ rest ∧
          Forall2 (fun op_id step => op_id ∈ step) ops executed ∧
          is_plan (task opts) init ops = true).
Proof.
  unfold run, run_from. intros Hrun.
  destruct (compute_initial_collection opts _) as [c0| | |] eqn:Hinit; try done.
  unfold run_loop in Hrun.
  destruct (main_loop opts fuel _ 0 0%Z c0) as [[c1| | |]|] eqn:Hloop;
    simpl in Hrun; try done.
  exists c1. split; [|split; [by simplify_eq|]].
  { exists c0. split; [done|]. by eapply main_loop_passes. }
  intros Hindex.
  assert (concrete_solution_index c0 = (-1)%Z) as Hindex0.
  { apply compute_initial_collection_Returns in Hinit as ->.
    by destruct (initial_collection_spec opts (goals opts)
                   (Cegar_new initial_blacklist r)) as (_ & -> & _). }
  destruct (main_loop_solution_recorded _ _ _ _ _ _ Hindex0 Hloop)
    as [?|(Hempty & i & p & Hi & Hp & ops & executed & rest & Hplan & Hops & Hvalid)];
    [done|].
  split; [done|]. exists i, p, ops, executed, rest.
  split; [done|]. split; [done|]. split; [|done].
  injection Hrun as Hrun. unfold collect in Hrun.
  rewrite bool_decide_eq_false_2 in Hrun by done. simpl in Hrun.
  rewrite Hi, Nat2Z.id, (proj2 (deref_Returns c1 i p) Hp) in Hrun.
  simpl in Hrun. by simplify_eq.
Qed.

End concrete_solution.

(** ** Detection without flaws *)

Section no_flaws.
Context `{Collaborators} (opts : Options).
Abbreviation init := (get_initial_state_values (task opts)).

Definition all_solved (c : Cegar) : Prop :=
  ∀ i p, projection_collection c !! i = Some (Some p) → is_solved p = true.

(** A call that returns no flaw has recorded a solution or marked the
    slot as solved. *)
Lemma apply_wildcard_plan_no_flaws c i p s c' :
  projection_collection c !! i = Some (Some p) →
  apply_wildcard_plan opts c i s = Returns ([], c') →
  c' = set_concrete_solution_index c (Z.of_nat i) ∨
  c' = mark_slot_as_solved c i p.
Proof.
  intros Hp Hrun. unfold apply_wildcard_plan in Hrun.
  rewrite (proj2 (deref_Returns c i p) Hp) in Hrun. simpl in Hrun.
  destruct (apply_steps _ _ _ _ _ _) as [[|f0 fl] current]; [|done].
  destruct (is_goal_state _ _).
  - destruct (bool_decide _); simplify_eq; auto.
  - destruct (goal_flaws _ _ _ _); simplify_eq; auto.
Qed.

(** Without a recorded solution the loop only appends to the flaws. *)
Lemma get_flaws_loop_grows indices :
  ∀ flaws c fl c1,
    get_flaws_loop opts indices flaws c = Returns (fl, c1) →
    concrete_solution_index c1 = (-1)%Z →
    ∃ more, fl = flaws ++ more.
Proof.
  induction indices as [|j indices IH]; intros flaws c fl c1 Hrun Hi.
  - simpl in Hrun. simplify_eq. exists []. by rewrite app_nil_r.
  - rewrite get_flaws_loop_cons in Hrun.
    destruct (projection_collection c !! j) as [[q|]|]; [|by eapply IH..].
    destruct (is_solved q); [by eapply IH|].
    destruct (is_unsolvable q); [done|].
    apply bind_Returns in Hrun as ([nf c'] & _ & Hrun).
    destruct (bool_decide (concrete_solution_index c' = -1)%Z); simpl in Hrun.
    + destruct (IH _ _ _ _ Hrun Hi) as [more ->].
      exists (nf ++ more). by rewrite app_assoc.
    + apply bind_Returns in Hrun as ([] & Hassert & Hrun).
      apply bind_Returns in Hrun as ([] & _ & Hrun).
      apply bind_Returns in Hrun as ([] & _ & Hrun). simplify_eq.
      unfold assert in Hassert.
      destruct (bool_decide (concrete_solution_index c1 = Z.of_nat j)) eqn:Hb;
        [|done].
      apply bool_decide_eq_true in Hb. lia.
Qed.

Lemma get_flaws_loop_all_solved indices :
  ∀ flaws c c1,
    get_flaws_loop opts indices flaws c = Returns ([], c1) →
    concrete_solution_index c1 = (-1)%Z →
    ∀ j p, j ∈ indices → projection_collection c1 !! j = Some (Some p) →
           is_solved p = true.
Proof.
  induction indices as [|j indices IH]; intros flaws c c1 Hrun Hindex k p Hk Hp.
  { by apply elem_of_nil in Hk. }
  rewrite get_flaws_loop_cons in Hrun.
  assert (∀ flaws' c',
            get_flaws_loop opts indices flaws' c' = Returns ([], c1) →
            (∀ q, projection_collection c' !! j = Some (Some q) →
                  is_solved q = true) →
            is_solved p = true) as Hrest.
  { intros flaws' c' Hrun' Hj.
    apply elem_of_cons in Hk as [->|Hk]; [|by eapply IH].
    destruct (get_flaws_loop_frame opts _ _ _ _ _ Hrun') as (c2 & Hmarked & Hc1).
    assert (projection_collection c1 = projection_collection c2) as Hcoll
        by (by destruct Hc1 as [->|(_ & z & ->)]).
    rewrite Hcoll in Hp.
    destruct (marked_slot _ _ _ _ Hmarked Hp) as (q & Hq & _ & _ & _ & Hs).
    by apply Hs, Hj. }
  destruct (projection_collection c !! j) as [[q|]|] eqn:Hq;
    [|eapply Hrest; [done|]; intros q' Hq'; congruence..].
  destruct (is_solved q) eqn:Hqs.
  { eapply Hrest; [done|]. intros q' Hq'. congruence. }
  destruct (is_unsolvable q) eqn:Hqu; [done|].
  apply bind_Returns in Hrun as ([nf c'] & Hcall & Hrun).
  destruct (bool_decide (concrete_solution_index c' = -1)%Z) eqn:Hc'; simpl in Hrun.
  - assert (nf = []) as ->.
    { destruct (get_flaws_loop_grows _ _ _ _ _ Hrun Hindex) as [more Hmore].
      symmetry in Hmore. apply app_eq_nil in Hmore as [Hfl _].
      by apply app_eq_nil in Hfl as [_ ?]. }
    destruct (apply_wildcard_plan_no_flaws c j q init c' Hq Hcall) as [->| ->].
    + simpl in Hc'. apply bool_decide_eq_true in Hc'. lia.
    + eapply Hrest; [done|]. intros q'. simpl.
      rewrite list_lookup_insert_eq by (by eapply lookup_lt_Some).
      intros ?. by simplify_eq.
  - apply bind_Returns in Hrun as ([] & Hassert & Hrun).
    apply bind_Returns in Hrun as ([] & _ & Hrun).
    apply bind_Returns in Hrun as ([] & _ & Hrun). simplify_eq.
    apply bool_decide_eq_false in Hc'. done.
Qed.

Lemma get_flaws_loop_skips indices :
  ∀ flaws (c : Cegar),
    (∀ i p, projection_collection c !! i = Some (Some p) → is_solved p = true) →
    get_flaws_loop opts indices flaws c = Returns (flaws, c).
Proof.
  induction indices as [|j indices IH]; intros flaws c Hall; [done|].
  rewrite get_flaws_loop_cons.
  destruct (projection_collection c !! j) as [[q|]|] eqn:Hq; [|by apply IH..].
  rewrite (Hall j q Hq). by apply IH.
Qed.

(** X20. The end of refinement.  A detection that returns no flaw and
    records no solution leaves every live slot marked as solved; and on an
    object whose live slots are all marked as solved, detection returns no
    flaw and changes nothing, so the loop of [run] ends in that pass with
    the object as it is. *)
Theorem X20_no_flaws_all_solved :
  (∀ (c : Cegar) c',
     get_flaws opts c = Returns ([], c') →
     concrete_solution_index c' = (-1)%Z →
     all_solved c') ∧
  (∀ (c : Cegar),
     all_solved c →
     get_flaws opts c = Returns ([], c) ∧
     ∀ timer poll refinement_counter,
       iteration opts timer poll refinement_counter c = Returns (Break c)).
Proof.
  split.
  - intros c c' Hget Hindex i p Hp.
    eapply (get_flaws_loop_all_solved _ _ _ _ Hget Hindex i p); [|done].
    apply elem_of_seq. split; [lia|]. simpl.
    destruct (get_flaws_loop_frame opts _ _ _ _ _ Hget) as (c2 & Hmarked & Hc').
    assert (length (projection_collection c') = length (projection_collection c))
      as <-.
    { destruct Hmarked as [_ _ _ _ _ Hslots]. apply Forall2_length in Hslots.
      by destruct Hc' as [->|(_ & z & ->)]. }
    by eapply lookup_lt_Some.
  - intros c Hall.
    assert (get_flaws opts c = Returns ([], c)) as Hget
        by (by apply get_flaws_loop_skips).
    split; [done|]. intros timer poll counter. unfold iteration.
    destruct (termination_conditions_met _ _ _ _); [done|]. by rewrite Hget.
Qed.

End no_flaws.

(** ** Goal variables and blacklisted variables in the patterns *)

Section pattern_contents.
Context `{Collaborators} (opts : Options).

(** Every live pattern holds the variable of a given goal. *)
Definition goal_rooted_on (l : list (option PatternDatabase)) : Prop :=
  ∀ i d, l !! i = Some (Some d) → ∃ g, g ∈ goals opts ∧ var g ∈ pdb_pattern d.

Lemma goal_rooted_stable : Stable opts (fun c => goal_rooted_on (pdbs_of c)).
Proof.
  split; try done.
  - intros c c' Hmarked. by rewrite (marked_pdbs_of _ _ Hmarked).
  - intros c i j c' Hij Hrun Hroot.
    destruct (merge_patterns_spec opts c i j c' Hrun)
      as (pi & pj & Hpi & _ & Hpdbs & _).
    cbv beta. rewrite Hpdbs. intros k d Hd.
    destruct (decide (k = j)) as [->|Hkj].
    { apply list_lookup_insert_Some in Hd as [(_ & ? & _)|[? _]]; done. }
    rewrite list_lookup_insert_ne in Hd by done.
    destruct (decide (k = i)) as [->|Hki].
    + apply list_lookup_insert_Some in Hd as [(_ & ? & _)|[? _]]; [|done].
      simplify_eq. simpl.
      destruct (Hroot i (get_pdb pi) (pdbs_of_lookup _ _ _ Hpi)) as (g & Hg & Hv).
      exists g. split; [done|]. apply elem_of_sort, elem_of_app. by left.
    + rewrite list_lookup_insert_ne in Hd by done. by eapply Hroot.
  - intros c i v c' _ Hrun Hroot.
    destruct (add_variable_to_pattern_spec opts c i v c' Hrun)
      as (p & Hp & Hpdbs & _).
    cbv beta. rewrite Hpdbs. intros k d Hd.
    destruct (decide (k = i)) as [->|Hki].
    + apply list_lookup_insert_Some in Hd as [(_ & ? & _)|[? _]]; [|done].
      simplify_eq. simpl.
      destruct (Hroot i (get_pdb p) (pdbs_of_lookup _ _ _ Hp)) as (g & Hg & Hv).
      exists g. split; [done|]. apply elem_of_sort, elem_of_app. by left.
    + rewrite list_lookup_insert_ne in Hd by done. by eapply Hroot.
Qed.

(** X21. In every state of a run the pattern of every live slot holds
    the variable of at least one given goal: the collection starts from the
    goal variables, and merging and extending keep what a pattern holds. *)
Theorem X21_patterns_hold_goals initial_blacklist r c i p :
  reachable opts initial_blacklist r c →
  projection_collection c !! i = Some (Some p) →
  ∃ g, g ∈ goals opts ∧ var g ∈ get_pattern p.
Proof.
  intros Hc Hp.
  apply (reachable_stable opts (fun c => goal_rooted_on (pdbs_of c))
           initial_blacklist r c goal_rooted_stable) with (i := i); [|done|].
  - intros c0 ->%compute_initial_collection_Returns k d.
    rewrite initial_collection_pdbs. simpl. rewrite list_lookup_fmap.
    destruct (goals opts !! k) as [g|] eqn:Hg; simpl; [|done].
    intros ?. simplify_eq. exists g. split; [by eapply list_elem_of_lookup_2|].
    simpl. by left.
  - by apply pdbs_of_lookup.
Qed.

(** What a refinement step adds to the patterns: the variable of the
    flaw, or nothing. *)
Lemma handle_flaw_covered (c : Cegar) f c' v :
  handle_flaw opts c f = Returns c' →
  covered v c' → covered v c ∨ v = variable f.
Proof.
  unfold handle_flaw. intros Hrun. rewrite !covered_alt.
  destruct (variable_to_projection c !! variable f) as [j|].
  - apply bind_Returns in Hrun as ([] & Hne & Hrun).
    unfold assert in Hne.
    destruct (bool_decide (j = collection_index f)) eqn:Hji; [done|].
    apply bool_decide_eq_false in Hji.
    apply bind_Returns in Hrun as (slot & _ & Hrun).
    apply bind_Returns in Hrun as ([] & _ & Hrun).
    apply bind_Returns in Hrun as (can & _ & Hrun).
    destruct can; [|simplify_eq; by left].
    destruct (merge_patterns_spec opts _ _ _ _ Hrun)
      as (pi & pj & Hpi & Hpj & -> & _).
    intros (k & d & Hd & Hv). left.
    destruct (decide (k = j)) as [->|Hkj].
    { apply list_lookup_insert_Some in Hd as [(_ & ? & _)|[? _]]; done. }
    rewrite list_lookup_insert_ne in Hd by done.
    destruct (decide (k = collection_index f)) as [->|Hki].
    + apply list_lookup_insert_Some in Hd as [(_ & ? & _)|[? _]]; [|done].
      simplify_eq. simpl in Hv.
      apply elem_of_sort, elem_of_app in Hv as [Hv|Hv].
      * exists (collection_index f), (get_pdb pi).
        split; [by apply pdbs_of_lookup|done].
      * exists j, (get_pdb pj). split; [by apply pdbs_of_lookup|done].
    + rewrite list_lookup_insert_ne in Hd by done. by exists k, d.
  - apply bind_Returns in Hrun as (can & _ & Hrun).
    destruct can; [|simplify_eq; by left].
    destruct (add_variable_to_pattern_spec opts _ _ _ _ Hrun)
      as (p & Hp & -> & _).
    intros (k & d & Hd & Hv).
    destruct (decide (k = collection_index f)) as [->|Hki].
    + apply list_lookup_insert_Some in Hd as [(_ & ? & _)|[? _]]; [|done].
      simplify_eq. simpl in Hv.
      apply elem_of_sort, elem_of_app in Hv as [Hv|Hv%list_elem_of_singleton].
      * left. exists (collection_index f), (get_pdb p).
        split; [by apply pdbs_of_lookup|done].
      * by right.
    + rewrite list_lookup_insert_ne in Hd by done. left. by exists k, d.
Qed.

Lemma pass_covered c c' v :
  pass opts c c' → v ∈ blacklisted_variables c → covered v c' → covered v c.
Proof.
  intros (timer & poll & counter & o & Hit & ->) Hbl. unfold iteration in Hit.
  destruct (termination_conditions_met _ _ _ _); [by simplify_eq|].
  apply bind_Returns in Hit as ([flaws c1] & Hget & Hit).
  assert (covered v c1 → covered v c) as Hsame.
  { rewrite !covered_alt.
    destruct (get_flaws_loop_frame opts _ _ _ _ _ Hget) as (c2 & Hmarked & Hc1).
    rewrite <- (marked_pdbs_of _ _ Hmarked).
    by destruct Hc1 as [->|(_ & z & ->)]. }
  destruct flaws as [|f0 flaws]; [by simplify_eq|].
  destruct (time_limit_reached _ _); [by simplify_eq|].
  apply bind_Returns in Hit as (c2 & Hrefine & Hit). simplify_eq. simpl.
  intros Hcov. apply Hsame.
  destruct (get_flaws_well_formed opts _ _ _ Hget) as [Hblack Hwf].
  unfold refine in Hrefine.
  apply bind_Returns in Hrefine as ([] & _ & Hrefine).
  destruct (rng_draw _ _) as [k r']. simpl in Hrefine.
  match type of Hrefine with
  | match ?x with _ => _ end = _ => destruct x as [f|] eqn:Hk; [|done]
  end.
  destruct (handle_flaw_covered _ _ _ v Hrefine Hcov) as [?| ->]; [done|].
  destruct (Hwf f) as [Hnot _]; [by eapply list_elem_of_lookup_2|].
  rewrite Hblack in Hnot. done.
Qed.

(** X22. Blacklisting is final.  A pass of the loop brings no blacklisted
    variable into a pattern: a blacklisted variable that lies in a live
    pattern after the pass lay in one before.  Hence a variable of the
    blacklist given to the constructor lies in a pattern of a run only if
    it is the variable of a given goal. *)
Theorem X22_blacklisted_stay_out :
  (∀ c c' v,
     pass opts c c' → v ∈ blacklisted_variables c → covered v c' → covered v c) ∧
  (∀ initial_blacklist r c v,
     reachable opts initial_blacklist r c →
     v ∈ initial_blacklist → covered v c →
     ∃ g, g ∈ goals opts ∧ var g = v).
Proof.
  split; [apply pass_covered|].
  intros initial_blacklist r c v (c0 & Hinit & Hrtc) Hv.
  assert (initial_blacklist ⊆ blacklisted_variables c0) as Hb0.
  { apply compute_initial_collection_Returns in Hinit as ->.
    by destruct (initial_collection_spec opts (goals opts)
                   (Cegar_new initial_blacklist r)) as (-> & _). }
  assert (covered v c0 → ∃ g, g ∈ goals opts ∧ var g = v) as H0.
  { rewrite covered_alt.
    apply compute_initial_collection_Returns in Hinit as ->.
    rewrite initial_collection_pdbs. simpl.
    intros (k & d & Hd & Hin). rewrite list_lookup_fmap in Hd.
    destruct (goals opts !! k) as [g|] eqn:Hg; simpl in Hd; [|done].
    simplify_eq. simpl in Hin. apply list_elem_of_singleton in Hin as ->.
    exists g. split; [by eapply list_elem_of_lookup_2|done]. }
  clear Hinit. induction Hrtc as [c|c c1 c2 Hpass Hrtc IH]; [done|].
  apply IH.
  - by apply (pass_stable opts _ c c1 (blacklist_grows_stable opts initial_blacklist)).
  - intros Hcov. apply H0. eapply pass_covered; [done| |done]. by apply Hb0.
Qed.

End pattern_contents.

(** ** Unsolvable projections and solved flags *)

Section unsolvable_slots.
Context `{Collaborators} (opts : Options).
Abbreviation init := (get_initial_state_values (task opts)).

(** No live slot is marked as solved and flagged as unsolvable. *)
Definition solved_are_solvable (c : Cegar) : Prop :=
  ∀ i p, projection_collection c !! i = Some (Some p) →
         is_solved p = true → is_unsolvable p = false.

Lemma get_flaws_loop_solvable indices :
  ∀ flaws c fl c1,
    solved_are_solvable c →
    get_flaws_loop opts indices flaws c = Returns (fl, c1) →
    solved_are_solvable c1 ∧
    (concrete_solution_index c1 = (-1)%Z →
     ∀ j p, j ∈ indices → projection_collection c1 !! j = Some (Some p) →
            is_unsolvable p = false).
Proof.
  induction indices as [|j indices IH]; intros flaws c fl c1 Hsolved Hrun.
  { simpl in Hrun. simplify_eq. split; [done|].
    intros _ j p Hj. by apply elem_of_nil in Hj. }
  rewrite get_flaws_loop_cons in Hrun.
  assert (∀ flaws' c',
            solved_are_solvable c' →
            (∀ q, projection_collection c' !! j = Some (Some q) →
                  is_unsolvable q = false) →
            get_flaws_loop opts indices flaws' c' = Returns (fl, c1) →
            solved_are_solvable c1 ∧
            (concrete_solution_index c1 = (-1)%Z →
             ∀ k p, k ∈ j :: indices →
                    projection_collection c1 !! k = Some (Some p) →
                    is_unsolvable p = false)) as Hrest.
  { intros flaws' c' Hsolved' Hj Hrun'.
    destruct (IH _ _ _ _ Hsolved' Hrun') as [Hs1 Hu1]. split; [done|].
    intros Hindex k p [->|Hk]%elem_of_cons Hp; [|by eapply Hu1].
    destruct (get_flaws_loop_frame opts _ _ _ _ _ Hrun') as (c2 & Hmarked & Hc1).
    assert (projection_collection c1 = projection_collection c2) as Hcoll
        by (by destruct Hc1 as [->|(_ & z & ->)]).
    rewrite Hcoll in Hp.
    destruct (marked_slot _ _ _ _ Hmarked Hp) as (q & Hq & _ & _ & -> & _).
    by apply Hj. }
  destruct (projection_collection c !! j) as [[q|]|] eqn:Hq;
    [|eapply Hrest; [done| |done]; intros q' Hq'; congruence..].
  destruct (is_solved q) eqn:Hqs.
  { eapply Hrest; [done| |done]. intros q' Hq'. rewrite Hq in Hq'.
    injection Hq' as <-. by apply (Hsolved j q). }
  destruct (is_unsolvable q) eqn:Hqu; [done|].
  apply bind_Returns in Hrun as ([nf c'] & Hcall & Hrun).
  assert (solved_are_solvable c' ∧
          ∀ q', projection_collection c' !! j = Some (Some q') →
                is_unsolvable q' = false) as [Hsolved' Hj'].
  { destruct (apply_wildcard_plan_cases opts c j q init Hq)
      as [(_ & _ & Hcall')|(_ & nf' & c'' & Hcall' & Hc')];
      rewrite Hcall in Hcall'; simplify_eq.
    - split; [done|]. simpl. intros q' Hq'. congruence.
    - destruct Hc' as [->|[_ ->]]; [split; [done|]; intros q' Hq'; congruence|].
      split.
      + intros k p Hp Hps. destruct (decide (k = j)) as [->|Hne].
        * simpl in Hp. rewrite list_lookup_insert_eq in Hp
            by (by eapply lookup_lt_Some).
          by simplify_eq.
        * rewrite marked_lookup_ne in Hp by done. by eapply Hsolved.
      + intros q'. simpl.
        rewrite list_lookup_insert_eq by (by eapply lookup_lt_Some).
        intros ?. by simplify_eq. }
  destruct (bool_decide (concrete_solution_index c' = -1)%Z) eqn:Hc'; simpl in Hrun.
  - by eapply Hrest.
  - apply bind_Returns in Hrun as ([] & Hassert & Hrun).
    apply bind_Returns in Hrun as ([] & _ & Hrun).
    apply bind_Returns in Hrun as ([] & _ & Hrun). simplify_eq.
    split; [done|]. intros Hindex. apply bool_decide_eq_false in Hc'. done.
Qed.

Lemma handle_flaw_solvable (c : Cegar) f c' :
  handle_flaw opts c f = Returns c' →
  solved_are_solvable c → solved_are_solvable c'.
Proof.
  unfold handle_flaw. intros Hrun Hsolved.
  assert (∀ i pattern r l,
            l = <[i := Some (compute_projection (task opts) pattern r
                               (wildcard_plans opts)).1]> (projection_collection c) →
            ∀ k p, l !! k = Some (Some p) → is_solved p = true →
                   is_unsolvable p = false) as Hinsert.
  { intros i pattern r l -> k p Hp Hps.
    destruct (decide (k = i)) as [->|Hne].
    - apply list_lookup_insert_Some in Hp as [(_ & Hp & _)|[? _]]; [|done].
      simplify_eq. by rewrite compute_projection_solved in Hps.
    - rewrite list_lookup_insert_ne in Hp by done. by eapply Hsolved. }
  destruct (variable_to_projection c !! variable f) as [j|].
  - apply bind_Returns in Hrun as ([] & _ & Hrun).
    apply bind_Returns in Hrun as (slot & _ & Hrun).
    apply bind_Returns in Hrun as ([] & _ & Hrun).
    apply bind_Returns in Hrun as (can & _ & Hrun).
    destruct can; [|by simplify_eq].
    apply merge_patterns_collection in Hrun as (pattern & r & Hcoll).
    intros k p Hp Hps. rewrite Hcoll in Hp.
    destruct (decide (k = j)) as [->|Hne].
    + apply list_lookup_insert_Some in Hp as [(_ & ? & _)|[? _]]; done.
    + rewrite list_lookup_insert_ne in Hp by done.
      by eapply (Hinsert _ _ _ _ eq_refl k p).
  - apply bind_Returns in Hrun as (can & _ & Hrun).
    destruct can; [|by simplify_eq].
    apply add_variable_to_pattern_collection in Hrun as (pattern & r & Hcoll).
    intros k p Hp Hps. rewrite Hcoll in Hp.
    by eapply (Hinsert _ _ _ _ eq_refl k p).
Qed.

Lemma pass_solvable c c' :
  pass opts c c' → solved_are_solvable c → solved_are_solvable c'.
Proof.
  intros (timer & poll & counter & o & Hit & ->) Hsolved. unfold iteration in Hit.
  destruct (termination_conditions_met _ _ _ _); [by simplify_eq|].
  apply bind_Returns in Hit as ([flaws c1] & Hget & Hit).
  destruct (get_flaws_loop_solvable _ _ _ _ _ Hsolved Hget) as [Hsolved1 _].
  destruct flaws as [|f0 flaws]; [by simplify_eq|].
  destruct (time_limit_reached _ _); [by simplify_eq|].
  apply bind_Returns in Hit as (c2 & Hrefine & Hit). simplify_eq. simpl.
  unfold refine in Hrefine.
  apply bind_Returns in Hrefine as ([] & _ & Hrefine).
  destruct (rng_draw _ _) as [k r']. simpl in Hrefine.
  match type of Hrefine with
  | match ?x with _ => _ end = _ => destruct x as [f|]; [|done]
  end.
  by eapply handle_flaw_solvable.
Qed.

Lemma reachable_solvable initial_blacklist r c :
  reachable opts initial_blacklist r c → solved_are_solvable c.
Proof.
  intros (c0 & Hinit & Hrtc).
  assert (solved_are_solvable c0) as H0.
  { apply compute_initial_collection_Returns in Hinit as ->.
    intros i p Hp Hps.
    destruct (initial_collection_spec opts (goals opts)
                (Cegar_new initial_blacklist r)) as (_ & _ & Hlen & _ & Hslots).
    simpl in Hlen, Hslots.
    destruct (goals opts !! i) as [g|] eqn:Hg.
    - destruct (Hslots i g Hg) as (q & Hq & _ & Hqs & _). congruence.
    - apply lookup_lt_Some in Hp. apply lookup_ge_None in Hg. lia. }
  clear Hinit. induction Hrtc as [c|c c1 c2 Hpass _ IH]; [done|].
  apply IH. by eapply pass_solvable.
Qed.

(** X23. An unsolvable projection is never refined.  In every state of a
    run no live slot is both marked as solved and flagged as unsolvable, and
    a detection in such a state that returns without recording a solution
    leaves no unsolvable live slot behind: when [refine] merges or extends,
    the collection holds no unsolvable projection. *)
Theorem X23_unsolvable_never_refined initial_blacklist r c :
  reachable opts initial_blacklist r c →
  (∀ i p, projection_collection c !! i = Some (Some p) →
          is_solved p = true → is_unsolvable p = false) ∧
  (∀ flaws c',
     get_flaws opts c = Returns (flaws, c') →
     concrete_solution_index c' = (-1)%Z →
     ∀ i p, projection_collection c' !! i = Some (Some p) →
            is_unsolvable p = false).
Proof.
  intros Hc. pose proof (reachable_solvable _ _ _ Hc) as Hsolved.
  split; [done|]. intros flaws c' Hget Hindex i p Hp.
  destruct (get_flaws_loop_solvable _ _ _ _ _ Hsolved Hget) as [_ Hu].
  apply (Hu Hindex i p); [|done].
  apply elem_of_seq. split; [lia|]. simpl.
  destruct (get_flaws_loop_frame opts _ _ _ _ _ Hget) as (c2 & Hmarked & Hc').
  assert (length (projection_collection c') = length (projection_collection c))
    as <-.
  { destruct Hmarked as [_ _ _ _ _ Hslots]. apply Forall2_length in Hslots.
    by destruct Hc' as [->|(_ & z & ->)]. }
  by eapply lookup_lt_Some.
Qed.

End unsolvable_slots.

(** ** The slots of the collection *)

Section slots.
Context `{Collaborators} (opts : Options).

Lemma null_slot_stable j :
  Stable opts (fun c => projection_collection c !! j = Some None).
Proof.
  split; try done.
  - intros c c' [_ _ _ _ _ Hslots] Hj.
    destruct (Forall2_lookup_l _ _ _ _ _ Hslots Hj) as (o & Ho & Hm).
    by destruct Hm as [->|(q & ? & _)].
  - intros c i k c' Hik Hrun Hj.
    destruct (merge_patterns_spec opts c i k c' Hrun) as (pi & pk & Hpi & _).
    apply merge_patterns_collection in Hrun as (pattern & r & Hcoll).
    cbv beta. rewrite Hcoll.
    destruct (decide (j = k)) as [->|Hjk].
    + apply list_lookup_insert_eq. rewrite length_insert. by eapply lookup_lt_Some.
    + rewrite list_lookup_insert_ne by done.
      rewrite list_lookup_insert_ne by congruence. done.
  - intros c i v c' _ Hrun Hj.
    destruct (add_variable_to_pattern_spec opts c i v c' Hrun) as (p & Hp & _).
    apply add_variable_to_pattern_collection in Hrun as (pattern & r & Hcoll).
    cbv beta. rewrite Hcoll. rewrite list_lookup_insert_ne by congruence. done.
Qed.

Lemma handle_flaw_live_count (c : Cegar) f c' :
  handle_flaw opts c f = Returns c' →
  length (live_projections c') ≤ length (live_projections c).
Proof.
  unfold handle_flaw. intros Hrun. rewrite !live_count_pdbs.
  destruct (variable_to_projection c !! variable f) as [j|].
  - apply bind_Returns in Hrun as ([] & Hne & Hrun).
    unfold assert in Hne.
    destruct (bool_decide (j = collection_index f)) eqn:Hji; [done|].
    apply bool_decide_eq_false in Hji.
    apply bind_Returns in Hrun as (slot & _ & Hrun).
    apply bind_Returns in Hrun as ([] & _ & Hrun).
    apply bind_Returns in Hrun as (can & _ & Hrun).
    destruct can; [|by simplify_eq].
    destruct (merge_patterns_spec opts _ _ _ _ Hrun)
      as (pi & pj & Hpi & Hpj & -> & _).
    assert (S (length (omap id (<[j := None]>
               (<[collection_index f := Some (make_pdb (task opts)
                    (sort (get_pattern pi ++ get_pattern pj)))]> (pdbs_of c)))))
            = length (omap id (pdbs_of c))); [|lia].
    rewrite (live_count_insert_None _ j (get_pdb pj)).
    + apply (live_count_insert_Some _ _ (get_pdb pi)). by apply pdbs_of_lookup.
    + rewrite list_lookup_insert_ne by done. by apply pdbs_of_lookup.
  - apply bind_Returns in Hrun as (can & _ & Hrun).
    destruct can; [|by simplify_eq].
    destruct (add_variable_to_pattern_spec opts _ _ _ _ Hrun)
      as (p & Hp & -> & _).
    rewrite (live_count_insert_Some _ _ (get_pdb p)); [done|].
    by apply pdbs_of_lookup.
Qed.

(** X24. The slots of the collection.  After initialization the vector
    holds one slot per given goal and its length never changes; a null
    slot stays null through every pass of the loop; and a pass never raises
    the number of live slots. *)
Theorem X24_slots :
  (∀ initial_blacklist r c,
     reachable opts initial_blacklist r c →
     length (projection_collection c) = length (goals opts)) ∧
  (∀ c c' j,
     pass opts c c' →
     projection_collection c !! j = Some None →
     projection_collection c' !! j = Some None) ∧
  (∀ c c',
     pass opts c c' →
     length (live_projections c') ≤ length (live_projections c)).
Proof.
  split; [|split].
  - intros initial_blacklist r c Hc.
    eapply (reachable_stable opts
              (fun c => length (projection_collection c) = length (goals opts)));
      [apply slot_count_stable| |done].
    intros c0 ->%compute_initial_collection_Returns.
    by destruct (initial_collection_spec opts (goals opts)
                   (Cegar_new initial_blacklist r)) as (_ & _ & -> & _).
  - intros c c' j Hpass.
    apply (pass_stable opts _ c c' (null_slot_stable j) Hpass).
  - intros c c' (timer & poll & counter & o & Hit & ->). unfold iteration in Hit.
    destruct (termination_conditions_met _ _ _ _); [by simplify_eq|].
    apply bind_Returns in Hit as ([flaws c1] & Hget & Hit).
    assert (length (live_projections c1) = length (live_projections c)) as Hsame.
    { destruct (get_flaws_loop_frame opts _ _ _ _ _ Hget) as (c2 & Hmarked & Hc1).
      destruct Hmarked as [_ _ _ _ _ Hs]. unfold live_projections.
      rewrite <- (live_count_marked _ _ Hs).
      by destruct Hc1 as [->|(_ & z & ->)]. }
    destruct flaws as [|f0 flaws]; [simplify_eq; simpl; lia|].
    destruct (time_limit_reached _ _); [simplify_eq; simpl; lia|].
    apply bind_Returns in Hit as (c2 & Hrefine & Hit). simplify_eq. simpl.
    rewrite <- Hsame. unfold refine in Hrefine.
    apply bind_Returns in Hrefine as ([] & _ & Hrefine).
    destruct (rng_draw _ _) as [k r']. simpl in Hrefine.
    match type of Hrefine with
    | match ?x with _ => _ end = _ => destruct x as [f|]; [|done]
    end.
    by apply handle_flaw_live_count in Hrefine.
Qed.

End slots.

(** * The properties on concrete tasks *)

Import Reference.
#[local] Existing Instance Reference.collaborators.

(** The object after initialization and after one pass of the loop. *)
Definition initial_collection (opts : Options) (b : gset nat) : Cegar :=
  foldl (fun c goal => add_pattern_for_var opts c (var goal)) (Cegar_new b 0)
        (goals opts).

Definition timer_of (opts : Options) : CountdownTimer :=
  mkTimer (max_time opts) never_late.

Definition after_pass (opts : Options) (c : Cegar) : Cegar :=
  match iteration opts (timer_of opts) 0 0 c with
  | Returns o => state_after o
  | _ => c
  end.

Definition slot (c : Cegar) (i : nat) : Projection :=
  match projection_collection c !! i with
  | Some (Some p) => p
  | _ => mkProjection (mkPDB [] 0 0) [] false false
  end.

Definition detected (opts : Options) (c : Cegar) : FlawList * Cegar :=
  match get_flaws opts c with
  | Returns x => x
  | _ => ([], c)
  end.

Definition S1 : Options := options_for task_S1.
Definition S2 : Options := options_for task_S2.
Definition S3 : Options := options_for task_S3.
Definition S6 : Options := options_for task_S6.


(** A task with one goal, solved by the plan of its only projection. *)
Definition task_single : AbstractTask :=
  mkTask [2]%Z [mkOperator [] [set_value 0 1]] [0]%Z [mkFact 0 1].
Definition single : Options := options_for task_single.

(** Two goals: the first reachable, the second written by no operator. *)
Definition task_half : AbstractTask :=
  mkTask [2; 2]%Z [mkOperator [] [set_value 0 1]] [0; 0]%Z [mkFact 0 1; mkFact 1 1].
Definition half : Options := options_for task_half.

Definition with_max_refinements (opts : Options) (n : Z) : Options :=
  mkOptions n (max_pdb_size opts) (max_collection_size opts) (wildcard_plans opts)
            (max_time opts) (task opts) (goals opts).

Definition with_max_time (opts : Options) (t : option Z) : Options :=
  mkOptions (max_refinements opts) (max_pdb_size opts) (max_collection_size opts)
            (wildcard_plans opts) t (task opts) (goals opts).

Definition with_goals (opts : Options) (gs : list FactPair) : Options :=
  mkOptions (max_refinements opts) (max_pdb_size opts) (max_collection_size opts)
            (wildcard_plans opts) (max_time opts) (task opts) gs.

Lemma initial_collection_reachable opts b :
  goals opts ≠ [] → reachable opts b 0 (initial_collection opts b).
Proof.
  intros Hgoals. exists (initial_collection opts b). split; [|done].
  unfold compute_initial_collection. by rewrite (bool_decide_eq_false_2 _ Hgoals).
Qed.

Lemma after_pass_reachable opts b c :
  reachable opts b 0 c → reachable opts b 0 (after_pass opts c).
Proof.
  intros (c0 & Hc0 & Hrtc). exists c0. split; [done|].
  unfold after_pass.
  destruct (iteration opts (timer_of opts) 0 0 c) as [o| | |] eqn:Hit; try done.
  eapply rtc_r; [done|]. by exists (timer_of opts), 0, 0%Z, o.
Qed.

(** C1 on [S1]: after the first refinement the collection is the single
    pattern [{x, y}], whose plan solves the task. *)
Lemma C1_witness :
  run_loop S1 1 (timer_of S1) 2 1 (after_pass S1 (initial_collection S1 ∅))
  = Some (Returns (mkPCI [[0; 1]] [mkPDB [0; 1] 4 2])).
Proof.
  destruct (C1_concrete_solution S1
              (after_pass S1 (initial_collection S1 ∅)) 0
              (slot (after_pass S1 (initial_collection S1 ∅)) 0))
    as (c' & _ & _ & _ & _ & Hloop).
  - vm_compute; reflexivity.
  - vm_compute; reflexivity.
  - vm_compute; reflexivity.
  - vm_compute; reflexivity.
  - vm_compute; reflexivity.
  - vm_compute; reflexivity.
  - intros j Hj. lia.
  - exact (proj2 (Hloop 0 (timer_of S1) 2 1%Z eq_refl)).
Defined.

(** C3 on [S2]: the only step of the plan of [{a}] fails on [c]. *)
Lemma C3_witness :
  apply_wildcard_plan S2 (initial_collection S2 ∅) 0 [0; 0; 0]%Z
  = Returns ([mkFlaw 0 2], initial_collection S2 ∅).
Proof.
  refine (proj2 (proj2 (C3_wildcard_plan_execution S2))
            (initial_collection S2 ∅) 0 (slot (initial_collection S2 ∅) 0)
            [] [0] [] [0; 0; 0]%Z [0; 0; 0]%Z _ _ _ _ _).
  - vm_compute; reflexivity.
  - vm_compute; reflexivity.
  - vm_compute; reflexivity.
  - vm_compute; reflexivity.
  - discriminate.
Defined.

(** C6 on [S3] with no refinements allowed. *)
Lemma C6_witness :
  run (with_max_refinements S3 0) 1 never_late ∅ 0
  = Some (Returns (mkPCI [[0]; [1]; [2]]
                         [mkPDB [0] 2 1; mkPDB [1] 2 1; mkPDB [2] 2 1])).
Proof.
  refine (proj2 (C6_no_refinements (with_max_refinements S3 0) 0 never_late ∅ 0 _ _)).
  - reflexivity.
  - discriminate.
Defined.


Lemma half_second_goal_unreachable :
  unreachable_in_projection task_half (mkFact 1 1).
Proof.
  assert (∀ path s a,
            holds s (mkFact 1 1) = false →
            abstract_path task_half [1] s path = Some a →
            holds a (mkFact 1 1) = false) as Hgen.
  { induction path as [|k path IH]; intros s a Hs Hrun; simpl in Hrun.
    - by simplify_eq.
    - destruct (applicable s _); [|done].
      assert (get_unregistered_successor s
                (project_operator [1] (operator_at task_half k)) = s) as Hsame
        by (by destruct k as [|[|k]]).
      rewrite Hsame in Hrun. by eapply IH. }
  intros path a. by apply Hgen.
Qed.


(** C2 on [S3]: the collection after the first refinement. *)
Lemma C2_witness : pairwise_disjoint (after_pass S3 (initial_collection S3 ∅)).
Proof.
  refine (C2_live_patterns_disjoint S3 ∅ 0 _ _ _).
  - apply (bool_decide_unpack _). vm_compute. exact I.
  - apply after_pass_reachable, initial_collection_reachable. discriminate.
Defined.

(** C2 with the goal [x = 1] of [task_S1] given twice: the entry check
    accepts the goals, and initialization builds two slots with the same
    pattern. *)
Lemma C2_counterexample :
  forallb (fun goal => bool_decide (goal ∈ get_goals task_S1))
          [mkFact 0 1; mkFact 0 1] = true ∧
  reachable (with_goals S1 [mkFact 0 1; mkFact 0 1]) ∅ 0
            (initial_collection (with_goals S1 [mkFact 0 1; mkFact 0 1]) ∅) ∧
  ¬ pairwise_disjoint (initial_collection (with_goals S1 [mkFact 0 1; mkFact 0 1]) ∅).
Proof.
  split; [vm_compute; reflexivity|]. split.
  - apply initial_collection_reachable. discriminate.
  - intros Hdisjoint.
    apply (Hdisjoint 0 1
             (slot (initial_collection (with_goals S1 [mkFact 0 1; mkFact 0 1]) ∅) 0)
             (slot (initial_collection (with_goals S1 [mkFact 0 1; mkFact 0 1]) ∅) 1)
             ltac:(lia) eq_refl eq_refl 0); by left.
Qed.

(** A task on which the size bookkeeping leaves the range of [int].  The
    operators and goals are those of [task_S3]; the domains of [a] and [c]
    have 46340 values each and that of [b] has 100000.  The PDB size limit
    is infinite and the collection may hold ten million states. *)
Definition task_wide : AbstractTask :=
  mkTask [46340; 100000; 46340]%Z
         [mkOperator [mkFact 2 1] [set_value 0 1];
          mkOperator [] [set_value 2 1];
          mkOperator [] [set_value 1 1]]
         [0; 0; 0]%Z [mkFact 0 1; mkFact 1 1; mkFact 2 1].

Definition wide : Options :=
  mkOptions Int.max_int Int.max_int 10000000 true None task_wide
            (get_goals task_wide).

(** The first refinement on [wide] handles the flaw of [{a}] on [c] and
    merges the first and the third slot. *)
Lemma wide_refinement :
  ∃ c',
    refine wide (initial_collection wide ∅)
           (detected wide (initial_collection wide ∅)).1 = Returns c' ∧
    merge_patterns wide (set_rng (initial_collection wide ∅) 1) 0 2 = Returns c'.
Proof.
  destruct (merge_patterns_returns wide (set_rng (initial_collection wide ∅) 1) 0 2
              (slot (initial_collection wide ∅) 0)
              (slot (initial_collection wide ∅) 2)) as [c' Hc'];
    [vm_compute; reflexivity..|].
  exists c'. split; [|done].
  rewrite (refine_chosen wide _ _ (mkFlaw 0 2)) by (vm_compute; reflexivity).
  change (rng_draw _ _).2 with 1%nat.
  rewrite (handle_flaw_other_slot wide _ 0 2 2
             (slot (initial_collection wide ∅) 0)
             (slot (initial_collection wide ∅) 2));
    [|vm_compute; reflexivity|lia|vm_compute; reflexivity..].
  assert (is_product_within_limit
            (get_size (get_pdb (slot (initial_collection wide ∅) 0)))
            (get_size (get_pdb (slot (initial_collection wide ∅) 2)))
            (max_pdb_size wide)
          && bool_decide
               (merged_collection_size (set_rng (initial_collection wide ∅) 1%nat)
                  (get_size (get_pdb (slot (initial_collection wide ∅) 0)))
                  (get_size (get_pdb (slot (initial_collection wide ∅) 2)))
                ≤ max_collection_size wide)%Z = true) as ->
    by (vm_compute; reflexivity).
  done.
Qed.

(** The object after that refinement. *)
Lemma wide_first_refinement :
  ∃ c',
    refine wide (initial_collection wide ∅)
           (detected wide (initial_collection wide ∅)).1 = Returns c' ∧
    reachable wide ∅ 0 c' ∧
    projection_collection c' !! 2 = Some None ∧
    (∃ merged, projection_collection c' !! 0 = Some (Some merged) ∧
               get_pattern merged = [0; 2]) ∧
    blacklisted_variables c' = ∅ ∧
    collection_size c' = (-2147471696)%Z ∧
    total_size c' = 2147495600%Z.
Proof.
  destruct wide_refinement as (c' & Hrefine & Hmerge).
  exists c'. split; [done|].
  destruct (merge_patterns_result wide
              (set_rng (initial_collection wide ∅) 1) 0 2
              (slot (initial_collection wide ∅) 0)
              (slot (initial_collection wide ∅) 2) c')
    as (Hnull & Hmerged & Hbl & Hsize & Htotal);
    [lia|vm_compute; reflexivity..|done|].
  assert (sort (get_pattern (slot (initial_collection wide ∅) 0)
                ++ get_pattern (slot (initial_collection wide ∅) 2)) = [0; 2])
    as Hsort by (vm_compute; reflexivity).
  rewrite Hsort in Hmerged, Hsize, Htotal.
  split.
  { destruct (initial_collection_reachable wide ∅) as (c0 & Hc0 & Hrtc);
      [discriminate|].
    exists c0. split; [done|]. eapply rtc_r; [done|].
    exists (timer_of wide), 0, 0%Z, (Continue c'). split; [|done].
    apply (iteration_Continue wide _ _ _ _ (initial_collection wide ∅) _
             (detected wide (initial_collection wide ∅)).1);
      [vm_compute; reflexivity|vm_compute; reflexivity|vm_compute; discriminate
      |vm_compute; reflexivity|done]. }
  split; [done|]. split; [done|]. split; [by rewrite Hbl|].
  split.
  - rewrite Hsize. vm_compute. reflexivity.
  - rewrite Htotal. vm_compute. reflexivity.
Qed.

(** C4 on [wide]: a merge beyond [max_collection_size].  The flaw chosen
    in the first refinement is that of slot 0, [{a}], on [c], which lies in
    slot 2.  The two PDBs have 46340 states each; their product is within
    [max_pdb_size], but [collection_size + (s_i * s_j - s_i - s_j)] is
    [2147495600], beyond [max_collection_size] (and beyond the largest
    [int]).  The claim has [c] blacklisted and the collection unchanged;
    the code, comparing the wrapped sum, merges the two slots: slot 2 is
    null, slot 0 holds the pattern [{a, c}], [c] is not blacklisted, and
    the live PDBs now hold more states than [max_collection_size]. *)
Theorem C4_merge_beyond_limit :
  let c := initial_collection wide ∅ in
  let flaws := (detected wide c).1 in
  flaws !! (rng_draw (rng c) (length flaws)).1 = Some (mkFlaw 0 2) ∧
  variable_to_projection c !! 2 = Some 2 ∧
  get_size (get_pdb (slot c 0)) = 46340%Z ∧
  get_size (get_pdb (slot c 2)) = 46340%Z ∧
  collection_size c = 192680%Z ∧
  (46340 * 46340 ≤ max_pdb_size wide)%Z ∧
  ¬ (collection_size c + (46340 * 46340 - 46340 - 46340)
     ≤ max_collection_size wide)%Z ∧
  ∃ c',
    refine wide c flaws = Returns c' ∧
    projection_collection c' !! 2 = Some None ∧
    (∃ merged, projection_collection c' !! 0 = Some (Some merged) ∧
               get_pattern merged = [0; 2]) ∧
    (2 ∉ blacklisted_variables c') ∧
    (max_collection_size wide < total_size c')%Z.
Proof.
  split; [vm_compute; reflexivity|]. split; [vm_compute; reflexivity|].
  split; [vm_compute; reflexivity|]. split; [vm_compute; reflexivity|].
  split; [vm_compute; reflexivity|]. split; [vm_compute; discriminate|].
  split.
  { assert (collection_size (initial_collection wide ∅) = 192680%Z) as ->
      by (vm_compute; reflexivity).
    vm_compute. intros Hle. by apply Hle. }
  destruct wide_first_refinement
    as (c' & Hrefine & _ & Hnull & Hmerged & Hbl & _ & Htotal).
  exists c'. split; [done|]. split; [done|]. split; [done|]. split.
  - rewrite Hbl. apply not_elem_of_empty.
  - rewrite Htotal. vm_compute. reflexivity.
Qed.

(** C7 on [wide]: a state of the run in which [collection_size] is not
    the sum of the PDB sizes of the live slots.  After the first
    refinement the live PDBs hold [2147495600] states, more than the
    largest [int], and [collection_size] is [-2147471696]. *)
Theorem C7_counter_overflows :
  ∃ c, reachable wide ∅ 0 c ∧
       collection_size c = (-2147471696)%Z ∧
       total_size c = 2147495600%Z ∧
       collection_size c ≠ total_size c.
Proof.
  destruct wide_first_refinement
    as (c' & _ & Hreach & _ & _ & _ & Hsize & Htotal).
  exists c'. split; [done|]. split; [done|]. split; [done|].
  rewrite Hsize, Htotal. discriminate.
Qed.


Definition outcome_of {A} (x : option (Outcome A)) : Outcome A :=
  match x with Some o => o | None => Undefined end.

(** The reference collaborators with another generator: its state is an
    integer, which a draw reads as a natural number and raises by one. *)
Definition integer_generator : Collaborators := {|
  RandomNumberGenerator := Z;
  rng_draw z n := (Z.to_nat z `mod` n, (z + 1)%Z);
  pdb_num_states := num_states;
  pdb_initial_distance := initial_distance;
  steepest_ascent_enforced_hillclimbing task pattern z wildcard :=
    ((plan_extractor task pattern 0 wildcard).1, z);
  get_ancestor_operator_id := ancestor;
|}.

(** The counter [r] and the integer [z] are seeded alike when [z] is
    [r]. *)
Definition seeded_alike (r : nat) (z : Z) : Prop := z = Z.of_nat r.

Lemma integer_generator_same_answers opts :
  same_answers collaborators integer_generator opts seeded_alike.
Proof.
  unfold seeded_alike. split; simpl; try done.
  intros r1 r2 n ->. rewrite Nat2Z.id. split; [done|lia].
Qed.


(** One operator whose only effect, on [x], is conditioned on [y], which
    no operator writes; the goal is on [x]. *)
Definition task_conditional : AbstractTask :=
  mkTask [2; 2]%Z [mkOperator [] [mkEffect [mkFact 1 1] (mkFact 0 1)]]
         [0; 0]%Z [mkFact 0 1].
Definition conditional : Options := options_for task_conditional.


(** A given goal that is not a goal of the task: only [y] is a goal and
    the goal given is on [x].  The projection onto [{x}] has no goal, its
    plan is empty, and detection raises the goal flaw of slot 0 on [x]
    itself.  [cegar] rejects such goals on entry; [run] by itself does
    not. *)
Definition task_y : AbstractTask :=
  mkTask [2; 2]%Z [mkOperator [] [set_value 0 1]; mkOperator [] [set_value 1 1]]
         [0; 0]%Z [mkFact 1 1].

Example foreign_goal_flaw :
  get_flaws (with_goals (options_for task_y) [mkFact 0 1])
            (initial_collection (with_goals (options_for task_y) [mkFact 0 1]) ∅)
  = Returns ([mkFlaw 0 0],
             initial_collection (with_goals (options_for task_y) [mkFact 0 1]) ∅) ∧
  run (with_goals (options_for task_y) [mkFact 0 1]) 1 never_late ∅ 0
  = Some AssertionFailed ∧
  cegar (with_goals (options_for task_y) [mkFact 0 1]) 1 never_late ∅ 0
  = Some (ExitWith SEARCH_INPUT_ERROR).
Proof. repeat split; vm_compute; reflexivity. Qed.


(** The initial collection of [S3] passes the check of the plan contract:
    the first part of the statement on flaws applies to it as well. *)
Example S3_initial_plans_valid :
  plans_valid S3 (initial_collection S3 ∅) ∧
  (detected S3 (initial_collection S3 ∅)).1
  = [mkFlaw 0 2; mkFlaw 1 0; mkFlaw 1 2; mkFlaw 2 0; mkFlaw 2 1].
Proof.
  split; [|vm_compute; reflexivity].
  apply check_plans_sound. vm_compute; reflexivity.
Qed.

(** C10 on [S2] with [c] blacklisted from the start. *)
Lemma C10_witness :
  {[2]} ⊆ blacklisted_variables (after_pass S2 (initial_collection S2 {[2]})) ∧
  ({[2]} ≠ (∅ : gset nat) →
   concrete_solution_index (after_pass S2 (initial_collection S2 {[2]})) = (-1)%Z).
Proof.
  refine (proj1 (proj2 (C10_blacklist_grows S2)) {[2]} 0
            (after_pass S2 (initial_collection S2 {[2]})) _).
  apply after_pass_reachable, initial_collection_reachable. discriminate.
Defined.

(** ** The scenarios of the specification, run *)

(** S2 from the initial collection on: the first detection and the first
    refinement, which adds [c] to the pattern of [a]. *)
Example S2_first_refinement :
  (detected S2 (initial_collection S2 ∅)).1 = [mkFlaw 0 2; mkFlaw 1 0] ∧
  pdbs_of (after_pass S2 (initial_collection S2 ∅))
  = [Some (mkPDB [0; 2] 4 2); Some (mkPDB [1] 2 1)].
Proof. split; vm_compute; reflexivity. Qed.

(** S3: the same flaw merges the slots of [a] and [c]. *)
Example S3_first_refinement :
  pdbs_of (after_pass S3 (initial_collection S3 ∅))
  = [Some (mkPDB [0; 2] 4 2); Some (mkPDB [1] 2 1); None].
Proof. vm_compute; reflexivity. Qed.

(** S4: with [max_pdb_size = 2] nothing can be added; the flawed
    variables are blacklisted one by one and the initial collection is
    returned. *)
Example S4_blacklisting :
  run (mkOptions Int.max_int 2 Int.max_int true None task_S2 (get_goals task_S2))
      10 never_late ∅ 0
  = Some (Returns (mkPCI [[0]; [1]] [mkPDB [0] 2 1; mkPDB [1] 2 1])).
Proof. vm_compute; reflexivity. Qed.

(** S5: with [max_time = 0] the loop ends at its first check. *)
Example S5_time_limit :
  run (with_max_time S2 (Some 0%Z)) 10 never_late ∅ 0
  = Some (Returns (mkPCI [[0]; [1]] [mkPDB [0] 2 1; mkPDB [1] 2 1])).
Proof. vm_compute; reflexivity. Qed.

(** S6: the goal variable is written by no operator. *)
Example S6_unsolvable :
  cegar S6 10 never_late ∅ 0 = Some (ExitWith SEARCH_UNSOLVABLE).
Proof. vm_compute; reflexivity. Qed.

(** ** The further properties on concrete tasks *)

(** X1 on the first operator of [task_S3] in the initial state: its one
    effect writes [a]. *)
Lemma X1_witness :
  state_value (get_unregistered_successor [0; 0; 0]%Z (operator_at task_S3 0)) 0
  = 1%Z.
Proof.
  refine (proj1 (proj2 (proj2 (X1_successor_effects [0; 0; 0]%Z
                                 (operator_at task_S3 0))))
            [] (set_value 0 1) [] _ _ _ _).
  - reflexivity.
  - reflexivity.
  - simpl. lia.
  - intros e' He'. by apply elem_of_nil in He'.
Defined.

(** A slot of [task_single] whose plan holds an empty step after the
    step that solves the task. *)
Definition with_empty_step : Cegar :=
  mkCegar ∅ 0 [Some (mkProjection (mkPDB [0] 2 1) [[0]; []; [0]] false false)]
          {[0 := 0]} 2 (-1).

(** X2 on that slot: execution ends at the empty step, in a goal state. *)
Lemma X2_witness :
  apply_wildcard_plan single with_empty_step 0 [0]%Z
  = Returns ([], set_concrete_solution_index with_empty_step 0).
Proof.
  refine (proj2 (X2_empty_step_ends_execution single) with_empty_step 0
            (slot with_empty_step 0) [[0]] [[0]] [0]%Z [1]%Z _ _ _ _ _).
  - reflexivity.
  - reflexivity.
  - vm_compute; reflexivity.
  - vm_compute; reflexivity.
  - reflexivity.
Defined.

(** X3 on [S2]: the flaw of [{a}] on [c], which is in no pattern. *)
Lemma X3_witness :
  ∃ c' extended,
    handle_flaw S2 (initial_collection S2 ∅) (mkFlaw 0 2) = Returns c' ∧
    add_variable_to_pattern S2 (initial_collection S2 ∅) 0 2 = Returns c' ∧
    projection_collection c'
    = <[0 := Some extended]> (projection_collection (initial_collection S2 ∅)) ∧
    get_pattern extended = [0; 2] ∧
    variable_to_projection c'
    = <[2 := 0]> (variable_to_projection (initial_collection S2 ∅)) ∧
    blacklisted_variables c' = blacklisted_variables (initial_collection S2 ∅).
Proof.
  refine (proj1 (X3_add_or_blacklist S2 (initial_collection S2 ∅) 0 2
                   (slot (initial_collection S2 ∅) 0) _ _ _ _ _) _).
  - vm_compute; reflexivity.
  - vm_compute; reflexivity.
  - vm_compute; discriminate.
  - vm_compute; discriminate.
  - vm_compute; discriminate.
  - split; vm_compute; discriminate.
Defined.

(** X4 on [task_S1] with no goals given. *)
Lemma X4_witness :
  cegar (with_goals S1 []) 0 never_late ∅ 0 = Some AssertionFailed.
Proof.
  refine (proj1 (X4_empty_goals (with_goals S1 []) 0 never_late ∅ 0 _)).
  reflexivity.
Defined.

(** X5 on [S2] with [max_time = 0]. *)
Lemma X5_witness :
  run (with_max_time S2 (Some 0%Z)) 1 never_late ∅ 0
  = Some (Returns (mkPCI [[0]; [1]] [mkPDB [0] 2 1; mkPDB [1] 2 1])).
Proof.
  refine (proj1 (X5_time_limit (with_max_time S2 (Some 0%Z))) 0 never_late ∅ 0 _ _).
  - discriminate.
  - reflexivity.
Defined.

(** X6 on [S3]: the first flaw of the first detection, on [c]. *)
Lemma X6_witness :
  2 ∉ blacklisted_variables (detected S3 (initial_collection S3 ∅)).2.
Proof.
  refine (proj1 (proj2 (X6_flaws_well_formed S3 (initial_collection S3 ∅)
                          (detected S3 (initial_collection S3 ∅)).1
                          (detected S3 (initial_collection S3 ∅)).2 _)
                   (mkFlaw 0 2) _)).
  - vm_compute; reflexivity.
  - apply (bool_decide_unpack _). vm_compute. exact I.
Defined.

(** X7 on [S3] with one refinement allowed: two passes suffice. *)
Lemma X7_witness :
  ∃ o, run (with_max_refinements S3 1) 2 never_late ∅ 0 = Some o.
Proof.
  refine (proj2 (X7_refinement_bound (with_max_refinements S3 1) _) never_late ∅ 0).
  simpl. unfold Int.max_int. lia.
Defined.

(** X8 on [S3]: the first refinement merges two slots. *)
Lemma X8_witness :
  refinement_potential S3 (after_pass S3 (initial_collection S3 ∅))
  < refinement_potential S3 (initial_collection S3 ∅).
Proof.
  refine (proj1 (X8_run_terminates S3) (timer_of S3) 0 0%Z
            (initial_collection S3 ∅) (after_pass S3 (initial_collection S3 ∅)) _).
  vm_compute; reflexivity.
Defined.

(** X9 on [task_S1] with a goal value the task does not ask for. *)
Lemma X9_witness :
  cegar (with_goals S1 [mkFact 0 0]) 1 never_late ∅ 0
  = Some (ExitWith SEARCH_INPUT_ERROR).
Proof.
  refine (proj2 (X9_input_error (with_goals S1 [mkFact 0 0]) 1 never_late ∅ 0) _).
  exists (mkFact 0 0). split; [by left|].
  apply (bool_decide_unpack _). vm_compute. exact I.
Defined.


Lemma reference_rng_in_bounds : @rng_in_bounds collaborators.
Proof.
  intros r n Hn. simpl. apply Nat.mod_upper_bound. lia.
Qed.

(** X11 on [S3] with the reference collaborators. *)
Lemma X11_witness :
  ∃ o, cegar S3 (S (length (goals S3) + 2 * size (flaw_candidates S3)))
             never_late ∅ 0 = Some o ∧
       o ≠ AssertionFailed ∧ o ≠ Undefined.
Proof.
  refine (proj2 (X11_regular_end S3 never_late ∅ 0 _ _ _ _)).
  - exact reference_rng_in_bounds.
  - apply ReferenceContract.extractor_contract_holds.
  - vm_compute; reflexivity.
  - discriminate.
Defined.


(** X13 on [S3]: after the merge of the slots of [a] and [c], the goal
    variable [c] is in the pattern of the first slot. *)
Lemma X13_witness : covered 2 (after_pass S3 (initial_collection S3 ∅)).
Proof.
  refine (proj1 (proj2 (X13_variables_stay_covered S3)) ∅ 0
            (after_pass S3 (initial_collection S3 ∅)) (mkFact 2 1) _ _).
  - apply after_pass_reachable, initial_collection_reachable. discriminate.
  - right. right. left.
Defined.

(** X14 on [S3]: after the merge, [c] is mapped to the first slot. *)
Lemma X14_witness :
  ∃ p, projection_collection (after_pass S3 (initial_collection S3 ∅)) !! 0
       = Some (Some p) ∧ 2 ∈ get_pattern p.
Proof.
  refine (proj1 (proj2 (proj2 (proj2 (X14_variable_map S3)))) ∅ 0
            (after_pass S3 (initial_collection S3 ∅)) 2 0 _ _).
  - apply after_pass_reachable, initial_collection_reachable. discriminate.
  - vm_compute; reflexivity.
Defined.

(** X15 on [S3]: the merged pattern. *)
Lemma X15_witness :
  StronglySorted lt (get_pattern (slot (after_pass S3 (initial_collection S3 ∅)) 0)).
Proof.
  refine (proj2 (X15_patterns_ascending S3 ∅ 0
                   (after_pass S3 (initial_collection S3 ∅)) 0
                   (slot (after_pass S3 (initial_collection S3 ∅)) 0) _ _) _).
  - apply after_pass_reachable, initial_collection_reachable. discriminate.
  - vm_compute; reflexivity.
  - apply (bool_decide_unpack _). vm_compute. exact I.
Defined.

(** X16 on [S3]: the merge test for the slots of [a] and [c]. *)
Lemma X16_witness :
  can_merge_patterns S3 (initial_collection S3 ∅) 0 2 = Returns true.
Proof.
  refine (proj1 (X16_size_tests_exact S3 (initial_collection S3 ∅) _) 0 2
            (slot (initial_collection S3 ∅) 0) (slot (initial_collection S3 ∅) 2)
            _ _ _ _).
  - vm_compute. split; discriminate.
  - vm_compute; reflexivity.
  - vm_compute; reflexivity.
  - vm_compute. split; discriminate.
  - vm_compute. split; discriminate.
Defined.

(** X17 on [S3]: the first detection. *)
Lemma X17_witness :
  pdbs_of (detected S3 (initial_collection S3 ∅)).2
  = pdbs_of (initial_collection S3 ∅).
Proof.
  refine (proj1 (X17_detection_frame S3 (initial_collection S3 ∅)
                   (detected S3 (initial_collection S3 ∅)).1
                   (detected S3 (initial_collection S3 ∅)).2 _)).
  vm_compute; reflexivity.
Defined.

(** The initial collection of [S3] as logged: the last slot is live and
    the patterns are separated pairwise. *)
Example S3_initial_collection_logged :
  print_collection (initial_collection S3 ∅)
  = [LogOpen; LogPattern [0]; LogSeparator; LogPattern [1]; LogSeparator;
     LogPattern [2]; LogClose; LogEndl].
Proof. vm_compute; reflexivity. Qed.

(** The collection of [S3] after the merge, as logged: the null slot at
    the end leaves a separator behind the last pattern. *)
Example S3_collection_logged :
  print_collection (after_pass S3 (initial_collection S3 ∅))
  = [LogOpen; LogPattern [0; 2]; LogSeparator; LogPattern [1]; LogSeparator;
     LogClose; LogEndl].
Proof. vm_compute; reflexivity. Qed.

(** X19 on [S1]: the run ends with the pattern [{x, y}], whose plan
    solves the task. *)
Lemma X19_witness :
  ∃ c, reachable S1 ∅ 0 c ∧
       collect c = Returns (mkPCI [[0; 1]] [mkPDB [0; 1] 4 2]) ∧
       (concrete_solution_index c ≠ (-1)%Z →
        blacklisted_variables c = ∅ ∧
        ∃ i p ops executed rest,
          concrete_solution_index c = Z.of_nat i ∧
          projection_collection c !! i = Some (Some p) ∧
          mkPCI [[0; 1]] [mkPDB [0; 1] 4 2] = mkPCI [get_pattern p] [get_pdb p] ∧
          get_plan p = executed ++ rest ∧
          Forall2 (fun op_id step => op_id ∈ step) ops executed ∧
          is_plan (task S1) (get_initial_state_values (task S1)) ops = true).
Proof.
  refine (X19_solution_is_plan S1 10 never_late ∅ 0
            (mkPCI [[0; 1]] [mkPDB [0; 1] 4 2]) _).
  vm_compute; reflexivity.
Defined.

(** [task_S2] with [max_pdb_size = 2]: nothing can be merged or extended. *)
Definition S4 : Options :=
  mkOptions Int.max_int 2 Int.max_int true None task_S2 (get_goals task_S2).

(** X20 on [S4]: after three refinements, each of which blacklists a
    variable, the fourth detection returns no flaw. *)
Lemma X20_witness :
  all_solved
    (detected S4 (after_pass S4 (after_pass S4 (after_pass S4
                    (initial_collection S4 ∅))))).2.
Proof.
  refine (proj1 (X20_no_flaws_all_solved S4)
            (after_pass S4 (after_pass S4 (after_pass S4 (initial_collection S4 ∅))))
            (detected S4 (after_pass S4 (after_pass S4 (after_pass S4
                            (initial_collection S4 ∅))))).2 _ _).
  - vm_compute; reflexivity.
  - vm_compute; reflexivity.
Defined.

(** X21 on [S3]: the merged pattern [{a, c}] holds the goal variable [a]. *)
Lemma X21_witness :
  ∃ g, g ∈ goals S3 ∧
       var g ∈ get_pattern (slot (after_pass S3 (initial_collection S3 ∅)) 0).
Proof.
  refine (X21_patterns_hold_goals S3 ∅ 0
            (after_pass S3 (initial_collection S3 ∅)) 0
            (slot (after_pass S3 (initial_collection S3 ∅)) 0) _ _).
  - apply after_pass_reachable, initial_collection_reachable. discriminate.
  - vm_compute; reflexivity.
Defined.

(** X22 on [S2] with the goal variable [a] blacklisted from the start:
    [a] stays in the pattern of its slot. *)
Lemma X22_witness : ∃ g, g ∈ goals S2 ∧ var g = 0.
Proof.
  refine (proj2 (X22_blacklisted_stay_out S2) {[0]} 0
            (after_pass S2 (initial_collection S2 {[0]})) 0 _ _ _).
  - apply after_pass_reachable, initial_collection_reachable. discriminate.
  - by apply elem_of_singleton.
  - exists 0, (slot (after_pass S2 (initial_collection S2 {[0]})) 0).
    split; [vm_compute; reflexivity|].
    apply (bool_decide_unpack _). vm_compute. exact I.
Defined.

(** X23 on [S3]: after the first detection no live slot is unsolvable. *)
Lemma X23_witness :
  is_unsolvable (slot (detected S3 (initial_collection S3 ∅)).2 0) = false.
Proof.
  refine (proj2 (X23_unsolvable_never_refined S3 ∅ 0 (initial_collection S3 ∅) _)
            (detected S3 (initial_collection S3 ∅)).1
            (detected S3 (initial_collection S3 ∅)).2 _ _ 0
            (slot (detected S3 (initial_collection S3 ∅)).2 0) _).
  - apply initial_collection_reachable. discriminate.
  - vm_compute; reflexivity.
  - vm_compute; reflexivity.
  - vm_compute; reflexivity.
Defined.

(** X24 on [S3]: the slot of [c], null after the merge, is null after
    the next pass as well. *)
Lemma X24_witness :
  projection_collection
    (after_pass S3 (after_pass S3 (initial_collection S3 ∅))) !! 2 = Some None.
Proof.
  refine (proj1 (proj2 (X24_slots S3))
            (after_pass S3 (initial_collection S3 ∅))
            (after_pass S3 (after_pass S3 (initial_collection S3 ∅))) 2 _ _).
  - exists (timer_of S3), 0, 0%Z,
      (Continue (after_pass S3 (after_pass S3 (initial_collection S3 ∅)))).
    split; [vm_compute; reflexivity|reflexivity].
  - vm_compute; reflexivity.
Defined.

(** X25 on [S3]: the flaw of [{a}] on [c], which lies in the third slot. *)
Lemma X25_witness :
  ∃ c' merged,
    handle_flaw S3 (initial_collection S3 ∅) (mkFlaw 0 2) = Returns c' ∧
    merge_patterns S3 (initial_collection S3 ∅) 0 2 = Returns c' ∧
    projection_collection c' !! 2 = Some None ∧
    projection_collection c' !! 0 = Some (Some merged) ∧
    get_pattern merged = [0; 2].
Proof.
  refine (proj1 (X25_merge_or_blacklist S3 (initial_collection S3 ∅) 0 2 2
                   (slot (initial_collection S3 ∅) 0)
                   (slot (initial_collection S3 ∅) 2) _ _ _ _ _ _ _) _).
  - vm_compute; reflexivity.
  - lia.
  - vm_compute; reflexivity.
  - vm_compute; reflexivity.
  - vm_compute; discriminate.
  - vm_compute; discriminate.
  - vm_compute; discriminate.
  - split; vm_compute; discriminate.
Defined.

(** X26 on [S3]: the collection after the first refinement. *)
Lemma X26_witness :
  collection_size (after_pass S3 (initial_collection S3 ∅))
  = total_size (after_pass S3 (initial_collection S3 ∅)).
Proof.
  refine (proj2 (proj2 (proj2 (proj2 (X26_collection_size_modulo S3))) ∅ 0
                   (after_pass S3 (initial_collection S3 ∅)) _) _).
  - apply after_pass_reachable, initial_collection_reachable. discriminate.
  - split; vm_compute; discriminate.
Defined.
